(** * dear-engine: the simulation core, embedded and verified

    A shallow embedding of the fixed-timestep game core of dear-engine
    (and of its first generation, inmath): components, AABB collision,
    sprite animation, timed actions, the resource caches, one
    [game_update] tick, the object render loop and the frame loop.

    Conventions of the embedding.
    - C++ [float] is modelled by exact rationals [Q]; rounding, infinities
      and NaN are outside the model.  Equality of computed scalars is
      therefore [Qeq] ([==]); copies are Leibniz-equal.
    - [std::optional<T>] is [option T]; dereferencing an empty optional,
      indexing a vector out of range, stepping an iterator past the end and
      signed overflow are undefined behaviour, result [Undef].
    - [ASSERT]/[ASSERT_GET] failures call [std::abort], result [Abort].
    - [std::shared_ptr] handles to immutable GPU/audio objects are modelled
      by the object they point to, identified by its driver id; where handle
      identity itself matters (the resource caches) the heap is explicit.
    - [std::function] components are defunctionalised: the closed set of
      closures the sources install, interpreted by a [run_*] function. *)

From Stdlib Require Import ZArith QArith Qround Lqa Lia.
From stdpp Require Import base option list gmap strings.

Local Open Scope Q_scope.

(** ** Scalars *)

(** [a < b] on floats, as a boolean. *)
Definition Qltb (a b : Q) : bool := negb (Qle_bool b a).

(** [a >= b] on floats, as a boolean. *)
Definition Qgeb (a b : Q) : bool := Qle_bool b a.

(** [a > b] on floats, as a boolean. *)
Definition Qgtb (a b : Q) : bool := Qltb b a.

(** [int] is 32 bits wide; [value--] at [INT_MIN] overflows. *)
Definition INT_MIN : Z := (- 2 ^ 31)%Z.

(** [size_t] is 64 bits wide and wraps. *)
Definition SIZE_MODULUS : N := (2 ^ 64)%N.

(** ** Outcomes of a computation that may invoke undefined behaviour or abort *)

Inductive outcome (A : Type) : Type :=
| Done (a : A)
| Undef
| Abort.
Arguments Done {A} a.
Arguments Undef {A}.
Arguments Abort {A}.

#[global] Instance outcome_ret : MRet outcome := fun A a => Done a.
#[global] Instance outcome_bind : MBind outcome := fun A B f m =>
  match m with
  | Done a => f a
  | Undef => Undef
  | Abort => Abort
  end.

#[global] Instance outcome_fmap : FMap outcome := fun A B f m =>
  match m with
  | Done a => Done (f a)
  | Undef => Undef
  | Abort => Abort
  end.

(** [*opt] on a [std::optional]: undefined when empty. *)
Definition deref {A} (o : option A) : outcome A :=
  match o with Some a => Done a | None => Undef end.

(** [ASSERT_GET(expr)]: aborts when the optional is empty. *)
Definition ASSERT_GET {A} (o : option A) : outcome A :=
  match o with Some a => Done a | None => Abort end.


(** ** glm: vectors and 4x4 matrices *)

Module glm.

Record vec2 := mk_vec2 { x : Q; y : Q }.

Record vec4 := mk_vec4 { x4 : Q; y4 : Q; z4 : Q; w4 : Q }.

(** Column-major, as glm stores it: [c0 .. c3] are the columns. *)
Record mat4 := mk_mat4 { c0 : vec4; c1 : vec4; c2 : vec4; c3 : vec4 }.

(** [glm::vec2(s)] *)
Definition splat (s : Q) : vec2 := mk_vec2 s s.

Definition add (a b : vec2) : vec2 := mk_vec2 (x a + x b) (y a + y b).

(** [v * s] *)
Definition scale_by (v : vec2) (s : Q) : vec2 := mk_vec2 (x v * s) (y v * s).

Definition min (a b : vec2) : vec2 :=
  mk_vec2 (if Qltb (x b) (x a) then x b else x a)
          (if Qltb (y b) (y a) then y b else y a).

Definition max (a b : vec2) : vec2 :=
  mk_vec2 (if Qltb (x a) (x b) then x b else x a)
          (if Qltb (y a) (y b) then y b else y a).

(** [glm::lerp(a, b, t)], which is [glm::mix]: [a * (1 - t) + b * t]. *)
Definition lerp1 (a b t : Q) : Q := a * (1 - t) + b * t.
Definition lerp (a b : vec2) (t : Q) : vec2 :=
  mk_vec2 (lerp1 (x a) (x b) t) (lerp1 (y a) (y b) t).

Definition vadd4 (a b : vec4) : vec4 :=
  mk_vec4 (x4 a + x4 b) (y4 a + y4 b) (z4 a + z4 b) (w4 a + w4 b).
Definition smul4 (v : vec4) (s : Q) : vec4 :=
  mk_vec4 (x4 v * s) (y4 v * s) (z4 v * s) (w4 v * s).

(** [m * v] *)
Definition mul_vec (m : mat4) (v : vec4) : vec4 :=
  vadd4 (vadd4 (smul4 (c0 m) (x4 v)) (smul4 (c1 m) (y4 v)))
        (vadd4 (smul4 (c2 m) (z4 v)) (smul4 (c3 m) (w4 v))).

(** [a * b] *)
Definition mul (a b : mat4) : mat4 :=
  mk_mat4 (mul_vec a (c0 b)) (mul_vec a (c1 b)) (mul_vec a (c2 b)) (mul_vec a (c3 b)).

(** [glm::mat4(1.0f)] *)
Definition identity : mat4 :=
  mk_mat4 (mk_vec4 1 0 0 0) (mk_vec4 0 1 0 0) (mk_vec4 0 0 1 0) (mk_vec4 0 0 0 1).

(** [glm::translate(glm::mat4(1.0f), glm::vec3(p, 0.0f))] *)
Definition translate (p : vec2) : mat4 :=
  mk_mat4 (mk_vec4 1 0 0 0) (mk_vec4 0 1 0 0) (mk_vec4 0 0 1 0) (mk_vec4 (x p) (y p) 0 1).

(** [glm::scale(glm::mat4(1.0f), glm::vec3(s, 1.0f))] *)
Definition scale (s : vec2) : mat4 :=
  mk_mat4 (mk_vec4 (x s) 0 0 0) (mk_vec4 0 (y s) 0 0) (mk_vec4 0 0 1 0) (mk_vec4 0 0 0 1).

(** [glm::rotate(glm::mat4(1.0f), a, glm::vec3(0, 0, 1))], given the
    cosine [c] and the sine [s] of the angle. *)
Definition rotate_z (c s : Q) : mat4 :=
  mk_mat4 (mk_vec4 c s 0 0) (mk_vec4 (- s) c 0 0) (mk_vec4 0 0 1 0) (mk_vec4 0 0 0 1).

(** [glm::vec2 a = matrix * glm::vec4(p, 0.0f, 1.0f)] *)
Definition transform_point (m : mat4) (p : vec2) : vec2 :=
  let r := mul_vec m (mk_vec4 (x p) (y p) 0 1) in mk_vec2 (x4 r) (y4 r).

End glm.

(** The libm functions the sources call; the embedding is parametric in them. *)
Record Libm := {
  radians : Q -> Q;   (* glm::radians *)
  cosf : Q -> Q;
  sinf : Q -> Q;
}.

(** ** Components (components.hpp) *)

Record Tag := { label : string }.

Record Transform := {
  position : glm.vec2;
  scale : glm.vec2;
  rotation : Q;
}.

(** [Transform{}]: the member initialisers. *)
Definition Transform_default : Transform :=
  {| position := glm.splat 0; scale := glm.splat 0.5; rotation := 0 |}.

(** [Transform::matrix]: translate * rotate * scale. *)
Definition Transform_matrix (lm : Libm) (t : Transform) : glm.mat4 :=
  let translation_mat := glm.translate (position t) in
  let rotation_mat :=
    glm.rotate_z (cosf lm (radians lm (rotation t))) (sinf lm (radians lm (rotation t))) in
  let scale_mat := glm.scale (scale t) in
  glm.mul (glm.mul translation_mat rotation_mat) scale_mat.

Record Motion := {
  velocity : glm.vec2;
  acceleration : glm.vec2;
}.

Record OffScreenDestroy := { }.
Record ScreenBound := { }.

Record DelayErasing := { de_sound : bool }.

(** [DelayErasing{}]: [sound] defaults to [true]. *)
Definition DelayErasing_default : DelayErasing := {| de_sound := true |}.

Record Health := { value : Z }.

(** ** Axis-aligned bounding boxes (aabb.hpp, aabb.cpp) *)

Record Aabb := { min : glm.vec2; max : glm.vec2 }.

(** [Aabb::transform] *)
Definition Aabb_transform (b : Aabb) (matrix : glm.mat4) : Aabb :=
  let a := glm.transform_point matrix (min b) in
  let b' := glm.transform_point matrix (max b) in
  {| min := glm.min a b'; max := glm.max a b' |}.

(** [collision]: four strict comparisons. *)
Definition collision (a b : Aabb) : bool :=
  Qltb (glm.x (min a)) (glm.x (max b)) &&
  Qgtb (glm.x (max a)) (glm.x (min b)) &&
  Qltb (glm.y (min a)) (glm.y (max b)) &&
  Qgtb (glm.y (max a)) (glm.y (min b)).

(** ** Sprite animation (sprite.hpp, sprite.cpp) *)

Record SpriteFrame := {
  sf_duration : Q;      (* duration in seconds *)
  ebo_offset : N;
  ebo_count : N;
}.

Record SpriteAnimation := {
  last_transit_dt : Q;          (* deltatime between last transition and now *)
  curr_frame_idx : nat;         (* current frame index *)
  frames : list SpriteFrame;
  curr_cycle_count : N;         (* number of cycles executed *)
  max_cycles : N;               (* zero for endless *)
}.

(** [SpriteAnimation::update_frame].  [frames[curr_frame_idx]] is an
    unchecked vector access: undefined when the index is out of range. *)
Definition update_frame (sa : SpriteAnimation) (dt : Q) : outcome SpriteAnimation :=
  let last := last_transit_dt sa + dt in
  curr_frame ← deref (frames sa !! curr_frame_idx sa);
  if Qgeb last (sf_duration curr_frame) then
    let last' := last - sf_duration curr_frame in
    if (S (curr_frame_idx sa) =? length (frames sa))%nat then
      mret {| last_transit_dt := last';
              curr_frame_idx := 0;
              frames := frames sa;
              curr_cycle_count := (curr_cycle_count sa + 1) mod SIZE_MODULUS;
              max_cycles := max_cycles sa |}
    else
      mret {| last_transit_dt := last';
              curr_frame_idx := S (curr_frame_idx sa);
              frames := frames sa;
              curr_cycle_count := curr_cycle_count sa;
              max_cycles := max_cycles sa |}
  else
    mret {| last_transit_dt := last;
            curr_frame_idx := curr_frame_idx sa;
            frames := frames sa;
            curr_cycle_count := curr_cycle_count sa;
            max_cycles := max_cycles sa |}.

(** [SpriteAnimation::curr_frame] *)
Definition curr_frame (sa : SpriteAnimation) : outcome SpriteFrame :=
  deref (frames sa !! curr_frame_idx sa).

(** [SpriteAnimation::expired] *)
Definition expired (sa : SpriteAnimation) : bool :=
  (0 <? max_cycles sa)%N && (max_cycles sa <=? curr_cycle_count sa)%N.

(** A sequence of [update_frame] calls, one per element of [dts]. *)
Fixpoint update_frames (sa : SpriteAnimation) (dts : list Q) : outcome SpriteAnimation :=
  match dts with
  | [] => mret sa
  | dt :: rest => sa' ← update_frame sa dt; update_frames sa' rest
  end.

(** The total elapsed time of a sequence of steps. *)
Definition total_time (dts : list Q) : Q := foldr Qplus 0 dts.

(** ** Timed actions (components.hpp) *)

(** [TimedAction], over the representation [A] of its [action] closure. *)
Record TimedAction (A : Type) := {
  tick_dt : Q;       (* deltatime between last round and now *)
  ta_duration : Q;   (* time to go off, in seconds *)
  action : A;
}.
Arguments tick_dt {A} _.
Arguments ta_duration {A} _.
Arguments action {A} _.

(** [TimedAction::update], over the game state [G] the action mutates;
    [invoke a game dt time] is the call [action(game, dt, time)]. *)
Definition TimedAction_update {G A} (invoke : A -> G -> Q -> Q -> G)
    (ta : TimedAction A) (game : G) (dt time : Q) : TimedAction A * G :=
  let t := tick_dt ta + dt in
  if Qgeb t (ta_duration ta) then
    ({| tick_dt := t - ta_duration ta; ta_duration := ta_duration ta; action := action ta |},
     invoke (action ta) game dt time)
  else
    ({| tick_dt := t; ta_duration := ta_duration ta; action := action ta |}, game).

(** The number of times one [update] call invokes the action: the action
    is instantiated by a counter increment. *)
Definition fire_count {A} (ta : TimedAction A) (dt : Q) : nat :=
  snd (TimedAction_update (fun _ (n : nat) _ _ => S n) ta 0%nat dt 0).

(** ** Resource caches *)

(** *** First generation (inmath: textures.hpp, audios.hpp) *)

Module Cache.
Section Cache.
(** [R]: the loaded resource ([GLTexture], [ALBuffer]); [Args]: the extra
    loader arguments; [Ext]: the state the loader reads (file system,
    driver).  [loader] is [load_rgba_texture] / [load_wav_audio]. *)
Context {R Args Ext : Type}.
Variable loader : string -> Args -> Ext -> option R * Ext.

(** A shared handle is the address of its control block. *)
Definition handle := nat.

Record state := {
  map : gmap string handle;      (* the cache itself *)
  heap : list R;                 (* objects made by [std::make_shared] *)
  ext : Ext;                     (* what the loader sees *)
  loads : list string;           (* log of the loader's invocations *)
}.

(** [std::make_shared<R>(r)]: a fresh address. *)
Definition make_shared (r : R) (s : state) : handle * state :=
  (length (heap s),
   {| map := map s; heap := heap s ++ [r]; ext := ext s; loads := loads s |}).

Definition call_loader (key : string) (args : Args) (s : state) : option R * state :=
  let '(r, e) := loader key args (ext s) in
  (r, {| map := map s; heap := heap s; ext := e; loads := loads s ++ [key] |}).

(** [Textures::get_or_load], [Audios::get_or_load] *)
Definition get_or_load (texpath : string) (args : Args) (s : state)
  : option handle * state :=
  match map s !! texpath with
  | Some h => (Some h, s)
  | None =>
      let '(tex, s1) := call_loader texpath args s in
      match tex with
      | None => (None, s1)
      | Some t =>
          let '(texptr, s2) := make_shared t s1 in
          (* [map.emplace]: inserts, the key being absent *)
          (Some texptr,
           {| map := <[texpath := texptr]> (map s2); heap := heap s2;
              ext := ext s2; loads := loads s2 |})
      end
  end.

(** *** Second generation (dear-engine: res_manager.hpp, textures.hpp) *)

(** [ResManager::get] *)
Definition get (key : string) (s : state) : option handle := map s !! key.

(** [ResManager::load]: [insert_or_assign]. *)
Definition Base_load (key : string) (element : handle) (s : state)
  : option handle * state :=
  (Some element,
   {| map := <[key := element]> (map s); heap := heap s;
      ext := ext s; loads := loads s |}).

(** [Textures::load], [Audios::load] *)
Definition load (texpath : string) (args : Args) (s : state)
  : option handle * state :=
  let '(tex, s1) := call_loader texpath args s in
  match tex with
  | None => (None, s1)
  | Some t =>
      let '(p, s2) := make_shared t s1 in
      Base_load texpath p s2
  end.

(** The resource a handle refers to. *)
Definition resource (s : state) (h : handle) : option R := heap s !! h.

(** The number of loader invocations between two states. *)
Definition loader_calls (before after : state) : nat :=
  (length (loads after) - length (loads before))%nat.

End Cache.
Arguments state : clear implicits.
End Cache.

(** ** Driver objects (gl_object.hpp, al_source.hpp, text.hpp) *)

(** [GLObject]: names of the buffers in GPU memory, and their sizes. *)
Record GLObject := {
  vbo : nat;
  ebo : nat;
  vao : nat;
  num_indices : nat;
  num_vertices : nat;
}.

(** [ALSource]: an OpenAL source name, its gain and its bound buffer. *)
Record ALSource := {
  src_id : nat;
  gain : Q;
  buf : option nat;
}.

Record TextFormat := {
  font : nat;
  color : glm.vec4;
  outline_color : glm.vec4;
  outline_thickness : Q;
}.

Record TextureVertex := { tv_pos : glm.vec2; texcoord : glm.vec2 }.

Definition kQuadIndices : list nat := [0; 1; 3; 1; 2; 3]%nat.

Definition kTextureQuadVertices : list TextureVertex :=
  [ {| tv_pos := glm.mk_vec2 1 1;         texcoord := glm.mk_vec2 1 1 |};
    {| tv_pos := glm.mk_vec2 1 (-1);      texcoord := glm.mk_vec2 1 0 |};
    {| tv_pos := glm.mk_vec2 (-1) (-1);   texcoord := glm.mk_vec2 0 0 |};
    {| tv_pos := glm.mk_vec2 (-1) 1;      texcoord := glm.mk_vec2 0 1 |} ].

(** [gen_sprite_quads]: one quad per frame of a linear sprite sheet. *)
Definition gen_sprite_quads (count : nat) : list TextureVertex * list nat :=
  let width := 1 / inject_Z (Z.of_nat count) in
  foldl (fun '(vertices, indices) i =>
           let lo := inject_Z (Z.of_nat i) * width in
           let hi := inject_Z (Z.of_nat (i + 1)) * width in
           (vertices ++
              [ {| tv_pos := glm.mk_vec2 1 1;       texcoord := glm.mk_vec2 hi 1 |};
                {| tv_pos := glm.mk_vec2 1 (-1);    texcoord := glm.mk_vec2 hi 0 |};
                {| tv_pos := glm.mk_vec2 (-1) (-1); texcoord := glm.mk_vec2 lo 0 |};
                {| tv_pos := glm.mk_vec2 (-1) 1;    texcoord := glm.mk_vec2 lo 1 |} ],
            indices ++ List.map (fun v => (4 * i + v)%nat) kQuadIndices))
        ([], []) (seq 0 count).

(** ** Closures stored in components, defunctionalised *)

(** The [UpdateFn::fn] closures: the default [[](auto&&...){}] and the two
    lambdas installed by [game_init]. *)
Inductive UpdateFn :=
| UpdateNoop
| BackgroundDrift
| EnemySweep.

(** The [TimedAction::action] closures: the default and the lambda
    installed by [key_space_handler]. *)
Inductive ActionFn :=
| ActionNoop
| ActionSpawnProjectile.

(** The functions registered by [init_key_handlers]. *)
Inductive KeyHandler :=
| key_left_right_handler
| key_up_down_handler
| key_space_handler
| key_f3_handler
| key_f6_handler
| key_f7_handler.

(** ** Game objects and the scene (main.cpp) *)

(** Game Object represents a single Entity with Components.  [glo] is a
    [GLObjectRef], a nullable shared pointer: [None] is [nullptr]. *)
Record GameObject := {
  tag : Tag;
  transform : Transform;
  prev_transform : Transform;
  motion : Motion;
  glo : option GLObject;
  texture : option nat;
  sprite_animation : option SpriteAnimation;
  text_fmt : option TextFormat;
  update : option UpdateFn;
  aabb : option Aabb;
  offscreen_destroy : option OffScreenDestroy;
  screen_bound : option ScreenBound;
  sound : option ALSource;
  delay_erasing : option DelayErasing;
  health : option Health;
}.

(** [GameObject obj;]: every member default-initialised. *)
Definition GameObject_default : GameObject := {|
  tag := {| label := "?" |};
  transform := Transform_default;
  prev_transform := Transform_default;
  motion := {| velocity := glm.splat 0; acceleration := glm.splat 0 |};
  glo := None;
  texture := None;
  sprite_animation := None;
  text_fmt := None;
  update := None;
  aabb := None;
  offscreen_destroy := None;
  screen_bound := None;
  sound := None;
  delay_erasing := None;
  health := None;
|}.

(** Field updates, [obj.f = v]. *)
Definition set_transform (t : Transform) (o : GameObject) : GameObject :=
  {| tag := tag o; transform := t; prev_transform := prev_transform o; motion := motion o;
     glo := glo o; texture := texture o; sprite_animation := sprite_animation o;
     text_fmt := text_fmt o; update := update o; aabb := aabb o;
     offscreen_destroy := offscreen_destroy o; screen_bound := screen_bound o;
     sound := sound o; delay_erasing := delay_erasing o; health := health o |}.

Definition set_prev_transform (t : Transform) (o : GameObject) : GameObject :=
  {| tag := tag o; transform := transform o; prev_transform := t; motion := motion o;
     glo := glo o; texture := texture o; sprite_animation := sprite_animation o;
     text_fmt := text_fmt o; update := update o; aabb := aabb o;
     offscreen_destroy := offscreen_destroy o; screen_bound := screen_bound o;
     sound := sound o; delay_erasing := delay_erasing o; health := health o |}.

Definition set_motion (m : Motion) (o : GameObject) : GameObject :=
  {| tag := tag o; transform := transform o; prev_transform := prev_transform o; motion := m;
     glo := glo o; texture := texture o; sprite_animation := sprite_animation o;
     text_fmt := text_fmt o; update := update o; aabb := aabb o;
     offscreen_destroy := offscreen_destroy o; screen_bound := screen_bound o;
     sound := sound o; delay_erasing := delay_erasing o; health := health o |}.

Definition set_glo (p : option GLObject) (o : GameObject) : GameObject :=
  {| tag := tag o; transform := transform o; prev_transform := prev_transform o;
     motion := motion o;
     glo := p; texture := texture o; sprite_animation := sprite_animation o;
     text_fmt := text_fmt o; update := update o; aabb := aabb o;
     offscreen_destroy := offscreen_destroy o; screen_bound := screen_bound o;
     sound := sound o; delay_erasing := delay_erasing o; health := health o |}.

Definition set_sprite_animation (sa : option SpriteAnimation) (o : GameObject) : GameObject :=
  {| tag := tag o; transform := transform o; prev_transform := prev_transform o;
     motion := motion o;
     glo := glo o; texture := texture o; sprite_animation := sa;
     text_fmt := text_fmt o; update := update o; aabb := aabb o;
     offscreen_destroy := offscreen_destroy o; screen_bound := screen_bound o;
     sound := sound o; delay_erasing := delay_erasing o; health := health o |}.

Definition set_delay_erasing (d : option DelayErasing) (o : GameObject) : GameObject :=
  {| tag := tag o; transform := transform o; prev_transform := prev_transform o;
     motion := motion o;
     glo := glo o; texture := texture o; sprite_animation := sprite_animation o;
     text_fmt := text_fmt o; update := update o; aabb := aabb o;
     offscreen_destroy := offscreen_destroy o; screen_bound := screen_bound o;
     sound := sound o; delay_erasing := d; health := health o |}.

Definition set_health (h : option Health) (o : GameObject) : GameObject :=
  {| tag := tag o; transform := transform o; prev_transform := prev_transform o;
     motion := motion o;
     glo := glo o; texture := texture o; sprite_animation := sprite_animation o;
     text_fmt := text_fmt o; update := update o; aabb := aabb o;
     offscreen_destroy := offscreen_destroy o; screen_bound := screen_bound o;
     sound := sound o; delay_erasing := delay_erasing o; health := h |}.

(** [obj.transform.position = p] *)
Definition set_position (p : glm.vec2) (o : GameObject) : GameObject :=
  set_transform {| position := p; scale := scale (transform o);
                   rotation := rotation (transform o) |} o.

(** [Transform{ .position = glm::vec2(1000.0f) }]: the sentinel transform
    of a retired entity; scale and rotation take their defaults. *)
Definition sentinel : Transform :=
  {| position := glm.splat 1000; scale := glm.splat 0.5; rotation := 0 |}.

(** The layers of [ObjectLists], in declaration order. *)
Inductive Layer := background | spaceship | projectile | explosion | gui | text.

#[global] Instance Layer_eq_dec : EqDecision Layer.
Proof. solve_decision. Defined.

(** Lists of all Game Objects in a Scene, divised in layers, in order of render. *)
Record ObjectLists := {
  l_background : list GameObject;
  l_spaceship : list GameObject;
  l_projectile : list GameObject;
  l_explosion : list GameObject;
  l_gui : list GameObject;
  l_text : list GameObject;
}.

(** [ObjectLists::all_lists]: the array of pointers to the layers. *)
Definition all_lists : list Layer :=
  [background; spaceship; projectile; explosion; gui; text].

(** [*object_list], reading. *)
Definition layer (l : Layer) (o : ObjectLists) : list GameObject :=
  match l with
  | background => l_background o
  | spaceship => l_spaceship o
  | projectile => l_projectile o
  | explosion => l_explosion o
  | gui => l_gui o
  | text => l_text o
  end.

(** [*object_list], writing. *)
Definition set_layer (l : Layer) (v : list GameObject) (o : ObjectLists) : ObjectLists :=
  {| l_background := if decide (l = background) then v else l_background o;
     l_spaceship := if decide (l = spaceship) then v else l_spaceship o;
     l_projectile := if decide (l = projectile) then v else l_projectile o;
     l_explosion := if decide (l = explosion) then v else l_explosion o;
     l_gui := if decide (l = gui) then v else l_gui o;
     l_text := if decide (l = text) then v else l_text o |}.

Record Scene := { objects : ObjectLists }.

Record uvec2 := { ux : Z; uy : Z }.
Record Cursor := { pos : glm.vec2 }.
Record Window := { w_size : uvec2 }.
Record Viewport := { offset : uvec2; v_size : uvec2 }.
Record RenderOpts := { debug_info : bool; aabbs : bool }.

(** Game State/Engine.  The optionals of the C++ struct ([scene],
    [audios], [textures], [key_handlers], [key_states]) are engaged by
    [game_init] before the first tick and are plain fields here; the camera,
    shaders, fonts and the two debug texts take no part in a tick and are left
    out.  The last three fields are the state of the OpenGL and OpenAL
    contexts, which in C++ lives in the drivers: the next unused object
    names and the set of sources that are playing. *)
Record Game := {
  paused : bool;
  vsync : bool;
  hover : bool;
  cursor : Cursor;
  window : Window;
  viewport : Viewport;
  scene : Scene;
  audios : gmap string nat;
  textures : gmap string nat;
  key_handlers : gmap Z KeyHandler;
  key_states : gmap Z bool;
  timed_actions : gmap Z (TimedAction ActionFn);
  screen_aabb : Aabb;
  render_opts : RenderOpts;
  gl_names : nat;
  al_names : nat;
  al_playing : gset nat;
}.

(** Field updates, [game.f = v]. *)
Definition set_paused (b : bool) (g : Game) : Game :=
  {| paused := b; vsync := vsync g; hover := hover g; cursor := cursor g; window := window g;
     viewport := viewport g; scene := scene g; audios := audios g; textures := textures g;
     key_handlers := key_handlers g; key_states := key_states g;
     timed_actions := timed_actions g; screen_aabb := screen_aabb g;
     render_opts := render_opts g; gl_names := gl_names g; al_names := al_names g;
     al_playing := al_playing g |}.

Definition set_vsync (b : bool) (g : Game) : Game :=
  {| paused := paused g; vsync := b; hover := hover g; cursor := cursor g; window := window g;
     viewport := viewport g; scene := scene g; audios := audios g; textures := textures g;
     key_handlers := key_handlers g; key_states := key_states g;
     timed_actions := timed_actions g; screen_aabb := screen_aabb g;
     render_opts := render_opts g; gl_names := gl_names g; al_names := al_names g;
     al_playing := al_playing g |}.

Definition set_hover (b : bool) (g : Game) : Game :=
  {| paused := paused g; vsync := vsync g; hover := b; cursor := cursor g; window := window g;
     viewport := viewport g; scene := scene g; audios := audios g; textures := textures g;
     key_handlers := key_handlers g; key_states := key_states g;
     timed_actions := timed_actions g; screen_aabb := screen_aabb g;
     render_opts := render_opts g; gl_names := gl_names g; al_names := al_names g;
     al_playing := al_playing g |}.

Definition set_objects (o : ObjectLists) (g : Game) : Game :=
  {| paused := paused g; vsync := vsync g; hover := hover g; cursor := cursor g;
     window := window g;
     viewport := viewport g; scene := {| objects := o |}; audios := audios g;
     textures := textures g;
     key_handlers := key_handlers g; key_states := key_states g;
     timed_actions := timed_actions g; screen_aabb := screen_aabb g;
     render_opts := render_opts g; gl_names := gl_names g; al_names := al_names g;
     al_playing := al_playing g |}.

Definition set_key_states (k : gmap Z bool) (g : Game) : Game :=
  {| paused := paused g; vsync := vsync g; hover := hover g; cursor := cursor g;
     window := window g;
     viewport := viewport g; scene := scene g; audios := audios g; textures := textures g;
     key_handlers := key_handlers g; key_states := k;
     timed_actions := timed_actions g; screen_aabb := screen_aabb g;
     render_opts := render_opts g; gl_names := gl_names g; al_names := al_names g;
     al_playing := al_playing g |}.

Definition set_timed_actions (t : gmap Z (TimedAction ActionFn)) (g : Game) : Game :=
  {| paused := paused g; vsync := vsync g; hover := hover g; cursor := cursor g;
     window := window g;
     viewport := viewport g; scene := scene g; audios := audios g; textures := textures g;
     key_handlers := key_handlers g; key_states := key_states g;
     timed_actions := t; screen_aabb := screen_aabb g;
     render_opts := render_opts g; gl_names := gl_names g; al_names := al_names g;
     al_playing := al_playing g |}.

Definition set_render_opts (r : RenderOpts) (g : Game) : Game :=
  {| paused := paused g; vsync := vsync g; hover := hover g; cursor := cursor g;
     window := window g;
     viewport := viewport g; scene := scene g; audios := audios g; textures := textures g;
     key_handlers := key_handlers g; key_states := key_states g;
     timed_actions := timed_actions g; screen_aabb := screen_aabb g;
     render_opts := r; gl_names := gl_names g; al_names := al_names g;
     al_playing := al_playing g |}.

Definition set_gl_names (n : nat) (g : Game) : Game :=
  {| paused := paused g; vsync := vsync g; hover := hover g; cursor := cursor g;
     window := window g;
     viewport := viewport g; scene := scene g; audios := audios g; textures := textures g;
     key_handlers := key_handlers g; key_states := key_states g;
     timed_actions := timed_actions g; screen_aabb := screen_aabb g;
     render_opts := render_opts g; gl_names := n; al_names := al_names g;
     al_playing := al_playing g |}.

Definition set_al_names (n : nat) (g : Game) : Game :=
  {| paused := paused g; vsync := vsync g; hover := hover g; cursor := cursor g;
     window := window g;
     viewport := viewport g; scene := scene g; audios := audios g; textures := textures g;
     key_handlers := key_handlers g; key_states := key_states g;
     timed_actions := timed_actions g; screen_aabb := screen_aabb g;
     render_opts := render_opts g; gl_names := gl_names g; al_names := n;
     al_playing := al_playing g |}.

Definition set_al_playing (s : gset nat) (g : Game) : Game :=
  {| paused := paused g; vsync := vsync g; hover := hover g; cursor := cursor g;
     window := window g;
     viewport := viewport g; scene := scene g; audios := audios g; textures := textures g;
     key_handlers := key_handlers g; key_states := key_states g;
     timed_actions := timed_actions g; screen_aabb := screen_aabb g;
     render_opts := render_opts g; gl_names := gl_names g; al_names := al_names g;
     al_playing := s |}.

(** [game.scene->objects.<layer>]: read and write one layer. *)
Definition objs (l : Layer) (g : Game) : list GameObject := layer l (objects (scene g)).
Definition set_objs (l : Layer) (v : list GameObject) (g : Game) : Game :=
  set_objects (set_layer l v (objects (scene g))) g.

(** [Scene::player]: [objects.spaceship.front()], undefined on an empty layer. *)
Definition player (g : Game) : outcome GameObject := deref (objs spaceship g !! 0%nat).

(** ** Driver calls *)

(** [create_textured_globject]: three fresh buffer names. *)
Definition create_textured_globject (vertices : list TextureVertex) (indices : list nat)
    (g : Game) : GLObject * Game :=
  let n := gl_names g in
  ({| vbo := n; ebo := S n; vao := S (S n);
      num_indices := length indices; num_vertices := length vertices |},
   set_gl_names (S (S (S n))) g).

(** [create_textured_quad_globject] *)
Definition create_textured_quad_globject (g : Game) : GLObject * Game :=
  create_textured_globject kTextureQuadVertices kQuadIndices g.

(** [create_audio_source]: a fresh source name. *)
Definition create_audio_source (gn : Q) (g : Game) : ALSource * Game :=
  ({| src_id := al_names g; gain := gn; buf := None |}, set_al_names (S (al_names g)) g).

(** [ALSource::bind_buffer] *)
Definition bind_buffer (b : nat) (s : ALSource) : ALSource :=
  {| src_id := src_id s; gain := gain s; buf := Some b |}.

(** [ALSource::play] *)
Definition play (s : ALSource) (g : Game) : Game :=
  set_al_playing ({[ src_id s ]} ∪ al_playing g) g.

(** [alGetSourcei(id, AL_SOURCE_STATE, &state); state == AL_PLAYING] *)
Definition is_playing (s : ALSource) (g : Game) : bool :=
  bool_decide (src_id s ∈ al_playing g).

(** ** Object factories (main.cpp) *)

Definition explosion_frames : list SpriteFrame :=
  [ {| sf_duration := 0.04; ebo_offset := 0;  ebo_count := 6 |};
    {| sf_duration := 0.04; ebo_offset := 12; ebo_count := 6 |};
    {| sf_duration := 0.04; ebo_offset := 24; ebo_count := 6 |};
    {| sf_duration := 0.04; ebo_offset := 36; ebo_count := 6 |};
    {| sf_duration := 0.04; ebo_offset := 48; ebo_count := 6 |};
    {| sf_duration := 0.06; ebo_offset := 60; ebo_count := 6 |} ].

(** [create_explosion]: a projectile hit explosion object. *)
Definition create_explosion (g : Game) : outcome (GameObject * Game) :=
  tex ← ASSERT_GET (textures g !! "Explosion.png");
  let '(vertices, indices) := gen_sprite_quads 6 in
  let '(o, g1) := create_textured_globject vertices indices g in
  let '(src, g2) := create_audio_source 1 g1 in
  wav ← ASSERT_GET (audios g2 !! "explosionCrunch_000.wav");
  mret ({| tag := {| label := "explosion" |};
           transform := {| position := glm.splat 0; scale := glm.splat 0.1; rotation := 0 |};
           prev_transform :=
             {| position := glm.splat 0; scale := glm.splat 0.1; rotation := 0 |};
           motion := {| velocity := glm.splat 0; acceleration := glm.splat 0 |};
           glo := Some o;
           texture := Some tex;
           sprite_animation :=
             Some {| last_transit_dt := 0; curr_frame_idx := 0; frames := explosion_frames;
                     curr_cycle_count := 0; max_cycles := 1 |};
           text_fmt := None;
           update := None;
           aabb := None;
           offscreen_destroy := None;
           screen_bound := None;
           sound := Some (bind_buffer wav src);
           delay_erasing := None;
           health := None |}, g2).

(** [create_player_projectile]: a player spaceship fired projectile object. *)
Definition create_player_projectile (g : Game) : outcome (GameObject * Game) :=
  tex ← ASSERT_GET (textures g !! "Projectile01.png");
  let '(o, g1) := create_textured_quad_globject g in
  let '(src, g2) := create_audio_source 0.8 g1 in
  wav ← ASSERT_GET (audios g2 !! "laser-14729.wav");
  mret ({| tag := {| label := "projectile" |};
           transform := {| position := glm.mk_vec2 0 0; scale := glm.splat 0.15;
                           rotation := 0 |};
           prev_transform := {| position := glm.mk_vec2 0 0; scale := glm.splat 0.15;
                                rotation := 0 |};
           motion := {| velocity := glm.mk_vec2 0 2.6; acceleration := glm.splat 0 |};
           glo := Some o;
           texture := Some tex;
           sprite_animation := None;
           text_fmt := None;
           update := None;
           aabb := Some {| min := glm.mk_vec2 (-0.11) (-0.38); max := glm.mk_vec2 0.07 0.30 |};
           offscreen_destroy := Some Build_OffScreenDestroy;
           screen_bound := None;
           sound := Some (bind_buffer wav src);
           delay_erasing := None;
           health := None |}, g2).

(** ** Input handlers (main.cpp) *)

Definition GLFW_RELEASE : Z := 0.
Definition GLFW_PRESS : Z := 1.
Definition GLFW_REPEAT : Z := 2.
Definition GLFW_KEY_SPACE : Z := 32.
Definition GLFW_KEY_RIGHT : Z := 262.
Definition GLFW_KEY_LEFT : Z := 263.
Definition GLFW_KEY_DOWN : Z := 264.
Definition GLFW_KEY_UP : Z := 265.
Definition GLFW_KEY_F3 : Z := 292.
Definition GLFW_KEY_F6 : Z := 295.
Definition GLFW_KEY_F7 : Z := 296.

(** [ASSERT(expr)] *)
Definition ASSERT (b : bool) : outcome unit := if b then Done () else Abort.

(** Apply [f] to [game.scene->player()]. *)
Definition with_player (f : GameObject -> GameObject) (g : Game) : outcome Game :=
  p ← player g;
  mret (set_objs spaceship (<[0%nat := f p]> (objs spaceship g)) g).

Definition set_motion_x (v a : Q) (o : GameObject) : GameObject :=
  set_motion {| velocity := glm.mk_vec2 v (glm.y (velocity (motion o)));
                acceleration := glm.mk_vec2 a (glm.y (acceleration (motion o))) |} o.

Definition set_motion_y (v a : Q) (o : GameObject) : GameObject :=
  set_motion {| velocity := glm.mk_vec2 (glm.x (velocity (motion o))) v;
                acceleration := glm.mk_vec2 (glm.x (acceleration (motion o))) a |} o.

(** [game.key_states.value()[key]]: [operator[]] inserts [false] for a
    key that is not in the map yet. *)
Definition key_state (key : Z) (g : Game) : bool * Game :=
  match key_states g !! key with
  | Some b => (b, g)
  | None => (false, set_key_states (<[key := false]> (key_states g)) g)
  end.

(** The body of [spawn_projectile], the lambda of [key_space_handler]:
    two projectiles, left and right of the player, sharing one sound. *)
Definition spawn_projectile (g : Game) : outcome Game :=
  p ← player g;
  '(proj, g1) ← create_player_projectile g;
  let ox := 0.062 in
  let oy := 0.125 in
  let pp := position (transform p) in
  let t1 := {| position := glm.mk_vec2 (glm.x pp - ox + 0.005) (glm.y pp + oy);
               scale := scale (transform proj); rotation := rotation (transform proj) |} in
  let proj1 := set_prev_transform t1 (set_transform t1 proj) in
  let g2 := set_objs projectile (objs projectile g1 ++ [proj1]) g1 in
  let t2 := {| position := glm.mk_vec2 (glm.x pp + ox) (glm.y pp + oy);
               scale := scale (transform proj1); rotation := rotation (transform proj1) |} in
  let proj2 := set_prev_transform t2 (set_transform t2 proj1) in
  let g3 := set_objs projectile (objs projectile g2 ++ [proj2]) g2 in
  s ← deref (sound proj2);
  mret (play s g3).

(** The body of a key handler; [dispatch] is the call through
    [game.key_handlers.value()[other_key]]. *)
Definition handler_body (dispatch : KeyHandler -> Game -> Z -> Z -> Z -> outcome Game)
    (h : KeyHandler) (g : Game) (key action mods : Z) : outcome Game :=
  match h with
  | key_left_right_handler =>
      _ ← ASSERT ((key =? GLFW_KEY_LEFT)%Z || (key =? GLFW_KEY_RIGHT)%Z);
      let direction := if (key =? GLFW_KEY_LEFT)%Z then -1 else 1 in
      if (action =? GLFW_PRESS)%Z || (action =? GLFW_REPEAT)%Z then
        with_player (set_motion_x (0.5 * direction) (1.8 * direction)) g
      else if (action =? GLFW_RELEASE)%Z then
        let other_key := if (key =? GLFW_KEY_LEFT)%Z then GLFW_KEY_RIGHT else GLFW_KEY_LEFT in
        let '(other, g1) := key_state other_key g in
        if other then
          (* an empty [std::function] throws when called *)
          match key_handlers g1 !! other_key with
          | Some h' => dispatch h' g1 other_key GLFW_REPEAT mods
          | None => Abort
          end
        else with_player (set_motion_x 0 0) g1
      else mret g
  | key_up_down_handler =>
      _ ← ASSERT ((key =? GLFW_KEY_UP)%Z || (key =? GLFW_KEY_DOWN)%Z);
      let direction := if (key =? GLFW_KEY_UP)%Z then 1 else -1 in
      if (action =? GLFW_PRESS)%Z || (action =? GLFW_REPEAT)%Z then
        with_player (set_motion_y (0.5 * direction) (1.2 * direction)) g
      else if (action =? GLFW_RELEASE)%Z then
        let other_key := if (key =? GLFW_KEY_UP)%Z then GLFW_KEY_DOWN else GLFW_KEY_UP in
        let '(other, g1) := key_state other_key g in
        if other then
          match key_handlers g1 !! other_key with
          | Some h' => dispatch h' g1 other_key GLFW_REPEAT mods
          | None => Abort
          end
        else with_player (set_motion_y 0 0) g1
      else mret g
  | key_space_handler =>
      _ ← ASSERT (key =? GLFW_KEY_SPACE)%Z;
      if (action =? GLFW_PRESS)%Z then
        g1 ← spawn_projectile g;
        mret (set_timed_actions
                (<[0%Z := {| tick_dt := 0; ta_duration := 0.150;
                             action := ActionSpawnProjectile |}]> (timed_actions g1)) g1)
      else if (action =? GLFW_RELEASE)%Z then
        mret (set_timed_actions (delete 0%Z (timed_actions g)) g)
      else mret g
  | key_f3_handler =>
      if (action =? GLFW_PRESS)%Z then
        mret (set_render_opts {| debug_info := negb (debug_info (render_opts g));
                                 aabbs := aabbs (render_opts g) |} g)
      else mret g
  | key_f7_handler =>
      if (action =? GLFW_PRESS)%Z then
        mret (set_render_opts {| debug_info := debug_info (render_opts g);
                                 aabbs := negb (aabbs (render_opts g)) |} g)
      else mret g
  | key_f6_handler =>
      if (action =? GLFW_PRESS)%Z then mret (set_vsync (negb (vsync g)) g) else mret g
  end.

(** A handler called with [GLFW_REPEAT] never calls another handler, so
    the chain of calls is at most two deep. *)
Definition run_handler_inner : KeyHandler -> Game -> Z -> Z -> Z -> outcome Game :=
  handler_body (fun _ _ _ _ _ => Undef).

Definition run_handler : KeyHandler -> Game -> Z -> Z -> Z -> outcome Game :=
  handler_body run_handler_inner.

(** [game_resume] *)
Definition game_resume (g : Game) : Game :=
  if negb (paused g) then g else set_paused false g.

(** One round of the loop of [game_pause] that releases the active keys. *)
Definition release_key (key : Z) (g : Game) : outcome Game :=
  match key_states g !! key with
  | Some true =>
      let g1 := set_key_states (<[key := false]> (key_states g)) g in
      match key_handlers g1 !! key with
      | Some handler => run_handler handler g1 key GLFW_RELEASE 0%Z
      | None => mret g1
      end
  | _ => mret g
  end.

(** [for (x : xs) body], threading the state through an outcome. *)
Fixpoint for_each {A S} (body : A -> S -> outcome S) (xs : list A) (s : S) : outcome S :=
  match xs with
  | [] => mret s
  | a :: rest => s' ← body a s; for_each body rest s'
  end.

(** [game_pause].  The keys are visited in the order of the map's
    listing (a [std::unordered_map] promises no particular order). *)
Definition game_pause (g : Game) : outcome Game :=
  if paused g then mret g
  else
    g1 ← for_each release_key (fst <$> map_to_list (key_states g)) g;
    mret (set_paused true g1).

(** [action(game, dt, time)] *)
Definition run_action (a : ActionFn) (g : Game) (dt time : Q) : outcome Game :=
  match a with
  | ActionNoop => mret g
  | ActionSpawnProjectile => spawn_projectile g
  end.

(** ** One simulation tick: [game_update] (main.cpp) *)

Definition kWidth : Z := 1280.
Definition kHeight : Z := 720.
Definition kAspectRatio : Q := inject_Z kWidth / inject_Z kHeight.

(** *** Timed actions *)

(** One round of the loop over [game.timed_actions]: the accumulator is
    updated in place in the map, then the action runs on the game. *)
Definition update_timed_action (dt time : Q) (key : Z) (g : Game) : outcome Game :=
  match timed_actions g !! key with
  | None => mret g
  | Some ta =>
      let invoke a (og : outcome Game) dt time := g' ← og; run_action a g' dt time in
      let ta' := fst (TimedAction_update invoke ta (Done g) dt time) in
      let g1 := set_timed_actions (<[key := ta']> (timed_actions g)) g in
      snd (TimedAction_update invoke ta (Done g1) dt time)
  end.

Definition update_timed_actions (dt time : Q) (g : Game) : outcome Game :=
  for_each (update_timed_action dt time) (fst <$> map_to_list (timed_actions g)) g.

(** *** Erasing system *)

(** Whether the erasing system removes [obj] this tick. *)
Definition erased (g : Game) (obj : GameObject) : bool :=
  match delay_erasing obj with
  | None => false
  | Some d =>
      match sound obj with
      | Some s => negb (de_sound d && is_playing s g)
      | None => true
      end
  end.

Definition erase_layer (g : Game) (l : Layer) (o : ObjectLists) : ObjectLists :=
  set_layer l (List.filter (fun obj => negb (erased g obj)) (layer l o)) o.

Definition update_erasing (g : Game) : Game :=
  set_objects (foldl (fun o l => erase_layer g l o) (objects (scene g)) all_lists) g.

(** *** Cursor picking system *)

(** [Window::aspect_ratio] (core/window.hpp): [(float)size.x / size.y]. *)
Definition Window_aspect_ratio (w : Window) : Q :=
  inject_Z (ux (w_size w)) / inject_Z (uy (w_size w)).

(** [Cursor::normalized] (core/cursor.hpp): the cursor position converted
    from window space to normalized space, through the offset and size of
    the viewport and the aspect ratio of the window. *)
Definition Cursor_normalized (c : Cursor) (w : Window) (v : Viewport) : glm.vec2 :=
  let normal_max_width := 2 * Window_aspect_ratio w in
  let normal_max_height := 2 in
  glm.mk_vec2
    (((glm.x (pos c) - inject_Z (ux (offset v))) * normal_max_width)
       / inject_Z (ux (v_size v)) - Window_aspect_ratio w)
    (((glm.y (pos c) - inject_Z (uy (offset v))) * - normal_max_height)
       / inject_Z (uy (v_size v)) + 1).

Definition cursor_picking (lm : Libm) (g : Game) : Game :=
  let pixel_size :=
    glm.mk_vec2 (1 / inject_Z (ux (v_size (viewport g))))
                (1 / inject_Z (uy (v_size (viewport g)))) in
  let cursor_pos := Cursor_normalized (cursor g) (window g) (viewport g) in
  let cursor_aabb := {| min := cursor_pos; max := glm.add cursor_pos pixel_size |} in
  foldl (fun g' ship =>
           match aabb ship with
           | None => g'
           | Some b =>
               let spaceship_aabb := Aabb_transform b (Transform_matrix lm (transform ship)) in
               if collision cursor_aabb spaceship_aabb then set_hover true g' else g'
           end)
        (set_hover false g) (objs spaceship g).

(** *** Per-object systems *)

(** [obj.update->fn(obj, dt, time)] *)
Definition run_update (lm : Libm) (fn : UpdateFn) (obj : GameObject) (dt time : Q)
  : GameObject :=
  match fn with
  | UpdateNoop => obj
  | BackgroundDrift =>
      let p := position (transform obj) in
      let v := velocity (motion obj) in
      let vx := if Qltb (glm.x p) (-0.03) || Qgeb (glm.x p) 0.03 then - glm.x v else glm.x v in
      let vy := if Qltb (glm.y p) (-0.03) || Qgeb (glm.y p) 0.03 then - glm.y v else glm.y v in
      set_motion {| velocity := glm.mk_vec2 vx vy;
                    acceleration := acceleration (motion obj) |} obj
  | EnemySweep =>
      set_position (glm.mk_vec2 (sinf lm time * 0.4) (glm.y (position (transform obj)))) obj
  end.

(** Transform snapshot and motion system. *)
Definition motion_system (dt : Q) (obj : GameObject) : GameObject :=
  let obj1 := set_prev_transform (transform obj) obj in
  let v := glm.add (velocity (motion obj1)) (glm.scale_by (acceleration (motion obj1)) dt) in
  let obj2 := set_motion {| velocity := v; acceleration := acceleration (motion obj1) |} obj1 in
  set_position (glm.add (position (transform obj2)) (glm.scale_by v dt)) obj2.

(** Retire an entity: mark it for sound-gated erasure and move it to the
    sentinel transform, unless it is marked already. *)
Definition retire (obj : GameObject) : GameObject :=
  match delay_erasing obj with
  | Some _ => obj
  | None =>
      set_prev_transform sentinel
        (set_transform sentinel (set_delay_erasing (Some {| de_sound := true |}) obj))
  end.

(** Sprite Animation system. *)
Definition sprite_system (dt : Q) (obj : GameObject) : outcome GameObject :=
  match sprite_animation obj with
  | None => mret obj
  | Some sa =>
      sa' ← update_frame sa dt;
      let obj1 := set_sprite_animation (Some sa') obj in
      mret (if expired sa' then retire obj1 else obj1)
  end.

(** Custom Update Function system. *)
Definition custom_update_system (lm : Libm) (dt time : Q) (obj : GameObject) : GameObject :=
  match update obj with
  | None => obj
  | Some fn => run_update lm fn obj dt time
  end.

(** Off-Screen Destroy system: [obj.aabb] is dereferenced unchecked. *)
Definition offscreen_system (lm : Libm) (screen : Aabb) (obj : GameObject)
  : outcome GameObject :=
  match offscreen_destroy obj with
  | None => mret obj
  | Some _ =>
      b ← deref (aabb obj);
      let obj_aabb := Aabb_transform b (Transform_matrix lm (transform obj)) in
      if negb (collision obj_aabb screen) then
        match delay_erasing obj with
        | None => mret (set_delay_erasing (Some DelayErasing_default) obj)
        | Some _ => mret obj
        end
      else mret obj
  end.

(** Screen Bound system: four independent clamps. *)
Definition screen_bound_system (screen : Aabb) (obj : GameObject) : GameObject :=
  match screen_bound obj with
  | None => obj
  | Some _ =>
      let p := position (transform obj) in
      let x1 := if Qltb (glm.x p) (glm.x (min screen)) then glm.x (min screen) else glm.x p in
      let y1 := if Qltb (glm.y p) (glm.y (min screen)) then glm.y (min screen) else glm.y p in
      let x2 := if Qgtb x1 (glm.x (max screen)) then glm.x (max screen) else x1 in
      let y2 := if Qgtb y1 (glm.y (max screen)) then glm.y (max screen) else y1 in
      set_position (glm.mk_vec2 x2 y2) obj
  end.

(** The body of the loop "Update all objects". *)
Definition update_object (lm : Libm) (screen : Aabb) (dt time : Q) (obj : GameObject)
  : outcome GameObject :=
  let obj1 := motion_system dt obj in
  obj2 ← sprite_system dt obj1;
  let obj3 := custom_update_system lm dt time obj2 in
  obj4 ← offscreen_system lm screen obj3;
  mret (screen_bound_system screen obj4).

(** [for (auto& obj : *object_list)]: the objects of one layer, first to
    last, each updated in place.  [visit] records the order of the visits. *)
Fixpoint update_objects_from (lm : Libm) (screen : Aabb) (dt time : Q) (l : Layer)
    (i : nat) (objs : list GameObject) (visited : list (Layer * nat))
  : outcome (list GameObject * list (Layer * nat)) :=
  match objs with
  | [] => mret ([], visited)
  | obj :: rest =>
      obj' ← update_object lm screen dt time obj;
      '(rest', visited') ← update_objects_from lm screen dt time l (S i) rest
                              (visited ++ [(l, i)]);
      mret (obj' :: rest', visited')
  end.

(** [for (auto* object_list : game.scene->objects.all_lists())]: the
    layers in the order of the array.  Returns the game and the order in
    which the objects were visited. *)
Definition update_all_objects_traced (lm : Libm) (dt time : Q) (g : Game)
  : outcome (Game * list (Layer * nat)) :=
  for_each (fun l '(g', visited) =>
              '(objs', visited') ←
                update_objects_from lm (screen_aabb g') dt time l 0 (objs l g') visited;
              mret (set_objs l objs' g', visited'))
           all_lists (g, []).

Definition update_all_objects (lm : Libm) (dt time : Q) (g : Game) : outcome Game :=
  fst <$> update_all_objects_traced lm dt time g.

(** *** Collision systems *)

(** Create an explosion at [p], play its sound and add it to the
    explosion layer. *)
Definition spawn_explosion_at (p : glm.vec2) (g : Game) : outcome Game :=
  '(ex, g1) ← create_explosion g;
  let ex1 := set_position p ex in
  let ex2 := set_prev_transform (transform ex1) ex1 in
  s ← deref (sound ex2);
  let g2 := play s g1 in
  mret (set_objs explosion (objs explosion g2 ++ [ex2]) g2).

(** [spaceship->health->value--]: unchecked dereference, signed decrement. *)
Definition decrement_health (ship : GameObject) : outcome GameObject :=
  h ← deref (health ship);
  if (value h =? INT_MIN)%Z then Undef
  else mret (set_health (Some {| value := value h - 1 |}) ship).

(** The body of the inner loop of the Projectile<->Spaceship Collision
    system, for the spaceship at index [j] and the projectile at index [i]. *)
Definition hit_projectile (lm : Libm) (j i : nat) (g : Game) : outcome Game :=
  proj ← deref (objs projectile g !! i);
  ship ← deref (objs spaceship g !! j);
  pb ← deref (aabb proj);
  sb ← deref (aabb ship);
  let projectile_aabb := Aabb_transform pb (Transform_matrix lm (transform proj)) in
  let spaceship_aabb := Aabb_transform sb (Transform_matrix lm (transform ship)) in
  if collision projectile_aabb spaceship_aabb then
    g1 ← spawn_explosion_at (position (transform proj)) g;
    let proj' := retire proj in
    let g2 := set_objs projectile (<[i := proj']> (objs projectile g1)) g1 in
    ship1 ← decrement_health ship;
    match health ship1 with
    | Some h =>
        if (value h <=? 0)%Z then
          let ship2 :=
            set_prev_transform (transform proj')
              (set_transform sentinel
                 (set_delay_erasing (Some DelayErasing_default) ship1)) in
          game_pause (set_objs spaceship (<[j := ship2]> (objs spaceship g2)) g2)
        else mret (set_objs spaceship (<[j := ship1]> (objs spaceship g2)) g2)
    | None => Undef
    end
  else mret g.

(** Projectile<->Spaceship Collision system.  The iterator is stepped
    over the player before the loop test: undefined on an empty layer. *)
Definition projectile_spaceship_collision (lm : Libm) (g : Game) : outcome Game :=
  match objs spaceship g with
  | [] => Undef
  | _ :: enemies =>
      for_each (fun j g' =>
                  for_each (hit_projectile lm j) (seq 0 (length (objs projectile g'))) g')
               (seq 1 (length enemies)) g
  end.

(** The body of the loop of the Player<->Enemy Spaceships Collision system. *)
Definition hit_player (lm : Libm) (j : nat) (g : Game) : outcome Game :=
  pl ← deref (objs spaceship g !! 0%nat);
  en ← deref (objs spaceship g !! j);
  pb ← deref (aabb pl);
  eb ← deref (aabb en);
  let player_aabb := Aabb_transform pb (Transform_matrix lm (transform pl)) in
  let enemy_aabb := Aabb_transform eb (Transform_matrix lm (transform en)) in
  if collision player_aabb enemy_aabb then
    g1 ← spawn_explosion_at (position (transform pl)) g;
    game_pause (set_objs spaceship (<[0%nat := set_glo None pl]> (objs spaceship g1)) g1)
  else mret g.

(** Player<->Enemy Spaceships Collision system. *)
Definition player_enemy_collision (lm : Libm) (g : Game) : outcome Game :=
  if paused g then mret g
  else
    match objs spaceship g with
    | [] => Undef
    | _ :: enemies => for_each (hit_player lm) (seq 1 (length enemies)) g
    end.

(** [game_update] *)
Definition game_update (lm : Libm) (g : Game) (dt time : Q) : outcome Game :=
  g1 ← update_timed_actions dt time g;
  let g2 := update_erasing g1 in
  let g3 := cursor_picking lm g2 in
  g4 ← update_all_objects lm dt time g3;
  g5 ← projectile_spaceship_collision lm g4;
  player_enemy_collision lm g5.

(** ** Rendering the objects: the loop "Render all objects" of [game_render] *)

Inductive DrawCall :=
| draw_textured_object (tex : nat) (o : GLObject) (model : glm.mat4)
    (frame : option SpriteFrame)
| draw_text_object (fmt : TextFormat) (o : GLObject) (model : glm.mat4)
| draw_colored_object (o : GLObject) (model : glm.mat4).

(** The body of the draw loop, for an object whose [glo] is [o]. *)
Definition draw_object (lm : Libm) (alpha : Q) (obj : GameObject) (o : GLObject)
  : outcome DrawCall :=
  let t := {| position := glm.lerp (position (prev_transform obj))
                                   (position (transform obj)) alpha;
              scale := glm.lerp (scale (prev_transform obj)) (scale (transform obj)) alpha;
              rotation := glm.lerp1 (rotation (prev_transform obj))
                                    (rotation (transform obj)) alpha |} in
  match texture obj with
  | Some tex =>
      match sprite_animation obj with
      | Some sa =>
          frame ← curr_frame sa;
          mret (draw_textured_object tex o (Transform_matrix lm t) (Some frame))
      | None => mret (draw_textured_object tex o (Transform_matrix lm t) None)
      end
  | None =>
      match text_fmt obj with
      | Some fmt => mret (draw_text_object fmt o (Transform_matrix lm t))
      | None => mret (draw_colored_object o (Transform_matrix lm t))
      end
  end.

(** [for (auto obj = object_list->rbegin(); obj != object_list->rend() && obj->glo; obj++)]:
    [robjs] is what is left of the reversed layer, each object with its
    index in the layer.  The loop ends at the first null [glo]. *)
Fixpoint draw_while_glo (lm : Libm) (alpha : Q) (robjs : list (nat * GameObject))
  : outcome (list (nat * DrawCall)) :=
  match robjs with
  | [] => mret []
  | (i, obj) :: rest =>
      match glo obj with
      | None => mret []
      | Some o =>
          c ← draw_object lm alpha obj o;
          cs ← draw_while_glo lm alpha rest;
          mret ((i, c) :: cs)
      end
  end.

(** The draw calls of one layer, each with the index of the object drawn. *)
Definition render_layer (lm : Libm) (alpha : Q) (l : list GameObject)
  : outcome (list (nat * DrawCall)) :=
  draw_while_glo lm alpha (reverse (imap (fun i obj => (i, obj)) l)).

(** The draw calls of the scene: the layers in the order of [all_lists]. *)
Definition render_all_objects (lm : Libm) (alpha : Q) (g : Game)
  : outcome (list (Layer * nat * DrawCall)) :=
  for_each (fun l calls =>
              cs ← render_layer lm alpha (objs l g);
              mret (calls ++ ((fun '(i, c) => (l, i, c)) <$> cs)))
           all_lists [].

(** ** Window events (main.cpp) *)

(** What [glfwPollEvents] delivers to the callbacks registered by
    [create_window].  Framebuffer resizes, which only rewrite the window and
    viewport sizes, are not part of the model. *)
Inductive Event :=
| KeyEvent (key action mods : Z)
| FocusEvent (focused : bool)
| CursorPosEvent (xpos ypos : Q).

Definition set_cursor (c : Cursor) (g : Game) : Game :=
  {| paused := paused g; vsync := vsync g; hover := hover g; cursor := c;
     window := window g;
     viewport := viewport g; scene := scene g; audios := audios g; textures := textures g;
     key_handlers := key_handlers g; key_states := key_states g;
     timed_actions := timed_actions g; screen_aabb := screen_aabb g;
     render_opts := render_opts g; gl_names := gl_names g; al_names := al_names g;
     al_playing := al_playing g |}.

(** [key_event_callback] *)
Definition key_event_callback (key action mods : Z) (g : Game) : outcome Game :=
  if negb (action =? GLFW_PRESS)%Z && negb (action =? GLFW_RELEASE)%Z then mret g
  else
    g1 ← match key_handlers g !! key with
         | Some handler => run_handler handler g key action mods
         | None => mret g
         end;
    mret (set_key_states (<[key := (action =? GLFW_PRESS)%Z]> (key_states g1)) g1).

(** [window_focus_callback] *)
Definition window_focus_callback (focused : bool) (g : Game) : outcome Game :=
  if focused then mret (game_resume g) else game_pause g.

(** [cursor_position_callback] *)
Definition cursor_position_callback (xpos ypos : Q) (g : Game) : outcome Game :=
  mret (set_cursor {| pos := glm.mk_vec2 xpos ypos |} g).

Definition deliver (e : Event) (g : Game) : outcome Game :=
  match e with
  | KeyEvent key action mods => key_event_callback key action mods g
  | FocusEvent focused => window_focus_callback focused g
  | CursorPosEvent xpos ypos => cursor_position_callback xpos ypos g
  end.

(** [glfwPollEvents], given the events that are pending. *)
Definition glfwPollEvents (pending : list Event) (g : Game) : outcome Game :=
  for_each deliver pending g.

(** ** The frame loop: [game_loop] (main.cpp) *)

(** The locals of [game_loop]. *)
Record LoopState := {
  game : Game;
  epochtime : Q;
  last_time : Q;
  update_lag : Q;
  render_lag : Q;
}.

Definition timestep : Q := 1 / 100.

(** What one iteration of the loop reads from outside: the clock
    ([glfwGetTime]) and the events pending at each poll of the iteration. *)
Record FrameInput := {
  now_time : Q;
  pending : list (list Event);
}.

(** [while (update_lag >= timestep) { ... }].  [fuel] bounds the number
    of rounds; [None] is "out of fuel". *)
Fixpoint catch_up (lm : Libm) (fuel : nat) (evs : list (list Event)) (st : LoopState)
  : option (outcome LoopState) :=
  if Qgeb (update_lag st) timestep then
    match fuel with
    | O => None
    | S fuel' =>
        match (g1 ← glfwPollEvents (default [] (head evs)) (game st);
               game_update lm g1 timestep (epochtime st)) with
        | Done g2 =>
            catch_up lm fuel' (tail evs)
              {| game := g2;
                 epochtime := epochtime st + timestep;
                 last_time := last_time st;
                 update_lag := update_lag st - timestep;
                 render_lag := render_lag st |}
        | Undef => Some Undef
        | Abort => Some Abort
        end
    end
  else Some (Done st).

(** Rounds that suffice for a lag: one per whole timestep it holds. *)
Definition catch_up_fuel (lag : Q) : nat := Z.to_nat (Qfloor (lag / timestep)).

(** One iteration of [while (!glfwWindowShouldClose(window))], up to the
    call of [game_render].  The first component is the [alpha] with which
    [game_render] is invoked, when it is invoked. *)
Definition loop_iteration (lm : Libm) (refresh_rate : Q) (inp : FrameInput) (st : LoopState)
  : option Q * outcome LoopState :=
  let loop_time := now_time inp - last_time st in
  let st1 := {| game := game st; epochtime := epochtime st; last_time := now_time inp;
                update_lag := update_lag st + loop_time; render_lag := render_lag st |} in
  match catch_up lm (catch_up_fuel (update_lag st1)) (pending inp) st1 with
  | None => (None, Undef)
  | Some Undef => (None, Undef)
  | Some Abort => (None, Abort)
  | Some (Done st2) =>
      let rlag := render_lag st2 + loop_time in
      let render_interval := if vsync (game st2) then 1 / (refresh_rate + 0.5) else 0 in
      if Qgeb rlag render_interval then
        let alpha := update_lag st2 / timestep in
        (Some alpha,
         Done {| game := game st2; epochtime := epochtime st2; last_time := last_time st2;
                 update_lag := update_lag st2; render_lag := 0 |})
      else
        (None,
         Done {| game := game st2; epochtime := epochtime st2; last_time := last_time st2;
                 update_lag := update_lag st2; render_lag := rlag |})
  end.

(** The locals of [game_loop] when the loop is entered. *)
Definition loop_start (g : Game) : LoopState :=
  {| game := g; epochtime := 0; last_time := 0; update_lag := 0; render_lag := 0 |}.

(** The iterations of the loop, one per input; the [alpha] of every call
    of [game_render], in order, and the state the loop is left in. *)
Fixpoint game_loop (lm : Libm) (refresh_rate : Q) (inputs : list FrameInput)
    (st : LoopState) : list Q * outcome LoopState :=
  match inputs with
  | [] => ([], Done st)
  | inp :: rest =>
      match loop_iteration lm refresh_rate inp st with
      | (a, Done st') =>
          let '(alphas, final) := game_loop lm refresh_rate rest st' in
          (option_list a ++ alphas, final)
      | (a, failed) => (option_list a, failed)
      end
  end.

(** The clock never runs backwards. *)
Fixpoint clock_monotone (t : Q) (inputs : list FrameInput) : Prop :=
  match inputs with
  | [] => True
  | inp :: rest => t <= now_time inp /\ clock_monotone (now_time inp) rest
  end.

(** ** The initial scene: [game_init] and [init_key_handlers] (main.cpp) *)

(** [init_key_handlers] *)
Definition init_key_handlers (key_handlers : gmap Z KeyHandler) : gmap Z KeyHandler :=
  <[GLFW_KEY_F7 := key_f7_handler]>
  (<[GLFW_KEY_F6 := key_f6_handler]>
  (<[GLFW_KEY_F3 := key_f3_handler]>
  (<[GLFW_KEY_SPACE := key_space_handler]>
  (<[GLFW_KEY_DOWN := key_up_down_handler]>
  (<[GLFW_KEY_UP := key_up_down_handler]>
  (<[GLFW_KEY_RIGHT := key_left_right_handler]>
  (<[GLFW_KEY_LEFT := key_left_right_handler]> key_handlers))))))).

Definition ship_frames : list SpriteFrame :=
  [ {| sf_duration := 0.15; ebo_offset := 0;  ebo_count := 6 |};
    {| sf_duration := 0.15; ebo_offset := 12; ebo_count := 6 |};
    {| sf_duration := 0.15; ebo_offset := 24; ebo_count := 6 |};
    {| sf_duration := 0.15; ebo_offset := 36; ebo_count := 6 |} ].

Definition ship_animation : SpriteAnimation :=
  {| last_transit_dt := 0; curr_frame_idx := 0; frames := ship_frames;
     curr_cycle_count := 0; max_cycles := 0 |}.

(** The game before the scene is filled: the scalar members as
    [game_init] sets them, the audio and texture files loaded (every [ASSERT]
    of [game_init] passing), handles numbered in the order of loading. *)
Definition game_init_base : Game := {|
  paused := false;
  vsync := true;
  hover := false;
  cursor := {| pos := glm.mk_vec2 0 0 |};
  window := {| w_size := {| ux := kWidth; uy := kHeight |} |};
  viewport := {| offset := {| ux := 0; uy := 0 |};
                 v_size := {| ux := kWidth; uy := kHeight |} |};
  scene := {| objects := {| l_background := []; l_spaceship := []; l_projectile := [];
                            l_explosion := []; l_gui := []; l_text := [] |} |};
  audios := <["explosionCrunch_000.wav" := 2%nat]> (<["laser-14729.wav" := 1%nat]> ∅);
  textures := <["UFO.png" := 5%nat]> (<["Paranoid.png" := 4%nat]>
              (<["background03.png" := 3%nat]> (<["Projectile01.png" := 2%nat]>
              (<["Explosion.png" := 1%nat]> ∅))));
  key_handlers := ∅;
  key_states := ∅;
  timed_actions := ∅;
  screen_aabb := {| min := glm.mk_vec2 (- kAspectRatio) (-1);
                    max := glm.mk_vec2 kAspectRatio 1 |};
  render_opts := {| debug_info := false; aabbs := false |};
  gl_names := 1;
  al_names := 1;
  al_playing := ∅;
|}.

(** The background object of [game_init]. *)
Definition init_background (g : Game) : Game :=
  let '(o, g1) := create_textured_quad_globject g in
  let t := {| position := glm.splat 0; scale := glm.mk_vec2 (kAspectRatio + 0.1) 1.1;
              rotation := 0 |} in
  set_objs background
    (objs background g1 ++
       [ {| tag := {| label := "background" |};
            transform := t; prev_transform := t;
            motion := {| velocity := glm.mk_vec2 0.014 0.004; acceleration := glm.splat 0 |};
            glo := Some o; texture := Some 3%nat; sprite_animation := None;
            text_fmt := None; update := Some BackgroundDrift; aabb := None;
            offscreen_destroy := None; screen_bound := None; sound := None;
            delay_erasing := None; health := None |} ]) g1.

(** The player object of [game_init]. *)
Definition init_player (g : Game) : Game :=
  let '(vertices, indices) := gen_sprite_quads 4 in
  let '(o, g1) := create_textured_globject vertices indices g in
  let t := {| position := glm.mk_vec2 0 (-0.7); scale := glm.splat 0.1; rotation := 0 |} in
  set_objs spaceship
    (objs spaceship g1 ++
       [ {| tag := {| label := "player" |};
            transform := t; prev_transform := t;
            motion := {| velocity := glm.splat 0; acceleration := glm.splat 0 |};
            glo := Some o; texture := Some 4%nat; sprite_animation := Some ship_animation;
            text_fmt := None; update := None;
            aabb := Some {| min := glm.mk_vec2 (-0.80) (-0.70);
                            max := glm.mk_vec2 0.82 0.70 |};
            offscreen_destroy := None; screen_bound := Some Build_ScreenBound;
            sound := None; delay_erasing := None; health := None |} ]) g1.

(** The enemy object of [game_init]. *)
Definition init_enemy (g : Game) : Game :=
  let '(vertices, indices) := gen_sprite_quads 4 in
  let '(o, g1) := create_textured_globject vertices indices g in
  let t := {| position := glm.mk_vec2 0 0.5; scale := glm.mk_vec2 0.08 (-0.08);
              rotation := 0 |} in
  set_objs spaceship
    (objs spaceship g1 ++
       [ {| tag := {| label := "enemy" |};
            transform := t; prev_transform := t;
            motion := {| velocity := glm.splat 0; acceleration := glm.splat 0 |};
            glo := Some o; texture := Some 5%nat; sprite_animation := Some ship_animation;
            text_fmt := None; update := Some EnemySweep;
            aabb := Some {| min := glm.mk_vec2 (-0.55) (-0.50);
                            max := glm.mk_vec2 0.55 0.50 |};
            offscreen_destroy := None; screen_bound := None;
            sound := None; delay_erasing := None;
            health := Some {| value := 10 |} |} ]) g1.

(** The game as [game_loop] has it when the loop is entered: after
    [game_init] and [init_key_handlers]. *)
Definition game_init : Game :=
  let g := init_enemy (init_player (init_background game_init_base)) in
  {| paused := paused g; vsync := vsync g; hover := hover g; cursor := cursor g;
     window := window g;
     viewport := viewport g; scene := scene g; audios := audios g; textures := textures g;
     key_handlers := init_key_handlers (key_handlers g); key_states := key_states g;
     timed_actions := timed_actions g; screen_aabb := screen_aabb g;
     render_opts := render_opts g; gl_names := gl_names g; al_names := al_names g;
     al_playing := al_playing g |}.

(** A libm for evaluating scenes at rotation and time zero: it is exact
    at the angle 0, which is all those scenes use. *)
Definition libm_at_zero : Libm :=
  {| radians := fun d => d; cosf := fun _ => 1; sinf := fun _ => 0 |}.

(** * Predicates and scenarios of the statements *)

(** The four strict comparisons of the overlap test. *)
Definition strictly_intersecting (a b : Aabb) : Prop :=
  glm.x (min a) < glm.x (max b) /\ glm.x (min b) < glm.x (max a) /\
  glm.y (min a) < glm.y (max b) /\ glm.y (min b) < glm.y (max a).

(** Two boxes that meet in an edge: one's maximum is the other's minimum on
    some axis. *)
Definition touching (a b : Aabb) : Prop :=
  glm.x (max a) == glm.x (min b) \/ glm.x (min a) == glm.x (max b) \/
  glm.y (max a) == glm.y (min b) \/ glm.y (min a) == glm.y (max b).

Definition unit_box_at (x0 y0 : Q) : Aabb :=
  {| min := glm.mk_vec2 x0 y0; max := glm.mk_vec2 (x0 + 1) (y0 + 1) |}.

(** The timed action as one [update] call leaves it (the accumulator does
    not depend on what the action does). *)
Definition after_update {A} (ta : TimedAction A) (dt : Q) : TimedAction A :=
  fst (TimedAction_update (fun _ (n : nat) _ _ => S n) ta 0%nat dt 0).

Definition every_second : TimedAction ActionFn :=
  {| tick_dt := 0; ta_duration := 1; action := ActionNoop |}.

(** The index [update_frame] moves to when it leaves the current frame. *)
Definition next_frame_idx (sa : SpriteAnimation) : nat :=
  if (S (curr_frame_idx sa) =? length (frames sa))%nat then 0%nat else S (curr_frame_idx sa).

(** The cycle count after leaving the current frame. *)
Definition next_cycle_count (sa : SpriteAnimation) : N :=
  if (S (curr_frame_idx sa) =? length (frames sa))%nat
  then ((curr_cycle_count sa + 1) mod SIZE_MODULUS)%N else curr_cycle_count sa.

(** Three frames of one second each. *)
Definition three_seconds : SpriteAnimation :=
  {| last_transit_dt := 0; curr_frame_idx := 0;
     frames := [ {| sf_duration := 1; ebo_offset := 0;  ebo_count := 6 |};
                 {| sf_duration := 1; ebo_offset := 12; ebo_count := 6 |};
                 {| sf_duration := 1; ebo_offset := 24; ebo_count := 6 |} ];
     curr_cycle_count := 0; max_cycles := 0 |}.

(** A loader that finds one file. *)
Definition only_ufo (key : string) (_ : unit) (e : unit) : option nat * unit :=
  (if String.eqb key "UFO.png" then Some 7%nat else None, e).

Definition empty_cache : Cache.state nat unit :=
  {| Cache.map := ∅; Cache.heap := []; Cache.ext := (); Cache.loads := [] |}.

(** Every sprite animation in the layer points at one of its frames. *)
Definition sprites_in_range (l : list GameObject) : Prop :=
  Forall (fun obj => match sprite_animation obj with
                     | Some sa => (curr_frame_idx sa < length (frames sa))%nat
                     | None => True
                     end) l.

Definition with_handle : GameObject :=
  set_glo (Some {| vbo := 1; ebo := 2; vao := 3; num_indices := 6; num_vertices := 4 |})
          GameObject_default.

(** What the per-object systems dereference unchecked: the current frame of
    a sprite animation, and the AABB of an object that is destroyed off
    screen. *)
Definition updatable (obj : GameObject) : Prop :=
  match sprite_animation obj with
  | Some sa => (curr_frame_idx sa < length (frames sa))%nat
  | None => True
  end /\
  (offscreen_destroy obj <> None -> aabb obj <> None).

(** The objects of a layer, each with its layer, first to last. *)
Definition layer_order (l : Layer) (g : Game) : list (Layer * nat) :=
  (fun i => (l, i)) <$> seq 0 (length (objs l g)).

(** Back to front: the layers in declaration order, each first to last. *)
Definition declaration_order (g : Game) : list (Layer * nat) :=
  layer_order background g ++ layer_order spaceship g ++ layer_order projectile g ++
  layer_order explosion g ++ layer_order gui g ++ layer_order text g.

(** The order in which the draw loop reaches the objects, when each has a
    render handle: the layers in declaration order, each last to first.
    What is drawn later covers what is drawn earlier: this is back to
    front. *)
Definition draw_order (g : Game) : list (Layer * nat) :=
  concat ((fun l => reverse (layer_order l g)) <$> all_lists).

(** Front to back: the objects most on top first, the reverse of the order
    in which they are drawn. *)
Definition front_to_back_order (g : Game) : list (Layer * nat) :=
  reverse (draw_order g).

(** Whether an object has a render handle. *)
Definition has_glo (obj : GameObject) : Prop := glo obj <> None.

(** The test of the cursor picking loop, for one spaceship. *)
Definition under_cursor (lm : Libm) (g : Game) (ship : GameObject) : bool :=
  let pixel_size :=
    glm.mk_vec2 (1 / inject_Z (ux (v_size (viewport g))))
                (1 / inject_Z (uy (v_size (viewport g)))) in
  let cursor_pos := Cursor_normalized (cursor g) (window g) (viewport g) in
  let cursor_aabb := {| min := cursor_pos; max := glm.add cursor_pos pixel_size |} in
  match aabb ship with
  | None => false
  | Some b => collision cursor_aabb (Aabb_transform b (Transform_matrix lm (transform ship)))
  end.

(** The scene of [game_init] with one more object, in the text layer. *)
Definition scene_with_text : Game := set_objs text [GameObject_default] game_init.

Definition in_unit_interval (alpha : Q) : Prop := 0 <= alpha /\ alpha < 1.

(** The scene with the player alone. *)
Definition lone_player : Game := init_player game_init_base.

Definition two_frames : list FrameInput :=
  [ {| now_time := 0.025; pending := [] |}; {| now_time := 0.05; pending := [] |} ].

(** [render_interval] of an iteration: 0 unless vsync is on. *)
Definition render_interval (refresh_rate : Q) (g : Game) : Q :=
  if vsync g then 1 / (refresh_rate + 0.5) else 0.

(** What one iteration of the frame loop does, entered with the locals
    [st] and reading [inp].  The catch-up loop ends, whatever bound at least
    [catch_up_fuel lag] its rounds are given, with the same result [r].
    When no tick failed, it has run [catch_up_fuel lag] ticks, one per whole
    timestep of [update_lag], and leaves [update_lag] in [0, timestep); the
    iteration then completes, and [game_render] is invoked exactly when
    [render_lag] has reached the render interval, with
    [alpha = update_lag / timestep] in [0, 1).  A failed tick ends the
    iteration without a render. *)
Definition catches_up_and_renders (lm : Libm) (refresh_rate : Q)
    (st : LoopState) (inp : FrameInput) : Prop :=
  let loop_time := now_time inp - last_time st in
  let lag := update_lag st + loop_time in
  let ticks := inject_Z (Z.of_nat (catch_up_fuel lag)) in
  let st1 := {| game := game st; epochtime := epochtime st; last_time := now_time inp;
                update_lag := lag; render_lag := render_lag st |} in
  0 <= lag /\
  exists r : outcome LoopState,
    (forall fuel : nat, (catch_up_fuel lag <= fuel)%nat ->
       catch_up lm fuel (pending inp) st1 = Some r) /\
    match r with
    | Done st2 =>
        update_lag st2 == lag - ticks * timestep /\
        epochtime st2 == epochtime st + ticks * timestep /\
        0 <= update_lag st2 /\ update_lag st2 < timestep /\
        (exists st', snd (loop_iteration lm refresh_rate inp st) = Done st' /\
                     game st' = game st2 /\ epochtime st' = epochtime st2 /\
                     update_lag st' = update_lag st2 /\ last_time st' = now_time inp) /\
        (render_interval refresh_rate (game st2) <= render_lag st + loop_time ->
         fst (loop_iteration lm refresh_rate inp st) = Some (update_lag st2 / timestep) /\
         in_unit_interval (update_lag st2 / timestep)) /\
        (render_lag st + loop_time < render_interval refresh_rate (game st2) ->
         fst (loop_iteration lm refresh_rate inp st) = None)
    | failed => loop_iteration lm refresh_rate inp st = (None, failed)
    end.

(** The locals of the loop after the first frame of [two_frames]. *)
Definition after_first_frame : LoopState :=
  match snd (game_loop libm_at_zero 60 (take 1 two_frames) (loop_start lone_player)) with
  | Done st => st
  | _ => loop_start lone_player
  end.

(** The spaceship layer with the motion of the player, the first entry,
    blanked. *)
Definition calm (ships : list GameObject) : list GameObject :=
  match ships with
  | [] => []
  | p :: rest =>
      set_motion {| velocity := glm.splat 0; acceleration := glm.splat 0 |} p :: rest
  end.

(** The part of the game that releasing keys and pausing does not touch:
    everything but the pause flag, the key states, the timed actions, the
    render options, vsync and the motion of the player. *)
Definition pause_frame (g : Game) :=
  (objs background g, calm (objs spaceship g), objs projectile g, objs explosion g,
   objs gui g, objs text g,
   (textures g, audios g, key_handlers g),
   (gl_names g, al_names g, al_playing g, screen_aabb g)).

(** The key handlers are those of [init_key_handlers] and there is a player. *)
Definition pause_ready (g : Game) : Prop :=
  key_handlers g = init_key_handlers ∅ /\ objs spaceship g <> [].

(** What spawning an explosion leaves alone: everything but the explosion
    layer and the driver state. *)
Definition spawn_frame (g : Game) :=
  (objs background g, objs spaceship g, objs projectile g, objs gui g, objs text g,
   (textures g, audios g, key_handlers g, key_states g),
   (paused g, timed_actions g, screen_aabb g)).

(** Whether the world-space boxes of a projectile and a spaceship overlap. *)
Definition overlapb (lm : Libm) (proj ship : GameObject) : bool :=
  match aabb proj, aabb ship with
  | Some pb, Some sb =>
      collision (Aabb_transform pb (Transform_matrix lm (transform proj)))
                (Aabb_transform sb (Transform_matrix lm (transform ship)))
  | _, _ => false
  end.

Definition overlapping (lm : Libm) (proj ship : GameObject) : Prop :=
  overlapb lm proj ship = true.


(** The health of the spaceship at index [j]. *)
Definition health_of (j : nat) (g : Game) : option Z :=
  ship ← objs spaceship g !! j; value <$> health ship.

(** The game with one more projectile, at [p]. *)
Definition add_projectile (p : glm.vec2) (g : Game) : Game :=
  match create_player_projectile g with
  | Done (proj, g1) =>
      let t := {| position := p; scale := scale (transform proj);
                  rotation := rotation (transform proj) |} in
      set_objs projectile
        (objs projectile g1 ++ [set_prev_transform t (set_transform t proj)]) g1
  | _ => g
  end.

(** The end-to-end scenario: the player at (0, -0.7), the enemy at
    (0, 0.5) and a projectile right on top of the enemy. *)
Definition scenario_hit : Game := add_projectile (glm.mk_vec2 0 0.5) game_init.



(** The spaceship at index [j] stripped of its AABB component. *)
Definition without_aabb (j : nat) (g : Game) : Game :=
  set_objs spaceship
    (alter (fun o =>
              {| tag := tag o; transform := transform o; prev_transform := prev_transform o;
                 motion := motion o; glo := glo o; texture := texture o;
                 sprite_animation := sprite_animation o; text_fmt := text_fmt o;
                 update := update o; aabb := None;
                 offscreen_destroy := offscreen_destroy o; screen_bound := screen_bound o;
                 sound := sound o; delay_erasing := delay_erasing o; health := health o |})
           j (objs spaceship g)) g.

(** The AABB components of the projectiles and of the spaceships. *)
Definition aabb_profile (g : Game) : list (option Aabb) * list (option Aabb) :=
  (aabb <$> objs projectile g, aabb <$> objs spaceship g).

Definition has_aabb (obj : GameObject) : Prop := aabb obj <> None.

(** Split conjunctions only: the equations of a scenario are then settled
    by evaluation. *)
Ltac conj_split := repeat match goal with |- _ /\ _ => split end.

Definition the_projectile : GameObject :=
  default GameObject_default (objs projectile scenario_hit !! 0%nat).

Definition the_enemy : GameObject :=
  default GameObject_default (objs spaceship scenario_hit !! 1%nat).


(** The scene of [game_init] with the enemy moved onto the player. *)
Definition scenario_crash : Game :=
  set_objs spaceship
    (alter (set_position (glm.mk_vec2 0 (-0.7))) 1%nat (objs spaceship game_init)) game_init.

(** * Further predicates and scenarios *)

(** A box whose minimum corner is below its maximum corner on both axes. *)
Definition ordered (b : Aabb) : Prop :=
  glm.x (min b) <= glm.x (max b) /\ glm.y (min b) <= glm.y (max b).

(** The quad of side 2 around the origin, the default [Aabb]. *)
Definition unit_quad : Aabb := {| min := glm.splat (-1); max := glm.splat 1 |}.

(** The transform of the enemy of [game_init]: mirrored on the y axis. *)
Definition mirrored : Transform :=
  {| position := glm.mk_vec2 0 0.5; scale := glm.mk_vec2 0.08 (-0.08); rotation := 0 |}.

(** The durations of the frames still to run in the current cycle, the
    current frame first. *)
Definition remaining_durations (sa : SpriteAnimation) : list Q :=
  sf_duration <$> drop (curr_frame_idx sa) (frames sa).

(** An animation at the start of a cycle. *)
Definition at_cycle_start (sa : SpriteAnimation) : Prop :=
  curr_frame_idx sa = 0%nat /\ last_transit_dt sa == 0 /\ frames sa <> [].

(** A timed action that goes off every 150 ms, as [key_space_handler]
    registers it, part of the way to its next round. *)
Definition fire_timer : TimedAction ActionFn :=
  {| tick_dt := 0.145; ta_duration := 0.150; action := ActionSpawnProjectile |}.

(** A cache in good order: every cached handle refers to an object on the
    heap, and no two keys share a handle. *)
Definition cache_wf {R Ext} (s : Cache.state R Ext) : Prop :=
  (forall k h, Cache.map s !! k = Some h -> (h < length (Cache.heap s))%nat) /\
  (forall k1 k2 h, Cache.map s !! k1 = Some h -> Cache.map s !! k2 = Some h -> k1 = k2).

(** The second state has every object of the first at the same address, and
    every cache entry of the first. *)
Definition cache_extends {R Ext} (s s' : Cache.state R Ext) : Prop :=
  (exists added, Cache.heap s' = Cache.heap s ++ added) /\
  Cache.map s ⊆ Cache.map s'.

(** No key is down in the second game that was not down in the first. *)
Definition no_new_press (g g' : Game) : Prop :=
  forall k, key_states g' !! k = Some true -> key_states g !! k = Some true.

(** No key is recorded as held down. *)
Definition all_keys_released (g : Game) : Prop :=
  forall k, key_states g !! k <> Some true.

(** The game of [game_init] with the left arrow and the space bar held. *)
Definition keys_held : Game :=
  set_key_states (<[GLFW_KEY_LEFT := true]> (<[GLFW_KEY_SPACE := true]> ∅)) game_init.

(** Whether a key is recorded as held down; a key that was never seen is
    not. *)
Definition key_down (g : Game) (key : Z) : bool := default false (key_states g !! key).

(** An axis of the player is steered by a pair of opposite keys: with
    neither key down there is no acceleration, with one key down the
    acceleration points its way, with both down it points either way. *)
Definition steered (down_neg down_pos : bool) (accel a : Q) : Prop :=
  match down_neg, down_pos with
  | false, false => a == 0
  | true, false => a == - accel
  | false, true => a == accel
  | true, true => a == accel \/ a == - accel
  end.

(** The acceleration of the player agrees with the arrow keys that are
    down. *)
Definition steering_consistent (g : Game) : Prop :=
  exists p, objs spaceship g !! 0%nat = Some p /\
    steered (key_down g GLFW_KEY_LEFT) (key_down g GLFW_KEY_RIGHT) 1.8
            (glm.x (acceleration (motion p))) /\
    steered (key_down g GLFW_KEY_DOWN) (key_down g GLFW_KEY_UP) 1.2
            (glm.y (acceleration (motion p))).

(** The key handlers are those of [init_key_handlers] and the assets of a
    projectile are loaded. *)
Definition input_ready (g : Game) : Prop :=
  key_handlers g = init_key_handlers ∅ /\
  is_Some (textures g !! "Projectile01.png") /\
  is_Some (audios g !! "laser-14729.wav").

(** Right down, left down, left up, space down, window unfocused. *)
Definition some_events : list Event :=
  [ KeyEvent GLFW_KEY_RIGHT GLFW_PRESS 0; KeyEvent GLFW_KEY_LEFT GLFW_PRESS 0;
    KeyEvent GLFW_KEY_LEFT GLFW_RELEASE 0; KeyEvent GLFW_KEY_SPACE GLFW_PRESS 0;
    FocusEvent false ].

(** Symbolic execution of a key handler on a game given by its fields. *)
Ltac known_lookups :=
  repeat match goal with
         | E : ?a !! ?k = _ |- context [?a !! ?k] => rewrite E
         | E : (?a =? ?k)%Z = _ |- context [(?a =? ?k)%Z] => rewrite E
         end.

Ltac exec_handler :=
  unfold run_handler, run_handler_inner, handler_body, key_state, with_player, player;
  repeat (cbn; known_lookups).

Ltac steer_goal :=
  first [ assumption
        | unfold steered; cbn;
          repeat match goal with
                 | |- context [default false ?x] => destruct (default false x)
                 end;
          first [lra | left; lra | right; lra] ].

Ltac finish_event insert_lemma :=
  eexists; split; [reflexivity|]; split; [cbn; auto|];
  cbn; eexists; split; [reflexivity|]; cbn;
  rewrite ?insert_lemma;
  cbn [Z.eqb Pos.eqb GLFW_KEY_LEFT GLFW_KEY_RIGHT GLFW_KEY_UP GLFW_KEY_DOWN GLFW_KEY_SPACE
       GLFW_KEY_F3 GLFW_KEY_F6 GLFW_KEY_F7];
  known_lookups; cbn [default];
  split; steer_goal.

(** The player that [game_init] creates. *)
Definition first_ship : GameObject :=
  default GameObject_default (objs spaceship game_init !! 0%nat).

(** The point lies in the box, borders included. *)
Definition inside (b : Aabb) (p : glm.vec2) : Prop :=
  glm.x (min b) <= glm.x p <= glm.x (max b) /\ glm.y (min b) <= glm.y p <= glm.y (max b).

(** The erasing system keeps the object: it is not marked for erasure, or
    the mark waits for the sound and the sound is still playing. *)
Definition kept (g : Game) (obj : GameObject) : Prop :=
  delay_erasing obj = None \/
  exists d s, delay_erasing obj = Some d /\ de_sound d = true /\
              sound obj = Some s /\ is_playing s g = true.

(** The player of [game_init], flying out of the screen to the right. *)
Definition runaway : GameObject :=
  set_motion {| velocity := glm.mk_vec2 300 0; acceleration := glm.splat 0 |} first_ship.

(** Everything of the game but the objects of the scene. *)
Definition outside_scene (g : Game) :=
  (paused g, vsync g, hover g, cursor g, window g, viewport g,
   (audios g, textures g, key_handlers g, key_states g, timed_actions g),
   (screen_aabb g, render_opts g, gl_names g, al_names g, al_playing g)).

(** One object and its state after the per-object systems ran on it. *)
Definition updated_to (lm : Libm) (screen : Aabb) (dt time : Q) (obj obj' : GameObject)
  : Prop :=
  update_object lm screen dt time obj = Done obj'.

(** No object of [hitters] overlaps a spaceship of [ships]. *)
Definition clear_of (lm : Libm) (hitters ships : list GameObject) : Prop :=
  Forall (fun a => Forall (fun s => overlapb lm a s = false) ships) hitters.



(** The model matrix handed to the draw call. *)
Definition model_of (c : DrawCall) : glm.mat4 :=
  match c with
  | draw_textured_object _ _ m _ => m
  | draw_text_object _ _ m => m
  | draw_colored_object _ m => m
  end.

(** [w] lies between [a] and [b], whichever is the smaller. *)
Definition between (a b w : Q) : Prop := (a <= w /\ w <= b) \/ (b <= w /\ w <= a).

(** The player of [game_init] after a step to the right. *)
Definition stepped : GameObject :=
  set_position (glm.mk_vec2 0.25 (-0.7)) first_ship.

(** [outer] contains [inner]. *)
Definition contains (outer inner : Aabb) : Prop :=
  glm.x (min outer) <= glm.x (min inner) /\ glm.x (max inner) <= glm.x (max outer) /\
  glm.y (min outer) <= glm.y (min inner) /\ glm.y (max inner) <= glm.y (max outer).

(** The world-space box of an object misses the screen. *)
Definition off_screen (lm : Libm) (screen : Aabb) (obj : GameObject) : Prop :=
  exists b, aabb obj = Some b /\
            collision (Aabb_transform b (Transform_matrix lm (transform obj))) screen = false.

(** The projectile of the end-to-end scenario, far above the screen. *)
Definition stray : GameObject := set_position (glm.mk_vec2 0 5) the_projectile.

(** * Further code *)

(** ** The framebuffer callback (main.cpp) *)

Definition kAspectRatioInverse : Q := inject_Z kHeight / inject_Z kWidth.

Definition UINT_MODULUS : Z := (2 ^ 32)%Z.

(** A [float] converted to [unsigned]: the value is truncated towards
    zero; the conversion is undefined when the truncated value is not
    representable. *)
Definition float_to_unsigned (q : Q) : outcome Z :=
  let t := if Qle_bool 0 q then Qfloor q else Qceiling q in
  if (t <? 0)%Z || (UINT_MODULUS <=? t)%Z then Undef else Done t.

Definition set_window_viewport (w : Window) (v : Viewport) (g : Game) : Game :=
  {| paused := paused g; vsync := vsync g; hover := hover g; cursor := cursor g;
     window := w; viewport := v; scene := scene g; audios := audios g;
     textures := textures g;
     key_handlers := key_handlers g; key_states := key_states g;
     timed_actions := timed_actions g; screen_aabb := screen_aabb g;
     render_opts := render_opts g; gl_names := gl_names g; al_names := al_names g;
     al_playing := al_playing g |}.

(** [framebuffer_size_callback]: the viewport is the largest area of the
    window with the aspect ratio of the game, centred.  With a height of
    zero the quotient [width / height] is an infinity or a NaN, which is
    less than the aspect ratio only when it is the negative infinity.  The
    call of [glViewport], with the same four values, is a driver call and
    is left out. *)
Definition framebuffer_size_callback (width height : Z) (g : Game) : outcome Game :=
  let w := inject_Z width in
  let h := inject_Z height in
  let narrow :=
    if (height =? 0)%Z then (width <? 0)%Z else Qltb (w / h) kAspectRatio in
  let y_rest := if narrow then h - w * kAspectRatioInverse else 0 in
  let x_rest := if narrow then 0 else w - h * kAspectRatio in
  let x_off := x_rest / 2 in
  let y_off := y_rest / 2 in
  size_x ← float_to_unsigned (w - x_rest);
  size_y ← float_to_unsigned (h - y_rest);
  offset_x ← float_to_unsigned x_off;
  offset_y ← float_to_unsigned y_off;
  mret (set_window_viewport
          {| w_size := {| ux := width mod UINT_MODULUS; uy := height mod UINT_MODULUS |} |}
          {| offset := {| ux := offset_x; uy := offset_y |};
             v_size := {| ux := size_x; uy := size_y |} |} g).

(** ** GL names and their owners (unique_num.hpp, gl_object.hpp, gl_font.cpp) *)

(** The buffer names and the vertex array names that the GL driver has
    handed out and not deleted yet.  The two kinds of name are numbered
    apart; a name is never 0 and never handed out twice. *)
Record GLDriver := {
  next_buffer : nat;
  live_buffers : gset nat;
  next_array : nat;
  live_arrays : gset nat;
}.

(** [glGenBuffers(1, &n)] *)
Definition glGenBuffers (d : GLDriver) : nat * GLDriver :=
  (S (next_buffer d),
   {| next_buffer := S (next_buffer d);
      live_buffers := {[ S (next_buffer d) ]} ∪ live_buffers d;
      next_array := next_array d; live_arrays := live_arrays d |}).

(** [glGenVertexArrays(1, &n)] *)
Definition glGenVertexArrays (d : GLDriver) : nat * GLDriver :=
  (S (next_array d),
   {| next_buffer := next_buffer d; live_buffers := live_buffers d;
      next_array := S (next_array d);
      live_arrays := {[ S (next_array d) ]} ∪ live_arrays d |}).

(** [glDeleteBuffers(1, &n)] *)
Definition glDeleteBuffers (n : nat) (d : GLDriver) : GLDriver :=
  {| next_buffer := next_buffer d; live_buffers := live_buffers d ∖ {[ n ]};
     next_array := next_array d; live_arrays := live_arrays d |}.

(** [glDeleteVertexArrays(1, &n)] *)
Definition glDeleteVertexArrays (n : nat) (d : GLDriver) : GLDriver :=
  {| next_buffer := next_buffer d; live_buffers := live_buffers d;
     next_array := next_array d; live_arrays := live_arrays d ∖ {[ n ]} |}.

(** [create_textured_globject], on the driver: two new buffers and a new
    vertex array. *)
Definition upload_textured_globject (num_vertices num_indices : nat) (d : GLDriver)
  : GLObject * GLDriver :=
  let '(vbo, d1) := glGenBuffers d in
  let '(ebo, d2) := glGenBuffers d1 in
  let '(vao, d3) := glGenVertexArrays d2 in
  ({| vbo := vbo; ebo := ebo; vao := vao;
      num_indices := num_indices; num_vertices := num_vertices |}, d3).

(** [GLObject& operator=(GLObject&&) = default], member by member with
    [UniqueNum::operator=]: [inner = o.inner; o.inner = 0;].  The result
    is the target and what is left of the source; the names the target
    held are overwritten. *)
Definition GLObject_move_assign (target source : GLObject) : GLObject * GLObject :=
  ({| vbo := vbo source; ebo := ebo source; vao := vao source;
      num_indices := num_indices source; num_vertices := num_vertices source |},
   {| vbo := 0; ebo := 0; vao := 0;
      num_indices := num_indices source; num_vertices := num_vertices source |}).

(** [~GLObject]: deletes the names that are not 0. *)
Definition GLObject_destroy (o : GLObject) (d : GLDriver) : GLDriver :=
  let d1 := if (vbo o =? 0)%nat then d else glDeleteBuffers (vbo o) d in
  let d2 := if (ebo o =? 0)%nat then d1 else glDeleteBuffers (ebo o) d1 in
  if (vao o =? 0)%nat then d2 else glDeleteVertexArrays (vao o) d2.

(** [update_text_globject], given the numbers of vertices and indices
    that [gen_text_quads] makes for the new text: the data is rewritten
    in place when the sizes agree; otherwise a new object is created,
    move-assigned to [glo], and the temporary is destroyed. *)
Definition update_text_globject (num_vertices' num_indices' : nat) (glo : GLObject)
    (d : GLDriver) : GLObject * GLDriver :=
  if (num_vertices' =? num_vertices glo)%nat && (num_indices' =? num_indices glo)%nat then
    (glo, d)
  else
    let '(temporary, d1) := upload_textured_globject num_vertices' num_indices' d in
    let '(glo', moved_from) := GLObject_move_assign glo temporary in
    (glo', GLObject_destroy moved_from d1).

(** The live names are names that the driver has handed out: none is 0
    and none is still to come. *)
Definition driver_ok (d : GLDriver) : Prop :=
  (forall n, n ∈ live_buffers d -> (0 < n <= next_buffer d)%nat) /\
  (forall n, n ∈ live_arrays d -> (0 < n <= next_array d)%nat).

(** The names of the object are live. *)
Definition owns (o : GLObject) (d : GLDriver) : Prop :=
  vbo o ∈ live_buffers d /\ ebo o ∈ live_buffers d /\ vao o ∈ live_arrays d.

(** The two objects have no name in common. *)
Definition apart (o o' : GLObject) : Prop :=
  vbo o <> vbo o' /\ vbo o <> ebo o' /\ ebo o <> vbo o' /\ ebo o <> ebo o' /\
  vao o <> vao o'.

(** A text object of seven characters, freshly uploaded. *)
Definition seven_chars : GLObject * GLDriver :=
  upload_textured_globject 28 42
    {| next_buffer := 0; live_buffers := ∅; next_array := 0; live_arrays := ∅ |}.

(** ** The frame rate readout (main.cpp) *)

(** The function-local statics of [update_fps].  [counter], [fps_dt]
    and [last_fps] are initialised with constants; [fps_avg] and [fps] are
    initialised when the first call reaches their declarations, which is
    the [None] here. *)
Record FpsStatics := {
  fps_counter : N;
  fps_avg : option Q;
  fps_dt : Q;
  fps : option Q;
  last_fps : Q;
}.

Definition fps_start : FpsStatics :=
  {| fps_counter := 1; fps_avg := None; fps_dt := 0; fps := None; last_fps := 0 |}.

Definition kPeriod : Q := 0.3.

(** [update_fps]: the statics after the call and, when the text of the
    readout is rewritten, the frame rate it shows. *)
Definition update_fps (dt : Q) (st : FpsStatics) : FpsStatics * option Q :=
  let counter := ((fps_counter st + 1) mod SIZE_MODULUS)%N in
  let fps_now := 1 / dt in
  let avg := default fps_now (fps_avg st) + fps_now in
  let lag := fps_dt st + dt in
  let shown := default avg (fps st) in
  let '(lag', shown', avg', counter') :=
    if Qgtb lag kPeriod
    then (lag - kPeriod, avg / inject_Z (Z.of_N counter), fps_now, 1%N)
    else (lag, shown, avg, counter) in
  if negb (Qeq_bool shown' (last_fps st)) then
    ({| fps_counter := counter'; fps_avg := Some avg'; fps_dt := lag';
        fps := Some shown'; last_fps := shown' |}, Some shown')
  else
    ({| fps_counter := counter'; fps_avg := Some avg'; fps_dt := lag';
        fps := Some shown'; last_fps := last_fps st |}, None).

(** The statics after one call per frame time. *)
Definition fps_after (dts : list Q) : FpsStatics :=
  foldl (fun st dt => fst (update_fps dt st)) fps_start dts.

(** The frame times are positive and the frame rates [1 / dt] lie
    between [lo] and [hi]. *)
Definition frame_rates_within (lo hi : Q) (dts : list Q) : Prop :=
  Forall (fun dt => 0 < dt /\ lo <= 1 / dt /\ 1 / dt <= hi) dts.

(** What [update_fps] keeps between calls: after [n] calls that took
    [total] seconds, [fps_avg] is a sum of [fps_counter] frame rates, and
    [fps] is twice the first frame rate [f1] until the first period has
    passed, a mean of frame rates afterwards. *)
Definition fps_window (lo hi f1 total : Q) (n : nat) (st : FpsStatics) : Prop :=
  exists avg f,
    fps_avg st = Some avg /\ fps st = Some f /\
    (1 <= fps_counter st <= N.of_nat n + 1)%N /\
    inject_Z (Z.of_N (fps_counter st)) * lo <= avg /\
    avg <= inject_Z (Z.of_N (fps_counter st)) * hi /\
    ((fps_dt st == total /\ total <= kPeriod /\ f == 2 * f1) \/
     (kPeriod < total /\ lo <= f /\ f <= hi)).

(** The sum of the frame times. *)
Definition elapsed (dts : list Q) : Q := foldr Qplus 0 dts.

(** Forty frames of 10 ms. *)
Definition forty_frames : list Q := replicate 40 0.01.

(** ** The command line (main.cpp) *)

(** What the argument loop of [main] ends in: the log level to set, or
    the exit code -2 for a [--log] without its argument, or the exit code
    -1 for an argument that is not known. *)
Inductive ParsedArguments (Level : Type) :=
| LogLevel (level : Level)
| MissingArgument
| UnknownArgument (arg : string).
Arguments LogLevel {Level} _.
Arguments MissingArgument {Level}.
Arguments UnknownArgument {Level} _.

(** The loop "Parse Arguments" of [main], over [argv[1 ..]];
    [from_str] is [spdlog::level::from_str]. *)
Fixpoint parse_arguments {Level} (from_str : string -> Level) (args : list string)
    (log_level : Level) : ParsedArguments Level :=
  match args with
  | [] => LogLevel log_level
  | arg :: rest =>
      if String.eqb arg "--log" then
        match rest with
        | [] => MissingArgument
        | name :: rest' => parse_arguments from_str rest' (from_str name)
        end
      else UnknownArgument arg
  end.

(** [main]'s exit code when the argument loop ends it. *)
Definition exit_code {Level} (r : ParsedArguments Level) : option Z :=
  match r with
  | LogLevel _ => None
  | MissingArgument => Some (-2)%Z
  | UnknownArgument _ => Some (-1)%Z
  end.

(** The arguments [--log name], once for each name. *)
Definition log_options (names : list string) : list string :=
  concat ((fun name => ["--log"; name]) <$> names).

(** The viewport fills the window on one axis and has the aspect ratio
    16:9, up to the one pixel lost in truncation. *)
Definition letterboxed (width height : Z) (v : Viewport) : Prop :=
  let sx := ux (v_size v) in
  let sy := uy (v_size v) in
  ((sx = width /\ 16 * sy <= 9 * width < 16 * (sy + 1)) \/
   (sy = height /\ 9 * sx <= 16 * height < 9 * (sx + 1)))%Z.

(** The viewport lies inside the window and is centred, up to the pixel
    lost in truncation. *)
Definition centred (width height : Z) (v : Viewport) : Prop :=
  let margin lo size total := (0 <= lo /\ total - 2 <= 2 * lo + size <= total)%Z in
  margin (ux (offset v)) (ux (v_size v)) width /\
  margin (uy (offset v)) (uy (v_size v)) height.

(** An inequation on integers, settled on the rationals. *)
Ltac z_by_q :=
  first [rewrite Zle_Qle | rewrite Zlt_Qlt];
  unfold Z.sub;
  repeat (rewrite inject_Z_mult || rewrite inject_Z_plus || rewrite inject_Z_opp);
  change (inject_Z 16) with 16; change (inject_Z 9) with 9; change (inject_Z 3) with 3;
  change (inject_Z 2) with 2; change (inject_Z 1) with 1; change (inject_Z 0) with 0;
  lra.

(** * What a whole tick needs *)

(** The explosion assets are loaded and [game_pause] can run. *)
Definition blast_ready (g : Game) : Prop :=
  pause_ready g /\
  is_Some (textures g !! "Explosion.png") /\
  is_Some (audios g !! "explosionCrunch_000.wav").

(** Every projectile and every spaceship carries a bounding box. *)
Definition boxed (g : Game) : Prop :=
  Forall has_aabb (objs projectile g) /\ Forall has_aabb (objs spaceship g).

(** Every spaceship but the player carries a health counter, which can
    be decremented [b] times before it overflows. *)
Definition healthy (b : Z) (g : Game) : Prop :=
  forall k ship, (1 <= k)%nat -> objs spaceship g !! k = Some ship ->
                 exists h, health ship = Some h /\ (INT_MIN + b <= value h)%Z.

(** The automatic fire can run: there is a player and the projectile
    assets are loaded. *)
Definition fire_ready (g : Game) : Prop :=
  objs spaceship g <> [] /\
  is_Some (textures g !! "Projectile01.png") /\
  is_Some (audios g !! "laser-14729.wav").

(** What the timed actions leave alone: every layer but the projectiles,
    the assets and the key handlers. *)
Definition timer_frame (g : Game) :=
  (objs background g, objs spaceship g, objs explosion g, objs gui g, objs text g,
   (textures g, audios g, key_handlers g)).

(** An object that the per-object systems and the collision passes can
    handle. *)
Definition fresh (obj : GameObject) : Prop := has_aabb obj /\ updatable obj.

(** A spaceship with a health counter that can be decremented [b] times. *)
Definition sturdy (b : Z) (ship : GameObject) : Prop :=
  exists h, health ship = Some h /\ (INT_MIN + b <= value h)%Z.

(** The most rounds the projectile pass can make in the coming tick: one
    per spaceship and projectile, counting the two projectiles that each
    timed action may add. *)
Definition hit_budget (g : Game) : Z :=
  Z.of_nat (length (objs spaceship g)
            * (length (objs projectile g) + 2 * size (timed_actions g))).

(** What a tick relies on without checking: the registered key handlers,
    the assets of projectiles and explosions, a player that is not marked
    for erasure, sprite animations that point at one of their frames, a
    bounding box on every object that is destroyed off screen, on every
    projectile and on every spaceship, and on every spaceship but the
    player a health counter far enough from [INT_MIN]. *)
Definition tick_ready (g : Game) : Prop :=
  key_handlers g = init_key_handlers ∅ /\
  (is_Some (textures g !! "Projectile01.png") /\ is_Some (audios g !! "laser-14729.wav")) /\
  (is_Some (textures g !! "Explosion.png") /\
   is_Some (audios g !! "explosionCrunch_000.wav")) /\
  (forall l, Forall updatable (objs l g)) /\
  boxed g /\
  exists pl enemies,
    objs spaceship g = pl :: enemies /\ delay_erasing pl = None /\
    Forall (sturdy (hit_budget g)) enemies.

(** Evaluate the list of a [Forall] goal. *)
Ltac eval_list :=
  match goal with
  | |- Forall _ ?L =>
      let L' := eval vm_compute in L in
      let E := fresh in
      assert (E : L = L') by (vm_compute; reflexivity); rewrite E; clear E
  end.

(** * Properties *)

(** ** Comparisons on scalars *)

Lemma Qltb_lt (a b : Q) : Qltb a b = true <-> a < b.
Proof.
  unfold Qltb. rewrite negb_true_iff.
  split.
  - intros H. apply Qnot_le_lt. intros Hle.
    apply Qle_bool_iff in Hle. congruence.
  - intros H. destruct (Qle_bool b a) eqn:E; [|reflexivity].
    apply Qle_bool_iff in E. lra.
Qed.

Lemma Qgtb_gt (a b : Q) : Qgtb a b = true <-> b < a.
Proof. unfold Qgtb. apply Qltb_lt. Qed.

Lemma Qgeb_ge (a b : Q) : Qgeb a b = true <-> b <= a.
Proof. unfold Qgeb. apply Qle_bool_iff. Qed.

Lemma Qgeb_lt (a b : Q) : Qgeb a b = false <-> a < b.
Proof.
  unfold Qgeb. split.
  - intros H. apply Qnot_le_lt. intros Hle. apply Qle_bool_iff in Hle. congruence.
  - intros H. destruct (Qle_bool b a) eqn:E; [|reflexivity].
    apply Qle_bool_iff in E. lra.
Qed.

(** ** AABB overlap *)

Lemma collision_iff (a b : Aabb) : collision a b = true <-> strictly_intersecting a b.
Proof.
  unfold collision, strictly_intersecting.
  rewrite !andb_true_iff, !Qltb_lt, !Qgtb_gt. tauto.
Qed.

(** C6: [collision a b] holds exactly when the projections of the boxes
    intersect strictly on both axes -- all four comparisons strict -- and two
    boxes that share an edge, such as [a.max.x == b.min.x], do not collide. *)
Theorem collision_strict (a b : Aabb) :
  (collision a b = true <-> strictly_intersecting a b) /\
  (touching a b -> collision a b = false).
Proof.
  split; [apply collision_iff|].
  intros Ht. destruct (collision a b) eqn:E; [|reflexivity].
  apply collision_iff in E. unfold strictly_intersecting in E.
  unfold touching in Ht. exfalso. lra.
Qed.

Lemma collision_strict_witness :
  touching (unit_box_at 0 0) (unit_box_at 1 0) /\
  collision (unit_box_at 0 0) (unit_box_at 1 0) = false.
Proof.
  assert (Ht : touching (unit_box_at 0 0) (unit_box_at 1 0)) by (left; reflexivity).
  split; [exact Ht|].
  exact (proj2 (collision_strict (unit_box_at 0 0) (unit_box_at 1 0)) Ht).
Defined.

Lemma collision_sym (a b : Aabb) : collision a b = collision b a.
Proof.
  apply eq_true_iff_eq. rewrite !collision_iff.
  unfold strictly_intersecting. tauto.
Qed.

(** ** Timed actions *)

Lemma TimedAction_update_fires {G A} (invoke : A -> G -> Q -> Q -> G)
    (ta : TimedAction A) (g : G) (dt time : Q) :
  ta_duration ta <= tick_dt ta + dt ->
  TimedAction_update invoke ta g dt time =
    ({| tick_dt := tick_dt ta + dt - ta_duration ta; ta_duration := ta_duration ta;
        action := action ta |}, invoke (action ta) g dt time).
Proof.
  intros H. unfold TimedAction_update.
  apply Qgeb_ge in H. rewrite H. reflexivity.
Qed.

Lemma TimedAction_update_idle {G A} (invoke : A -> G -> Q -> Q -> G)
    (ta : TimedAction A) (g : G) (dt time : Q) :
  tick_dt ta + dt < ta_duration ta ->
  TimedAction_update invoke ta g dt time =
    ({| tick_dt := tick_dt ta + dt; ta_duration := ta_duration ta; action := action ta |}, g).
Proof.
  intros H. unfold TimedAction_update.
  apply Qgeb_lt in H. rewrite H. reflexivity.
Qed.

(** C3, amended: for a timed action with duration [D >= 0] and a zeroed
    accumulator, one update by [D] invokes the action exactly once and leaves
    the remainder 0; one update by [2D] also invokes it exactly once -- an
    update fires at most once -- and leaves the remainder [D], so that the
    firing for the second multiple of [D] happens at the next update, even
    one of zero time, which leaves the remainder 0. *)
Theorem timed_action_fires_once_per_update {G A} (invoke : A -> G -> Q -> Q -> G)
    (ta : TimedAction A) (g : G) (time : Q) :
  tick_dt ta == 0 -> 0 <= ta_duration ta ->
  let D := ta_duration ta in
  (snd (TimedAction_update invoke ta g D time) = invoke (action ta) g D time /\
   fire_count ta D = 1%nat /\ tick_dt (after_update ta D) == 0) /\
  (snd (TimedAction_update invoke ta g (2 * D) time) = invoke (action ta) g (2 * D) time /\
   fire_count ta (2 * D) = 1%nat /\ tick_dt (after_update ta (2 * D)) == D /\
   fire_count (after_update ta (2 * D)) 0 = 1%nat /\
   tick_dt (after_update (after_update ta (2 * D)) 0) == 0).
Proof.
  intros H0 HD D. subst D.
  assert (E1 : ta_duration ta <= tick_dt ta + ta_duration ta) by lra.
  assert (E2 : ta_duration ta <= tick_dt ta + 2 * ta_duration ta) by lra.
  unfold fire_count, after_update.
  rewrite !(TimedAction_update_fires _ ta _ (ta_duration ta)) by exact E1.
  rewrite !(TimedAction_update_fires _ ta _ (2 * ta_duration ta)) by exact E2.
  cbn [fst snd].
  set (ta2 := {| tick_dt := tick_dt ta + 2 * ta_duration ta - ta_duration ta;
                 ta_duration := ta_duration ta; action := action ta |}).
  assert (E3 : ta_duration ta2 <= tick_dt ta2 + 0) by (subst ta2; cbn; lra).
  rewrite !(TimedAction_update_fires _ ta2 _ 0) by exact E3.
  subst ta2. cbn.
  repeat split; try reflexivity; lra.
Qed.

Lemma timed_action_fires_once_per_update_witness :
  tick_dt every_second == 0 /\ 0 <= ta_duration every_second /\
  fire_count every_second 1 = 1%nat /\ fire_count every_second (2 * 1) = 1%nat /\
  fire_count (after_update every_second (2 * 1)) 0 = 1%nat.
Proof.
  assert (H0 : tick_dt every_second == 0) by reflexivity.
  assert (HD : 0 <= ta_duration every_second) by (cbn; lra).
  pose proof (timed_action_fires_once_per_update
                (fun _ (n : nat) _ _ => S n) every_second 0%nat 0 H0 HD) as H.
  cbn zeta in H.
  destruct H as [[_ [Ha _]] [_ [Hb [_ [Hc _]]]]].
  exact (conj H0 (conj HD (conj Ha (conj Hb Hc)))).
Defined.

(** C3 as stated fails: a single update by [2D] does not fire twice.  With
    [D = 1] the action is invoked once, and the accumulator is left at 1. *)
Lemma timed_action_two_durations_counterexample :
  fire_count every_second 2 = 1%nat /\
  fire_count every_second 2 <> 2%nat /\
  tick_dt (after_update every_second 2) == 1.
Proof. vm_compute. repeat split; congruence. Qed.

(** ** Sprite animation *)

Lemma update_frame_stay (sa : SpriteAnimation) (dt : Q) (f : SpriteFrame) :
  frames sa !! curr_frame_idx sa = Some f ->
  last_transit_dt sa + dt < sf_duration f ->
  update_frame sa dt =
    Done {| last_transit_dt := last_transit_dt sa + dt;
            curr_frame_idx := curr_frame_idx sa; frames := frames sa;
            curr_cycle_count := curr_cycle_count sa; max_cycles := max_cycles sa |}.
Proof.
  intros Hf Hlt. unfold update_frame. rewrite Hf.
  unfold deref, mbind, outcome_bind.
  apply Qgeb_lt in Hlt. rewrite Hlt. reflexivity.
Qed.

Lemma update_frame_go (sa : SpriteAnimation) (dt : Q) (f : SpriteFrame) :
  frames sa !! curr_frame_idx sa = Some f ->
  sf_duration f <= last_transit_dt sa + dt ->
  update_frame sa dt =
    Done {| last_transit_dt := last_transit_dt sa + dt - sf_duration f;
            curr_frame_idx := next_frame_idx sa; frames := frames sa;
            curr_cycle_count := next_cycle_count sa; max_cycles := max_cycles sa |}.
Proof.
  intros Hf Hge. unfold update_frame, next_frame_idx, next_cycle_count. rewrite Hf.
  unfold deref, mbind, outcome_bind.
  apply Qgeb_ge in Hge. rewrite Hge.
  destruct (S (curr_frame_idx sa) =? length (frames sa))%nat; reflexivity.
Qed.

(** Steps that together stay inside the current frame: no transition. *)
Lemma update_frames_stay (dts : list Q) : forall (sa : SpriteAnimation) (f : SpriteFrame),
  frames sa !! curr_frame_idx sa = Some f ->
  Forall (fun dt => 0 <= dt) dts ->
  last_transit_dt sa + total_time dts < sf_duration f ->
  exists sa', update_frames sa dts = Done sa' /\
    last_transit_dt sa' == last_transit_dt sa + total_time dts /\
    curr_frame_idx sa' = curr_frame_idx sa /\ frames sa' = frames sa /\
    curr_cycle_count sa' = curr_cycle_count sa /\ max_cycles sa' = max_cycles sa.
Proof.
  induction dts as [|dt rest IH]; intros sa f Hf Hpos Hlt.
  - exists sa. cbn. repeat split; try reflexivity. lra.
  - inversion Hpos as [|? ? Hdt Hrest]; subst.
    cbn [total_time foldr] in Hlt. fold (total_time rest) in Hlt.
    assert (Hrest0 : 0 <= total_time rest).
    { clear -Hrest. induction Hrest; cbn; [lra|]. fold (total_time l). lra. }
    cbn [update_frames].
    rewrite (update_frame_stay sa dt f Hf) by lra. cbn.
    edestruct (IH {| last_transit_dt := last_transit_dt sa + dt;
                     curr_frame_idx := curr_frame_idx sa; frames := frames sa;
                     curr_cycle_count := curr_cycle_count sa;
                     max_cycles := max_cycles sa |} f)
      as (sa' & Hrun & Hl & Hi & Hfr & Hc & Hm); [exact Hf|exact Hrest|cbn; lra|].
    exists sa'. cbn in Hl, Hi, Hfr, Hc, Hm.
    cbn [total_time foldr]. fold (total_time rest).
    repeat split; try assumption. rewrite Hl. lra.
Qed.

Lemma total_time_nonneg (dts : list Q) :
  Forall (fun dt => 0 <= dt) dts -> 0 <= total_time dts.
Proof.
  induction 1 as [|dt rest Hdt _ IH]; cbn; [lra|]. fold (total_time rest). lra.
Qed.

(** Steps that together cross exactly one frame boundary: one transition. *)
Lemma update_frames_go (dts : list Q) : forall (sa : SpriteAnimation) (f f' : SpriteFrame),
  frames sa !! curr_frame_idx sa = Some f ->
  frames sa !! next_frame_idx sa = Some f' ->
  dts <> [] ->
  Forall (fun dt => 0 <= dt) dts ->
  sf_duration f <= last_transit_dt sa + total_time dts ->
  last_transit_dt sa + total_time dts < sf_duration f + sf_duration f' ->
  exists sa', update_frames sa dts = Done sa' /\
    last_transit_dt sa' == last_transit_dt sa + total_time dts - sf_duration f /\
    curr_frame_idx sa' = next_frame_idx sa /\ frames sa' = frames sa /\
    curr_cycle_count sa' = next_cycle_count sa /\ max_cycles sa' = max_cycles sa.
Proof.
  induction dts as [|dt rest IH]; intros sa f f' Hf Hf' Hne Hpos Hge Hlt; [congruence|].
  inversion Hpos as [|? ? Hdt Hrest]; subst.
  cbn [total_time foldr] in Hge, Hlt. fold (total_time rest) in Hge, Hlt.
  pose proof (total_time_nonneg rest Hrest) as Hrest0.
  cbn [update_frames].
  destruct (Qlt_le_dec (last_transit_dt sa + dt) (sf_duration f)) as [Hstay|Hgo].
  - rewrite (update_frame_stay sa dt f Hf Hstay). cbn.
    assert (Hne' : rest <> []).
    { intros ->. cbv [total_time foldr] in Hge. lra. }
    edestruct (IH {| last_transit_dt := last_transit_dt sa + dt;
                     curr_frame_idx := curr_frame_idx sa; frames := frames sa;
                     curr_cycle_count := curr_cycle_count sa;
                     max_cycles := max_cycles sa |} f f')
      as (sa' & Hrun & Hl & Hi & Hfr & Hc & Hm);
      [exact Hf|exact Hf'|exact Hne'|exact Hrest|cbn; lra|cbn; lra|].
    exists sa'. cbn in Hl.
    cbn [total_time foldr]. fold (total_time rest).
    repeat split; try assumption. rewrite Hl. lra.
  - rewrite (update_frame_go sa dt f Hf Hgo). cbn.
    edestruct (update_frames_stay rest
                 {| last_transit_dt := last_transit_dt sa + dt - sf_duration f;
                    curr_frame_idx := next_frame_idx sa; frames := frames sa;
                    curr_cycle_count := next_cycle_count sa;
                    max_cycles := max_cycles sa |} f')
      as (sa' & Hrun & Hl & Hi & Hfr & Hc & Hm); [exact Hf'|exact Hrest|cbn; lra|].
    exists sa'. cbn in Hl, Hi, Hfr, Hc, Hm.
    cbn [total_time foldr]. fold (total_time rest).
    repeat split; try assumption. rewrite Hl. lra.
Qed.

(** C2, amended: [update_frame] advances at most one frame per call.  For a
    sprite animation whose current index is in range and a non-empty
    sequence of non-negative steps of total [T] that crosses at most one
    frame boundary -- the time since the last transition plus [T] stays below
    the duration of the current frame plus that of the next -- the calls
    [update_frame(dt)], one per step, and the single call [update_frame(T)]
    end in the same frame index and completed-cycle count, with the same
    remainder carried forward. *)
Theorem update_frame_split_agrees (sa : SpriteAnimation) (dts : list Q)
    (f f' : SpriteFrame) :
  frames sa !! curr_frame_idx sa = Some f ->
  frames sa !! next_frame_idx sa = Some f' ->
  dts <> [] ->
  Forall (fun dt => 0 <= dt) dts ->
  last_transit_dt sa + total_time dts < sf_duration f + sf_duration f' ->
  exists many once,
    update_frames sa dts = Done many /\
    update_frame sa (total_time dts) = Done once /\
    curr_frame_idx many = curr_frame_idx once /\
    curr_cycle_count many = curr_cycle_count once /\
    last_transit_dt many == last_transit_dt once.
Proof.
  intros Hf Hf' Hne Hpos Hlt.
  destruct (Qlt_le_dec (last_transit_dt sa + total_time dts) (sf_duration f)) as [Hstay|Hgo].
  - destruct (update_frames_stay dts sa f Hf Hpos Hstay)
      as (many & Hrun & Hl & Hi & _ & Hc & _).
    eexists many, _. split; [exact Hrun|].
    split; [exact (update_frame_stay sa _ f Hf Hstay)|]. cbn. auto.
  - destruct (update_frames_go dts sa f f' Hf Hf' Hne Hpos Hgo Hlt)
      as (many & Hrun & Hl & Hi & _ & Hc & _).
    eexists many, _. split; [exact Hrun|].
    split; [exact (update_frame_go sa _ f Hf Hgo)|]. cbn. auto.
Qed.

Lemma update_frame_split_agrees_witness :
  exists many once,
    update_frames three_seconds [0.5; 0.5; 0.5] = Done many /\
    update_frame three_seconds (total_time [0.5; 0.5; 0.5]) = Done once /\
    curr_frame_idx many = curr_frame_idx once /\
    curr_cycle_count many = curr_cycle_count once /\
    last_transit_dt many == last_transit_dt once.
Proof.
  apply (update_frame_split_agrees three_seconds [0.5; 0.5; 0.5]
           {| sf_duration := 1; ebo_offset := 0;  ebo_count := 6 |}
           {| sf_duration := 1; ebo_offset := 12; ebo_count := 6 |}).
  - reflexivity.
  - reflexivity.
  - discriminate.
  - repeat constructor; vm_compute; discriminate.
  - vm_compute. reflexivity.
Defined.

(** C2 as stated fails: three seconds of a three-frame, one-second-per-frame
    animation applied as three steps of one second run a whole cycle (index
    0, one cycle completed); applied as one step they advance one frame
    (index 1, no cycle completed). *)
Lemma update_frame_split_counterexample :
  total_time [1; 1; 1] == 3 /\
  (curr_frame_idx <$> update_frames three_seconds [1; 1; 1]) = Done 0%nat /\
  (curr_cycle_count <$> update_frames three_seconds [1; 1; 1]) = Done 1%N /\
  (curr_frame_idx <$> update_frame three_seconds (total_time [1; 1; 1])) = Done 1%nat /\
  (curr_cycle_count <$> update_frame three_seconds (total_time [1; 1; 1])) = Done 0%N.
Proof. repeat split; vm_compute; reflexivity. Qed.

(** ** Resource caches *)

Section CacheProperties.
Context {R Args Ext : Type}.
Variable loader : string -> Args -> Ext -> option R * Ext.

Local Abbreviation state := (Cache.state R Ext).

Lemma get_or_load_hit (key : string) (args : Args) (s : state) (h : Cache.handle) :
  Cache.map s !! key = Some h ->
  Cache.get_or_load loader key args s = (Some h, s).
Proof. intros H. unfold Cache.get_or_load. rewrite H. reflexivity. Qed.

Lemma get_or_load_miss_loaded (key : string) (args : Args) (s : state) (r : R) (e : Ext) :
  Cache.map s !! key = None ->
  loader key args (Cache.ext s) = (Some r, e) ->
  Cache.get_or_load loader key args s =
    (Some (length (Cache.heap s)),
     {| Cache.map := <[key := length (Cache.heap s)]> (Cache.map s);
        Cache.heap := Cache.heap s ++ [r];
        Cache.ext := e;
        Cache.loads := Cache.loads s ++ [key] |}).
Proof.
  intros Hm Hl. unfold Cache.get_or_load, Cache.call_loader, Cache.make_shared.
  rewrite Hm, Hl. reflexivity.
Qed.

Lemma get_or_load_miss_failed (key : string) (args : Args) (s : state) (e : Ext) :
  Cache.map s !! key = None ->
  loader key args (Cache.ext s) = (None, e) ->
  Cache.get_or_load loader key args s =
    (None,
     {| Cache.map := Cache.map s; Cache.heap := Cache.heap s; Cache.ext := e;
        Cache.loads := Cache.loads s ++ [key] |}).
Proof.
  intros Hm Hl. unfold Cache.get_or_load, Cache.call_loader.
  rewrite Hm, Hl. reflexivity.
Qed.

(** C5: two [get_or_load] calls with one key, the first of them a miss.
    When the loader succeeds, both calls return the same handle, the handle
    refers to the resource the loader produced, and the loader has been
    invoked exactly once across the two calls: the second call is a cache
    hit.  When the loader fails, the call returns "not found" and the cache
    holds no entry for the key (so the next call invokes the loader again);
    the same holds for the second generation's [load]. *)
Theorem get_or_load_twice (key : string) (args1 args2 : Args) (s : state) :
  Cache.map s !! key = None ->
  (forall r e, loader key args1 (Cache.ext s) = (Some r, e) ->
     exists h s1 s2,
       Cache.get_or_load loader key args1 s = (Some h, s1) /\
       Cache.get_or_load loader key args2 s1 = (Some h, s2) /\
       Cache.resource s2 h = Some r /\
       Cache.loader_calls s s2 = 1%nat /\
       Cache.loads s2 = Cache.loads s ++ [key]) /\
  (forall e, loader key args1 (Cache.ext s) = (None, e) ->
     exists s1,
       Cache.get_or_load loader key args1 s = (None, s1) /\
       Cache.map s1 = Cache.map s /\ Cache.map s1 !! key = None /\
       Cache.loader_calls s s1 = 1%nat /\
       Cache.loader_calls s1 (snd (Cache.get_or_load loader key args2 s1)) = 1%nat) /\
  (forall e, loader key args1 (Cache.ext s) = (None, e) ->
     exists s1,
       Cache.load loader key args1 s = (None, s1) /\ Cache.map s1 = Cache.map s).
Proof.
  intros Hmiss. split; [|split].
  - intros r e Hl.
    rewrite (get_or_load_miss_loaded key args1 s r e Hmiss Hl).
    eexists _, _, _. split; [reflexivity|].
    split.
    + apply get_or_load_hit. cbn. apply lookup_insert_eq.
    + unfold Cache.resource, Cache.loader_calls. cbn.
      rewrite lookup_app_r by lia. rewrite Nat.sub_diag.
      rewrite length_app. cbn. repeat split; try reflexivity. lia.
  - intros e Hl.
    rewrite (get_or_load_miss_failed key args1 s e Hmiss Hl).
    eexists. split; [reflexivity|]. cbn.
    repeat split; try assumption.
    + unfold Cache.loader_calls. cbn. rewrite length_app. cbn. lia.
    + unfold Cache.get_or_load, Cache.call_loader, Cache.make_shared,
        Cache.loader_calls. cbn. rewrite Hmiss.
      destruct (loader key args2 e) as [[r'|] e']; cbn; rewrite !length_app; cbn; lia.
  - intros e Hl. unfold Cache.load, Cache.call_loader. rewrite Hl.
    eexists. split; reflexivity.
Qed.

End CacheProperties.

Lemma get_or_load_twice_witness :
  Cache.map empty_cache !! "UFO.png" = None /\
  exists h s1 s2,
    Cache.get_or_load only_ufo "UFO.png" () empty_cache = (Some h, s1) /\
    Cache.get_or_load only_ufo "UFO.png" () s1 = (Some h, s2) /\
    Cache.resource s2 h = Some 7%nat /\
    Cache.loader_calls empty_cache s2 = 1%nat /\
    Cache.loads s2 = Cache.loads empty_cache ++ ["UFO.png"].
Proof.
  assert (Hmiss : Cache.map empty_cache !! "UFO.png" = None) by reflexivity.
  split; [exact Hmiss|].
  exact (proj1 (get_or_load_twice only_ufo "UFO.png" () () empty_cache Hmiss)
           7%nat () eq_refl).
Defined.

(** The second generation's [load] is not [get_or_load]: it invokes the
    loader at every call and replaces the cached handle. *)
Example load_twice_reloads :
  let '(h1, s1) := Cache.load only_ufo "UFO.png" () empty_cache in
  let '(h2, s2) := Cache.load only_ufo "UFO.png" () s1 in
  h1 = Some 0%nat /\ h2 = Some 1%nat /\ Cache.loader_calls empty_cache s2 = 2%nat /\
  Cache.get "UFO.png" s2 = Some 1%nat.
Proof. vm_compute. repeat split; reflexivity. Qed.

(** ** The draw loop *)

Lemma render_layer_nil (lm : Libm) (alpha : Q) : render_layer lm alpha [] = Done [].
Proof. reflexivity. Qed.

(** The loop starts at the last object of the layer. *)
Lemma render_layer_snoc (lm : Libm) (alpha : Q) (l : list GameObject) (obj : GameObject) :
  render_layer lm alpha (l ++ [obj]) =
    match glo obj with
    | None => Done []
    | Some o =>
        c ← draw_object lm alpha obj o;
        cs ← render_layer lm alpha l;
        mret ((length l, c) :: cs)
    end.
Proof.
  unfold render_layer. rewrite imap_app, reverse_app. cbn [imap reverse].
  rewrite Nat.add_0_r. reflexivity.
Qed.

Lemma draw_object_done (lm : Libm) (alpha : Q) (obj : GameObject) (o : GLObject) :
  match sprite_animation obj with
  | Some sa => (curr_frame_idx sa < length (frames sa))%nat
  | None => True
  end ->
  exists c, draw_object lm alpha obj o = Done c.
Proof.
  intros Hsa. unfold draw_object.
  destruct (texture obj) as [tex|].
  - destruct (sprite_animation obj) as [sa|]; [|eauto].
    unfold curr_frame. apply lookup_lt_is_Some_2 in Hsa as [fr Hfr].
    rewrite Hfr. cbn. eauto.
  - destruct (text_fmt obj); eauto.
Qed.

Lemma render_layer_drawn (lm : Libm) (alpha : Q) (l : list GameObject) :
  sprites_in_range l ->
  exists calls, render_layer lm alpha l = Done calls /\
    forall i c, (i, c) ∈ calls ->
      (i < length l)%nat /\
      forall k obj, l !! k = Some obj -> glo obj = None -> (k < i)%nat.
Proof.
  induction l as [|obj l IH] using rev_ind; intros Hok.
  - exists []. split; [reflexivity|]. intros i c Hin. inversion Hin.
  - apply Forall_app in Hok as [Hl Hobj'].
    inversion Hobj' as [|? ? Hobj _]; subst; clear Hobj'.
    destruct (IH Hl) as (cs & Hcs & Hdrawn).
    rewrite render_layer_snoc.
    destruct (glo obj) as [o|] eqn:Hglo.
    + destruct (draw_object_done lm alpha obj o Hobj) as [c Hc].
      rewrite Hc, Hcs. cbn.
      exists ((length l, c) :: cs). split; [reflexivity|].
      intros i c' Hin. rewrite length_app. cbn.
      apply elem_of_cons in Hin as [Heq|Hin].
      * inversion Heq; subst. split; [lia|].
        intros k obj' Hk Hnull.
        destruct (decide (k < length l)%nat) as [Hlt|Hge]; [exact Hlt|].
        rewrite lookup_app_r in Hk by lia.
        destruct (k - length l)%nat eqn:E; cbn in Hk; [|discriminate].
        congruence.
      * destruct (Hdrawn i c' Hin) as [Hi Hk]. split; [lia|].
        intros k obj' Hlk Hnull.
        destruct (decide (k < length l)%nat) as [Hlt|Hge].
        -- rewrite lookup_app_l in Hlk by exact Hlt. eauto.
        -- rewrite lookup_app_r in Hlk by lia.
           destruct (k - length l)%nat eqn:E; cbn in Hlk; [|discriminate].
           congruence.
    + exists []. split; [reflexivity|]. intros i c Hin. inversion Hin.
Qed.

(** C10: the draw loop of a layer runs from the last object towards the
    first and its condition tests the object's render handle, so the first
    object met with a null handle ends the loop for the layer: whatever the
    layer draws lies after that object in the layer, and no object at or
    before it is drawn that frame, with or without a render handle of its
    own. *)
Theorem render_layer_stops_at_null_glo (lm : Libm) (alpha : Q) (l : list GameObject)
    (k : nat) (obj : GameObject) :
  sprites_in_range l ->
  l !! k = Some obj ->
  glo obj = None ->
  exists calls, render_layer lm alpha l = Done calls /\
    (forall i c, (i, c) ∈ calls -> (k < i < length l)%nat) /\
    (forall i, (i <= k)%nat -> i ∉ calls.*1).
Proof.
  intros Hok Hk Hnull.
  destruct (render_layer_drawn lm alpha l Hok) as (calls & Hrun & Hdrawn).
  exists calls. split; [exact Hrun|]. split.
  - intros i c Hin. destruct (Hdrawn i c Hin) as [Hi Hafter].
    split; [eauto|exact Hi].
  - intros i Hle Hin. apply list_elem_of_fmap in Hin as [[i' c] [-> Hin]]. cbn in Hle.
    destruct (Hdrawn i' c Hin) as [_ Hafter].
    specialize (Hafter k obj Hk Hnull). lia.
Qed.

Lemma render_layer_stops_at_null_glo_witness :
  sprites_in_range [with_handle; GameObject_default; with_handle] /\
  [with_handle; GameObject_default; with_handle] !! 1%nat = Some GameObject_default /\
  glo GameObject_default = None /\
  exists calls,
    render_layer libm_at_zero 0 [with_handle; GameObject_default; with_handle] = Done calls /\
    (forall i c, (i, c) ∈ calls -> (1 < i < 3)%nat) /\
    (forall i, (i <= 1)%nat -> i ∉ calls.*1).
Proof.
  assert (Hok : sprites_in_range [with_handle; GameObject_default; with_handle])
    by (repeat constructor).
  split; [exact Hok|]. split; [reflexivity|]. split; [reflexivity|].
  exact (render_layer_stops_at_null_glo libm_at_zero 0
           [with_handle; GameObject_default; with_handle] 1 GameObject_default
           Hok eq_refl eq_refl).
Defined.

(** Of three objects, the middle one without a render handle, only the last
    is drawn: the first has a handle and is skipped all the same. *)
Example render_layer_skips_the_rest :
  (fun calls : list (nat * DrawCall) => calls.*1) <$>
    render_layer libm_at_zero 0 [with_handle; GameObject_default; with_handle]
  = Done [2%nat].
Proof. reflexivity. Qed.

(** ** The order of the update loop *)

Lemma update_frame_done (sa : SpriteAnimation) (dt : Q) :
  (curr_frame_idx sa < length (frames sa))%nat ->
  exists sa', update_frame sa dt = Done sa'.
Proof.
  intros H. apply lookup_lt_is_Some_2 in H as [f Hf].
  destruct (Qlt_le_dec (last_transit_dt sa + dt) (sf_duration f)).
  - rewrite (update_frame_stay sa dt f) by assumption. eauto.
  - rewrite (update_frame_go sa dt f) by assumption. eauto.
Qed.

Lemma retire_keeps (obj : GameObject) :
  aabb (retire obj) = aabb obj /\ offscreen_destroy (retire obj) = offscreen_destroy obj /\
  health (retire obj) = health obj /\ update (retire obj) = update obj.
Proof. unfold retire. destruct (delay_erasing obj); repeat split; reflexivity. Qed.

Lemma custom_update_keeps (lm : Libm) (dt time : Q) (obj : GameObject) :
  aabb (custom_update_system lm dt time obj) = aabb obj /\
  offscreen_destroy (custom_update_system lm dt time obj) = offscreen_destroy obj.
Proof.
  unfold custom_update_system. destruct (update obj) as [[]|]; repeat split; reflexivity.
Qed.

Lemma update_object_done (lm : Libm) (screen : Aabb) (dt time : Q) (obj : GameObject) :
  updatable obj -> exists obj', update_object lm screen dt time obj = Done obj'.
Proof.
  intros [Hsa Hoff]. unfold update_object, sprite_system.
  change (sprite_animation (motion_system dt obj)) with (sprite_animation obj).
  assert (Hsys : forall o, aabb o = aabb obj -> offscreen_destroy o = offscreen_destroy obj ->
            exists o', offscreen_system lm screen o = Done o').
  { intros o Ha Ho. unfold offscreen_system. rewrite Ho, Ha.
    destruct (offscreen_destroy obj); [|eauto].
    destruct (aabb obj); [|exfalso; apply Hoff; congruence].
    cbn. destruct (negb _); [destruct (delay_erasing o)|]; eauto. }
  destruct (sprite_animation obj) as [sa|].
  - destruct (update_frame_done sa dt Hsa) as [sa' Hsa']. rewrite Hsa'. cbn.
    match goal with |- context [offscreen_system lm screen ?o] =>
      destruct (Hsys o) as [o' Ho'] end.
    + rewrite (proj1 (custom_update_keeps _ _ _ _)).
      destruct (expired sa'); [rewrite (proj1 (retire_keeps _))|]; reflexivity.
    + rewrite (proj2 (custom_update_keeps _ _ _ _)).
      destruct (expired sa'); [rewrite (proj1 (proj2 (retire_keeps _)))|]; reflexivity.
    + rewrite Ho'. cbn. eauto.
  - cbn.
    match goal with |- context [offscreen_system lm screen ?o] =>
      destruct (Hsys o) as [o' Ho'] end.
    + rewrite (proj1 (custom_update_keeps _ _ _ _)). reflexivity.
    + rewrite (proj2 (custom_update_keeps _ _ _ _)). reflexivity.
    + rewrite Ho'. cbn. eauto.
Qed.

Lemma update_objects_from_trace (lm : Libm) (screen : Aabb) (dt time : Q) (l : Layer)
    (os : list GameObject) : forall (i : nat) (visited : list (Layer * nat)),
  Forall updatable os ->
  exists os', update_objects_from lm screen dt time l i os visited =
                Done (os', visited ++ ((fun k => (l, k)) <$> seq i (length os))) /\
              length os' = length os.
Proof.
  induction os as [|obj rest IH]; intros i visited Hok.
  - exists []. cbn. rewrite app_nil_r. split; reflexivity.
  - inversion Hok as [|? ? Hobj Hrest]; subst.
    destruct (update_object_done lm screen dt time obj Hobj) as [obj' Hobj'].
    destruct (IH (S i) (visited ++ [(l, i)]) Hrest) as (rest' & Hrun & Hlen).
    exists (obj' :: rest'). cbn [update_objects_from].
    rewrite Hobj'. cbn. rewrite Hrun. cbn.
    rewrite <- app_assoc. cbn. split; [reflexivity|]. cbn. lia.
Qed.

Lemma objs_set_objs_eq (l : Layer) (v : list GameObject) (g : Game) :
  objs l (set_objs l v g) = v.
Proof. destruct l; reflexivity. Qed.

Lemma objs_set_objs_ne (l l' : Layer) (v : list GameObject) (g : Game) :
  l <> l' -> objs l (set_objs l' v g) = objs l g.
Proof. destruct l, l'; intros H; try reflexivity; congruence. Qed.

(** The loop over the layers, for any duplicate-free selection of layers. *)
Lemma update_layers_trace (lm : Libm) (dt time : Q) (ls : list Layer) :
  forall (g : Game) (visited : list (Layer * nat)),
  NoDup ls ->
  (forall l, l ∈ ls -> Forall updatable (objs l g)) ->
  exists g',
    for_each (fun l '(g', visited) =>
                '(objs', visited') ←
                  update_objects_from lm (screen_aabb g') dt time l 0 (objs l g') visited;
                mret (set_objs l objs' g', visited'))
             ls (g, visited)
    = Done (g', visited ++ concat ((fun l => layer_order l g) <$> ls)).
Proof.
  induction ls as [|l rest IH]; intros g visited Hnd Hok.
  - exists g. cbn. rewrite app_nil_r. reflexivity.
  - apply NoDup_cons in Hnd as [Hl Hnd].
    destruct (update_objects_from_trace lm (screen_aabb g) dt time l (objs l g) 0 visited)
      as (os' & Hrun & Hlen); [apply Hok; left|].
    cbn [for_each]. unfold mbind at 1, outcome_bind at 1.
    rewrite Hrun. cbn [mbind outcome_bind mret outcome_ret].
    destruct (IH (set_objs l os' g)
                 (visited ++ ((fun k => (l, k)) <$> seq 0 (length (objs l g)))) Hnd)
      as (g' & Hrest).
    { intros l' Hl'. rewrite objs_set_objs_ne by (intros ->; contradiction).
      apply Hok. right. exact Hl'. }
    exists g'. etransitivity; [exact Hrest|]. f_equal. f_equal.
    rewrite <- app_assoc. f_equal. cbn [fmap list_fmap concat]. f_equal.
    f_equal. apply list_fmap_ext. intros i l' Hl'.
    unfold layer_order. rewrite objs_set_objs_ne; [reflexivity|].
    intros ->. apply Hl. apply list_elem_of_lookup. eauto.
Qed.

(** C7, amended: the update loop visits the layers in declaration order --
    background, spaceship, projectile, explosion, gui, text: back to front,
    the order in which the layers are rendered, not its reverse -- and the
    objects of each layer first to last; the objects of the text layer, the
    ones most on top, are updated last. *)
Theorem update_visits_in_declaration_order (lm : Libm) (dt time : Q) (g : Game) :
  (forall l, Forall updatable (objs l g)) ->
  exists g', update_all_objects_traced lm dt time g = Done (g', declaration_order g).
Proof.
  intros Hok. unfold update_all_objects_traced.
  destruct (update_layers_trace lm dt time all_lists g []) as (g' & Hrun).
  - apply (bool_decide_unpack _). vm_compute. exact I.
  - intros l _. apply Hok.
  - exists g'. rewrite Hrun. unfold declaration_order, all_lists. cbn.
    rewrite app_nil_r. reflexivity.
Qed.

Lemma game_init_updatable : forall l, Forall updatable (objs l game_init).
Proof.
  intros l. destruct l; cbn; repeat constructor; cbn; try lia; congruence.
Qed.

Lemma update_visits_in_declaration_order_witness :
  (forall l, Forall updatable (objs l game_init)) /\
  exists g', update_all_objects_traced libm_at_zero timestep 0 game_init
             = Done (g', declaration_order game_init).
Proof.
  split; [exact game_init_updatable|].
  exact (update_visits_in_declaration_order libm_at_zero timestep 0 game_init
           game_init_updatable).
Defined.

(** C7 as stated fails: with a background, two spaceships and a text object,
    the first object the update loop visits is the background -- the
    rear-most one -- and the text object, the one most on top, is visited
    last. *)
Lemma update_order_counterexample :
  snd <$> update_all_objects_traced libm_at_zero timestep 0 scene_with_text
    = Done [(background, 0%nat); (spaceship, 0%nat); (spaceship, 1%nat); (text, 0%nat)] /\
  front_to_back_order scene_with_text
    = [(text, 0%nat); (spaceship, 0%nat); (spaceship, 1%nat); (background, 0%nat)] /\
  snd <$> update_all_objects_traced libm_at_zero timestep 0 scene_with_text
    <> Done (front_to_back_order scene_with_text) /\
  snd <$> update_all_objects_traced libm_at_zero timestep 0 scene_with_text
    <> Done (reverse (declaration_order scene_with_text)).
Proof.
  assert (E : snd <$> update_all_objects_traced libm_at_zero timestep 0 scene_with_text
              = Done [(background, 0%nat); (spaceship, 0%nat); (spaceship, 1%nat);
                      (text, 0%nat)]) by (vm_compute; reflexivity).
  split; [exact E|]. split; [vm_compute; reflexivity|].
  rewrite E. split; vm_compute; discriminate.
Qed.

(** ** The frame loop *)

Lemma timestep_pos : 0 < timestep.
Proof. reflexivity. Qed.

(** What the catch-up loop establishes. *)
Lemma catch_up_post (lm : Libm) (fuel : nat) :
  forall (evs : list (list Event)) (st st' : LoopState),
  catch_up lm fuel evs st = Some (Done st') ->
  0 <= update_lag st ->
  (0 <= update_lag st' /\ update_lag st' < timestep) /\
  last_time st' = last_time st /\ render_lag st' = render_lag st.
Proof.
  induction fuel as [|fuel IH]; intros evs st st' Hrun Hpos; cbn [catch_up] in Hrun.
  - destruct (Qgeb (update_lag st) timestep) eqn:E; [discriminate|].
    inversion Hrun; subst. apply Qgeb_lt in E. auto.
  - destruct (Qgeb (update_lag st) timestep) eqn:E.
    + apply Qgeb_ge in E.
      destruct (glfwPollEvents (default [] (head evs)) (game st) ≫= _) as [g2| |];
        try discriminate.
      apply IH in Hrun; cbn in *; [tauto|lra].
    + inversion Hrun; subst. apply Qgeb_lt in E. auto.
Qed.

(** The loop ends within one round per whole timestep of lag. *)
Lemma catch_up_terminates (lm : Libm) (fuel : nat) :
  forall (evs : list (list Event)) (st : LoopState),
  update_lag st < inject_Z (Z.of_nat fuel + 1) * timestep ->
  catch_up lm fuel evs st <> None.
Proof.
  induction fuel as [|fuel IH]; intros evs st Hlt; cbn [catch_up].
  - destruct (Qgeb (update_lag st) timestep) eqn:E; [|discriminate].
    apply Qgeb_ge in E. change (inject_Z (Z.of_nat 0 + 1)) with 1 in Hlt. lra.
  - destruct (Qgeb (update_lag st) timestep) eqn:E; [|discriminate].
    destruct (glfwPollEvents (default [] (head evs)) (game st) ≫= _) as [g2| |];
      try discriminate.
    apply IH. cbn [update_lag].
    rewrite Nat2Z.inj_succ in Hlt. unfold Z.succ in Hlt.
    rewrite !inject_Z_plus in Hlt. rewrite inject_Z_plus.
    change (inject_Z 1) with 1 in *. lra.
Qed.

Lemma catch_up_fuel_bound (lag : Q) :
  lag < inject_Z (Z.of_nat (catch_up_fuel lag) + 1) * timestep.
Proof.
  unfold catch_up_fuel.
  pose proof (Qlt_floor (lag / timestep)) as Hfl.
  assert (Hz : (Qfloor (lag / timestep) <= Z.of_nat (Z.to_nat (Qfloor (lag / timestep))))%Z)
    by lia.
  assert (Hq : inject_Z (Qfloor (lag / timestep) + 1)
               <= inject_Z (Z.of_nat (Z.to_nat (Qfloor (lag / timestep))) + 1)).
  { rewrite <- Zle_Qle. lia. }
  assert (Hdiv : lag / timestep == lag * 100) by (unfold timestep; field).
  set (q := lag / timestep) in *.
  set (a := inject_Z (Qfloor q + 1)) in *.
  set (b := inject_Z (Z.of_nat (Z.to_nat (Qfloor q)) + 1)) in *.
  clearbody a b. clear Hz. clearbody q.
  change timestep with (1 # 100). lra.
Qed.

(** The catch-up loop of an iteration never runs out of fuel. *)
Lemma catch_up_enough (lm : Libm) (evs : list (list Event)) (st : LoopState) :
  catch_up lm (catch_up_fuel (update_lag st)) evs st <> None.
Proof. apply catch_up_terminates, catch_up_fuel_bound. Qed.

Lemma loop_iteration_alpha (lm : Libm) (refresh_rate : Q) (inp : FrameInput)
    (st : LoopState) :
  0 <= update_lag st ->
  last_time st <= now_time inp ->
  (forall alpha, fst (loop_iteration lm refresh_rate inp st) = Some alpha ->
     in_unit_interval alpha) /\
  (forall st', snd (loop_iteration lm refresh_rate inp st) = Done st' ->
     0 <= update_lag st' /\ last_time st' = now_time inp).
Proof.
  intros Hlag Hclock. unfold loop_iteration.
  destruct (catch_up lm _ (pending inp) _) as [[st2| |]|] eqn:Hrun;
    cbn [fst snd]; try (split; intros; discriminate).
  apply catch_up_post in Hrun as [[H0 H1] [Hlast _]]; [|cbn; lra].
  cbn in Hlast.
  destruct (Qgeb _ _); cbn [fst snd]; split.
  - intros alpha Ha. inversion Ha; subst. unfold in_unit_interval.
    assert (Hdiv : update_lag st2 / timestep == update_lag st2 * 100)
      by (unfold timestep; field).
    set (q := update_lag st2 / timestep) in *. clearbody q.
    change timestep with (1 # 100) in H1. lra.
  - intros st' Hst. inversion Hst; subst. cbn. auto.
  - intros alpha Ha. discriminate.
  - intros st' Hst. inversion Hst; subst. cbn. auto.
Qed.

Lemma game_loop_alphas (lm : Libm) (refresh_rate : Q) (inputs : list FrameInput) :
  forall st : LoopState,
  0 <= update_lag st ->
  clock_monotone (last_time st) inputs ->
  Forall in_unit_interval (fst (game_loop lm refresh_rate inputs st)).
Proof.
  induction inputs as [|inp rest IH]; intros st Hlag Hclock; cbn [game_loop].
  - constructor.
  - destruct Hclock as [Hnow Hrest].
    destruct (loop_iteration_alpha lm refresh_rate inp st Hlag Hnow) as [Ha Hst].
    destruct (loop_iteration lm refresh_rate inp st) as [a [st'| |]]; cbn [fst snd] in *.
    + destruct (Hst st' eq_refl) as [Hlag' Hlast'].
      specialize (IH st' Hlag'). rewrite Hlast' in IH. specialize (IH Hrest).
      destruct (game_loop lm refresh_rate rest st') as [alphas final]. cbn [fst] in *.
      apply Forall_app. split; [|exact IH].
      destruct a as [alpha|]; cbn; [|constructor].
      constructor; [apply Ha; reflexivity|constructor].
    + destruct a as [alpha|]; cbn; [|constructor].
      constructor; [apply Ha; reflexivity|constructor].
    + destruct a as [alpha|]; cbn; [|constructor].
      constructor; [apply Ha; reflexivity|constructor].
Qed.

(** More rounds than the loop needs change nothing. *)
Lemma catch_up_more_fuel (lm : Libm) (fuel : nat) :
  forall (evs : list (list Event)) (st : LoopState) (r : outcome LoopState),
  catch_up lm fuel evs st = Some r ->
  forall fuel' : nat, (fuel <= fuel')%nat -> catch_up lm fuel' evs st = Some r.
Proof.
  induction fuel as [|fuel IH]; intros evs st r Hrun fuel' Hle; cbn [catch_up] in Hrun.
  - destruct (Qgeb (update_lag st) timestep) eqn:E; [discriminate|].
    destruct fuel'; cbn [catch_up]; rewrite E; exact Hrun.
  - destruct fuel' as [|fuel']; [lia|]. cbn [catch_up].
    destruct (Qgeb (update_lag st) timestep) eqn:E; [|exact Hrun].
    destruct (glfwPollEvents (default [] (head evs)) (game st) ≫= _) as [g2| |];
      try exact Hrun.
    apply (IH _ _ _ Hrun). lia.
Qed.

(** Every round is one tick: it moves one timestep from [update_lag] to
    [epochtime]. *)
Lemma catch_up_rounds (lm : Libm) (fuel : nat) :
  forall (evs : list (list Event)) (st st' : LoopState),
  catch_up lm fuel evs st = Some (Done st') ->
  exists k : nat,
    update_lag st' == update_lag st - inject_Z (Z.of_nat k) * timestep /\
    epochtime st' == epochtime st + inject_Z (Z.of_nat k) * timestep.
Proof.
  induction fuel as [|fuel IH]; intros evs st st' Hrun; cbn [catch_up] in Hrun.
  - destruct (Qgeb (update_lag st) timestep); [discriminate|].
    inversion Hrun; subst. exists 0%nat. cbn. split; ring.
  - destruct (Qgeb (update_lag st) timestep).
    + destruct (glfwPollEvents (default [] (head evs)) (game st) ≫= _) as [g2| |];
        try discriminate.
      apply IH in Hrun. destruct Hrun as (k & Hlag & Hepoch). cbn in Hlag, Hepoch.
      exists (S k). rewrite Nat2Z.inj_succ. unfold Z.succ. rewrite inject_Z_plus.
      change (inject_Z 1) with 1. split; [rewrite Hlag|rewrite Hepoch]; ring.
    + inversion Hrun; subst. exists 0%nat. cbn. split; ring.
Qed.

(** The number of whole timesteps in a lag. *)
Lemma catch_up_fuel_unique (lag : Q) (k : nat) :
  0 <= lag - inject_Z (Z.of_nat k) * timestep ->
  lag - inject_Z (Z.of_nat k) * timestep < timestep ->
  catch_up_fuel lag = k.
Proof.
  intros H0 H1. unfold catch_up_fuel.
  assert (Hdiv : lag / timestep == lag * 100) by (unfold timestep; field).
  pose proof (Qfloor_le (lag / timestep)) as Hfl.
  pose proof (Qlt_floor (lag / timestep)) as Hlt.
  rewrite inject_Z_plus in Hlt. change (inject_Z 1) with 1 in Hlt.
  assert (Hk : (Qfloor (lag / timestep) = Z.of_nat k)%Z).
  { change timestep with (1 # 100) in H0, H1.
    apply Z.le_antisymm.
    - apply Z.lt_succ_r. rewrite Zlt_Qlt. unfold Z.succ. rewrite inject_Z_plus.
      change (inject_Z 1) with 1.
      set (f := inject_Z (Qfloor (lag / timestep))) in *.
      set (q := lag / timestep) in *. set (c := inject_Z (Z.of_nat k)) in *.
      clearbody f q c. lra.
    - apply Z.lt_succ_r. rewrite Zlt_Qlt. unfold Z.succ. rewrite inject_Z_plus.
      change (inject_Z 1) with 1.
      set (f := inject_Z (Qfloor (lag / timestep))) in *.
      set (q := lag / timestep) in *. set (c := inject_Z (Z.of_nat k)) in *.
      clearbody f q c. lra. }
  rewrite Hk. apply Nat2Z.id.
Qed.

(** One iteration, from locals with a lag that is not negative and a
    clock that has not run backwards. *)
Lemma loop_iteration_spec (lm : Libm) (refresh_rate : Q) (inp : FrameInput)
    (st : LoopState) :
  0 <= update_lag st ->
  last_time st <= now_time inp ->
  catches_up_and_renders lm refresh_rate st inp.
Proof.
  intros Hlag Hclock. unfold catches_up_and_renders. cbv zeta.
  split; [lra|].
  set (st1 := {| game := game st; epochtime := epochtime st; last_time := now_time inp;
                 update_lag := update_lag st + (now_time inp - last_time st);
                 render_lag := render_lag st |}).
  pose proof (catch_up_enough lm (pending inp) st1) as Hend.
  change (update_lag st1) with (update_lag st + (now_time inp - last_time st)) in Hend.
  destruct (catch_up lm (catch_up_fuel (update_lag st + (now_time inp - last_time st)))
              (pending inp) st1) as [r|] eqn:Hrun; [clear Hend|congruence].
  exists r. split; [intros fuel Hle; exact (catch_up_more_fuel _ _ _ _ _ Hrun _ Hle)|].
  unfold loop_iteration. cbv zeta. fold st1.
  change (update_lag st1) with (update_lag st + (now_time inp - last_time st)).
  rewrite Hrun.
  destruct r as [st2| |]; [|reflexivity|reflexivity].
  destruct (catch_up_rounds _ _ _ _ _ Hrun) as (k & Hk1 & Hk2).
  destruct (catch_up_post _ _ _ _ _ Hrun) as [[H0 H1] [Hlast Hrender]]; [cbn; lra|].
  cbn [update_lag epochtime last_time render_lag st1] in Hk1, Hk2, Hlast, Hrender.
  assert (Hn : catch_up_fuel (update_lag st + (now_time inp - last_time st)) = k).
  { apply catch_up_fuel_unique; rewrite <- Hk1; assumption. }
  rewrite Hn, Hrender. fold (render_interval refresh_rate (game st2)).
  split; [exact Hk1|]. split; [exact Hk2|]. split; [exact H0|]. split; [exact H1|].
  assert (Halpha : in_unit_interval (update_lag st2 / timestep)).
  { unfold in_unit_interval.
    assert (Hdiv : update_lag st2 / timestep == update_lag st2 * 100)
      by (unfold timestep; field).
    set (q := update_lag st2 / timestep) in *. clearbody q.
    change timestep with (1 # 100) in H1. lra. }
  destruct (Qgeb (render_lag st + (now_time inp - last_time st))
              (render_interval refresh_rate (game st2))) eqn:E; cbn [fst snd].
  - apply Qgeb_ge in E.
    split; [eexists; split; [reflexivity|cbn; auto]|].
    split; [intros _; split; [reflexivity|exact Halpha]|].
    intros Hlt. lra.
  - apply Qgeb_lt in E.
    split; [eexists; split; [reflexivity|cbn; auto]|].
    split; [intros Hle; lra|].
    intros _. reflexivity.
Qed.

(** The loop over a list of inputs is the loop over its first part and
    then, from the locals that leaves, over the rest. *)
Lemma game_loop_app (lm : Libm) (refresh_rate : Q) (pre rest : list FrameInput) :
  forall st0 st : LoopState,
  snd (game_loop lm refresh_rate pre st0) = Done st ->
  game_loop lm refresh_rate (pre ++ rest) st0
  = (fst (game_loop lm refresh_rate pre st0) ++ fst (game_loop lm refresh_rate rest st),
     snd (game_loop lm refresh_rate rest st)).
Proof.
  induction pre as [|inp pre IH]; intros st0 st Hrun; cbn [game_loop app] in *.
  - cbn [snd] in Hrun. inversion Hrun; subst. cbn [fst app].
    destruct (game_loop lm refresh_rate rest st); reflexivity.
  - destruct (loop_iteration lm refresh_rate inp st0) as [a [st1| |]];
      cbn [snd] in Hrun; try discriminate.
    specialize (IH st1 st).
    destruct (game_loop lm refresh_rate pre st1) as [alphas final]. cbn [fst snd] in *.
    rewrite (IH Hrun). cbn [fst snd]. rewrite app_assoc. reflexivity.
Qed.

(** The locals at the start of every iteration the loop reaches. *)
Lemma game_loop_reaches (lm : Libm) (refresh_rate : Q) (pre rest : list FrameInput) :
  forall st0 st : LoopState,
  0 <= update_lag st0 ->
  clock_monotone (last_time st0) (pre ++ rest) ->
  snd (game_loop lm refresh_rate pre st0) = Done st ->
  0 <= update_lag st /\ clock_monotone (last_time st) rest.
Proof.
  induction pre as [|inp pre IH]; intros st0 st Hlag Hclock Hrun;
    cbn [game_loop app] in *.
  - cbn [snd] in Hrun. inversion Hrun; subst. auto.
  - destruct Hclock as [Hnow Hrest].
    destruct (loop_iteration_alpha lm refresh_rate inp st0 Hlag Hnow) as [_ Hst].
    destruct (loop_iteration lm refresh_rate inp st0) as [a [st1| |]];
      cbn [snd] in *; try discriminate.
    destruct (Hst st1 eq_refl) as [Hlag1 Hlast1].
    apply (IH st1 st Hlag1); [rewrite Hlast1; exact Hrest|].
    destruct (game_loop lm refresh_rate pre st1). exact Hrun.
Qed.

(** C8: in every iteration of the frame loop, whenever [game_render] is
    invoked its interpolation factor [alpha = update_lag / timestep] lies in
    [0, 1).  Every iteration the loop reaches, [inp] after the iterations
    [pre], first lets the catch-up loop run: it ends, after one tick per
    whole timestep of [update_lag] unless a tick fails, with [update_lag]
    in [0, timestep), never negative; [game_render] is then invoked exactly
    when the render interval has passed, with that [alpha], which is the
    next factor handed out by the loop.  The clock read by the loop is one
    that never runs backwards. *)
Theorem game_loop_alpha_in_unit_interval (lm : Libm) (refresh_rate : Q)
    (inputs : list FrameInput) (g : Game) :
  clock_monotone 0 inputs ->
  Forall in_unit_interval (fst (game_loop lm refresh_rate inputs (loop_start g))) /\
  forall (pre : list FrameInput) (inp : FrameInput) (post : list FrameInput)
         (st : LoopState),
    inputs = pre ++ inp :: post ->
    snd (game_loop lm refresh_rate pre (loop_start g)) = Done st ->
    catches_up_and_renders lm refresh_rate st inp /\
    exists later : list Q,
      fst (game_loop lm refresh_rate inputs (loop_start g))
      = fst (game_loop lm refresh_rate pre (loop_start g))
        ++ option_list (fst (loop_iteration lm refresh_rate inp st)) ++ later.
Proof.
  intros Hclock. split; [apply game_loop_alphas; cbn; [lra|exact Hclock]|].
  intros pre inp post st Hsplit Hrun. subst inputs.
  destruct (game_loop_reaches lm refresh_rate pre (inp :: post) (loop_start g) st)
    as [Hlag [Hnow _]]; [cbn; lra|exact Hclock|exact Hrun|].
  split; [exact (loop_iteration_spec lm refresh_rate inp st Hlag Hnow)|].
  rewrite (game_loop_app lm refresh_rate pre (inp :: post) _ _ Hrun). cbn [fst game_loop].
  destruct (loop_iteration lm refresh_rate inp st) as [a [st'| |]]; cbn [fst].
  - destruct (game_loop lm refresh_rate post st') as [alphas final]. cbn [fst].
    exists alphas. reflexivity.
  - exists []. rewrite app_nil_r. reflexivity.
  - exists []. rewrite app_nil_r. reflexivity.
Qed.

Lemma game_loop_alpha_in_unit_interval_witness :
  (clock_monotone 0 two_frames /\
   two_frames = take 1 two_frames ++ {| now_time := 0.05; pending := [] |} :: [] /\
   snd (game_loop libm_at_zero 60 (take 1 two_frames) (loop_start lone_player))
     = Done after_first_frame) /\
  Forall in_unit_interval (fst (game_loop libm_at_zero 60 two_frames (loop_start lone_player))) /\
  catches_up_and_renders libm_at_zero 60 after_first_frame
    {| now_time := 0.05; pending := [] |} /\
  exists later : list Q,
    fst (game_loop libm_at_zero 60 two_frames (loop_start lone_player))
    = fst (game_loop libm_at_zero 60 (take 1 two_frames) (loop_start lone_player))
      ++ option_list (fst (loop_iteration libm_at_zero 60
                             {| now_time := 0.05; pending := [] |} after_first_frame))
      ++ later.
Proof.
  assert (Hclock : clock_monotone 0 two_frames) by (vm_compute; intuition discriminate).
  assert (Hsplit : two_frames
                   = take 1 two_frames ++ {| now_time := 0.05; pending := [] |} :: [])
    by reflexivity.
  assert (Hrun : snd (game_loop libm_at_zero 60 (take 1 two_frames) (loop_start lone_player))
                 = Done after_first_frame) by (vm_compute; reflexivity).
  split; [exact (conj Hclock (conj Hsplit Hrun))|].
  destruct (game_loop_alpha_in_unit_interval libm_at_zero 60 two_frames lone_player Hclock)
    as [Hall Hiter].
  split; [exact Hall|].
  exact (Hiter (take 1 two_frames) {| now_time := 0.05; pending := [] |} []
           after_first_frame Hsplit Hrun).
Defined.

(** Two frames 25 ms apart at 60 Hz: two ticks and a render half way to
    the next tick, then three ticks and a render right on a tick. *)
Example game_loop_two_frames :
  Qred <$> fst (game_loop libm_at_zero 60 two_frames (loop_start lone_player)) = [1 # 2; 0] /\
  (epochtime <$> snd (game_loop libm_at_zero 60 two_frames (loop_start lone_player)))
    = Done (0 + timestep + timestep + timestep + timestep + timestep).
Proof. split; vm_compute; reflexivity. Qed.

(** ** What [game_pause] leaves alone *)

Lemma with_player_motion_frame (m : GameObject -> Motion) (g g' : Game) :
  with_player (fun o => set_motion (m o) o) g = Done g' -> pause_frame g' = pause_frame g.
Proof.
  unfold with_player, player, pause_frame.
  destruct g as [? ? ? ? ? ? [[bg sh pj ex gu tx]] ? ? ? ? ? ? ? ? ? ?].
  unfold objs, set_objs. cbn.
  destruct sh as [|p rest]; cbn; [discriminate|].
  intros H. inversion H; subst. reflexivity.
Qed.

Lemma key_state_frame (key : Z) (g : Game) :
  pause_frame (snd (key_state key g)) = pause_frame g.
Proof. unfold key_state. destruct (key_states g !! key); reflexivity. Qed.

Lemma handler_body_frame (dispatch : KeyHandler -> Game -> Z -> Z -> Z -> outcome Game)
    (h : KeyHandler) (g g' : Game) (key action mods : Z) :
  action <> GLFW_PRESS ->
  (forall h' g1 k m g2, dispatch h' g1 k GLFW_REPEAT m = Done g2 ->
                        pause_frame g2 = pause_frame g1) ->
  handler_body dispatch h g key action mods = Done g' ->
  pause_frame g' = pause_frame g.
Proof.
  intros Hact Hdisp.
  assert (Hp : (action =? GLFW_PRESS)%Z = false) by (apply Z.eqb_neq; exact Hact).
  unfold handler_body.
  destruct h; rewrite ?Hp; cbn [orb].
  - destruct (ASSERT _); cbn [mbind outcome_bind]; try discriminate.
    destruct (action =? GLFW_REPEAT)%Z.
    + apply (with_player_motion_frame
               (fun o => {| velocity := glm.mk_vec2 _ (glm.y (velocity (motion o)));
                            acceleration := glm.mk_vec2 _ (glm.y (acceleration (motion o)))
                         |})).
    + destruct (action =? GLFW_RELEASE)%Z; [|intros H; inversion H; reflexivity].
      pose proof (key_state_frame
                    (if (key =? GLFW_KEY_LEFT)%Z then GLFW_KEY_RIGHT else GLFW_KEY_LEFT) g)
        as Hks.
      destruct (key_state _ g) as [other g1]. cbn [snd] in Hks.
      destruct other.
      * destruct (key_handlers g1 !! _); [|discriminate].
        intros H. apply Hdisp in H. congruence.
      * intros H.
        apply (with_player_motion_frame
                 (fun o => {| velocity := glm.mk_vec2 _ (glm.y (velocity (motion o)));
                              acceleration :=
                                glm.mk_vec2 _ (glm.y (acceleration (motion o))) |})) in H.
        congruence.
  - destruct (ASSERT _); cbn [mbind outcome_bind]; try discriminate.
    destruct (action =? GLFW_REPEAT)%Z.
    + apply (with_player_motion_frame
               (fun o => {| velocity := glm.mk_vec2 (glm.x (velocity (motion o))) _;
                            acceleration := glm.mk_vec2 (glm.x (acceleration (motion o))) _
                         |})).
    + destruct (action =? GLFW_RELEASE)%Z; [|intros H; inversion H; reflexivity].
      pose proof (key_state_frame
                    (if (key =? GLFW_KEY_UP)%Z then GLFW_KEY_DOWN else GLFW_KEY_UP) g)
        as Hks.
      destruct (key_state _ g) as [other g1]. cbn [snd] in Hks.
      destruct other.
      * destruct (key_handlers g1 !! _); [|discriminate].
        intros H. apply Hdisp in H. congruence.
      * intros H.
        apply (with_player_motion_frame
                 (fun o => {| velocity := glm.mk_vec2 (glm.x (velocity (motion o))) _;
                              acceleration :=
                                glm.mk_vec2 (glm.x (acceleration (motion o))) _ |})) in H.
        congruence.
  - destruct (ASSERT _); cbn [mbind outcome_bind]; try discriminate.
    destruct (action =? GLFW_RELEASE)%Z; intros H; inversion H; reflexivity.
  - intros H; inversion H; reflexivity.
  - intros H; inversion H; reflexivity.
  - intros H; inversion H; reflexivity.
Qed.

Lemma run_handler_frame (h : KeyHandler) (g g' : Game) (key action mods : Z) :
  action <> GLFW_PRESS ->
  run_handler h g key action mods = Done g' ->
  pause_frame g' = pause_frame g.
Proof.
  intros Hact. apply handler_body_frame; [exact Hact|].
  intros h' g1 k m g2. apply handler_body_frame; [discriminate|].
  intros; discriminate.
Qed.

Lemma release_key_frame (key : Z) (g g' : Game) :
  release_key key g = Done g' -> pause_frame g' = pause_frame g.
Proof.
  unfold release_key.
  destruct (key_states g !! key) as [[|]|]; try (intros H; inversion H; reflexivity).
  destruct (key_handlers _ !! key).
  - intros H. apply run_handler_frame in H; [|discriminate]. rewrite H. reflexivity.
  - intros H; inversion H; reflexivity.
Qed.

Lemma for_each_frame {A F} (frame : Game -> F) (body : A -> Game -> outcome Game)
    (xs : list A) :
  (forall a g g', body a g = Done g' -> frame g' = frame g) ->
  forall g g', for_each body xs g = Done g' -> frame g' = frame g.
Proof.
  intros Hbody. induction xs as [|a rest IH]; intros g g' H; cbn in H.
  - inversion H; reflexivity.
  - destruct (body a g) as [g1| |] eqn:E; cbn in H; try discriminate.
    rewrite (IH _ _ H). eauto.
Qed.

Lemma game_pause_frame (g g' : Game) :
  game_pause g = Done g' -> pause_frame g' = pause_frame g.
Proof.
  unfold game_pause. destruct (paused g); [intros H; inversion H; reflexivity|].
  destruct (for_each release_key _ g) as [g1| |] eqn:E; cbn; try discriminate.
  intros H; inversion H; subst.
  apply (for_each_frame pause_frame) in E; [|apply release_key_frame].
  rewrite <- E. reflexivity.
Qed.

(** ** When [game_pause] completes *)

Lemma pause_frame_inv (g g' : Game) :
  pause_frame g' = pause_frame g ->
  (objs background g' = objs background g /\
   calm (objs spaceship g') = calm (objs spaceship g) /\
   objs projectile g' = objs projectile g /\
   objs explosion g' = objs explosion g /\
   objs gui g' = objs gui g /\
   objs text g' = objs text g) /\
  (textures g' = textures g /\ audios g' = audios g /\ key_handlers g' = key_handlers g) /\
  (gl_names g' = gl_names g /\ al_names g' = al_names g /\
   al_playing g' = al_playing g /\ screen_aabb g' = screen_aabb g).
Proof.
  unfold pause_frame. intros H. injection H. intros. repeat split; assumption.
Qed.

Lemma calm_nil (ships : list GameObject) : calm ships = [] <-> ships = [].
Proof. destruct ships; cbn; split; congruence. Qed.

Lemma pause_ready_frame (g g' : Game) :
  pause_frame g' = pause_frame g -> pause_ready g -> pause_ready g'.
Proof.
  intros H [Hk Hs]. apply pause_frame_inv in H as [(_ & Hsh & _) [(_ & _ & Hkh) _]].
  split; [congruence|].
  intros E. apply Hs. apply calm_nil. rewrite <- Hsh. apply calm_nil. exact E.
Qed.

Lemma with_player_done (f : GameObject -> GameObject) (g : Game) :
  objs spaceship g <> [] -> exists g', with_player f g = Done g'.
Proof.
  intros Hs. unfold with_player, player.
  destruct (objs spaceship g) as [|p rest]; [congruence|]. cbn. eauto.
Qed.

Lemma key_state_ready (key : Z) (g : Game) :
  pause_ready g -> pause_ready (snd (key_state key g)).
Proof. apply pause_ready_frame, key_state_frame. Qed.

Lemma init_key_handlers_lookup (key : Z) (h : KeyHandler) :
  init_key_handlers ∅ !! key = Some h ->
  (key = GLFW_KEY_LEFT /\ h = key_left_right_handler) \/
  (key = GLFW_KEY_RIGHT /\ h = key_left_right_handler) \/
  (key = GLFW_KEY_UP /\ h = key_up_down_handler) \/
  (key = GLFW_KEY_DOWN /\ h = key_up_down_handler) \/
  (key = GLFW_KEY_SPACE /\ h = key_space_handler) \/
  (key = GLFW_KEY_F3 /\ h = key_f3_handler) \/
  (key = GLFW_KEY_F6 /\ h = key_f6_handler) \/
  (key = GLFW_KEY_F7 /\ h = key_f7_handler).
Proof.
  unfold init_key_handlers. intros H.
  repeat (rewrite lookup_insert in H;
          destruct (decide (_ = key)) as [<-|_]; [inversion H; subst; tauto|]).
  rewrite lookup_empty in H. discriminate.
Qed.

(** A handler of [init_key_handlers], called for its own key with
    [GLFW_REPEAT], completes. *)
Lemma run_handler_inner_repeat_done (g : Game) (key : Z) (h : KeyHandler) :
  pause_ready g ->
  init_key_handlers ∅ !! key = Some h ->
  exists g', run_handler_inner h g key GLFW_REPEAT 0%Z = Done g'.
Proof.
  intros [Hk Hs] Hh.
  apply init_key_handlers_lookup in Hh.
  destruct Hh as [[-> ->]|[[-> ->]|[[-> ->]|[[-> ->]|[[-> ->]|[[-> ->]|[[-> ->]|[-> ->]]]]]]]];
    unfold run_handler_inner, handler_body; cbn [ASSERT Z.eqb orb mbind outcome_bind];
    try (apply with_player_done; exact Hs); eauto.
Qed.

(** A handler of [init_key_handlers], called for its own key with
    [GLFW_RELEASE], completes. *)
Lemma run_handler_release_done (g : Game) (key : Z) (h : KeyHandler) :
  pause_ready g ->
  key_handlers g !! key = Some h ->
  exists g', run_handler h g key GLFW_RELEASE 0%Z = Done g'.
Proof.
  intros Hready Hh. pose proof Hready as [Hk Hs].
  rewrite Hk in Hh. apply init_key_handlers_lookup in Hh.
  assert (Hother : forall other g1 h',
            pause_ready g1 -> key_handlers g1 !! other = Some h' ->
            exists g', run_handler_inner h' g1 other GLFW_REPEAT 0%Z = Done g').
  { intros other g1 h' Hr1 Hh'. apply run_handler_inner_repeat_done; [exact Hr1|].
    destruct Hr1 as [<- _]. exact Hh'. }
  destruct Hh as [[-> ->]|[[-> ->]|[[-> ->]|[[-> ->]|[[-> ->]|[[-> ->]|[[-> ->]|[-> ->]]]]]]]];
    unfold run_handler, handler_body; cbn [ASSERT Z.eqb orb mbind outcome_bind]; eauto.
  all: match goal with |- context [key_state ?k ?g0] =>
         pose proof (key_state_ready k g0 Hready) as Hr1;
         pose proof (key_state_frame k g0) as Hfr;
         destruct (key_state k g0) as [other g1] eqn:Eks; cbn [snd] in Hr1, Hfr
       end.
  all: destruct other; [|apply with_player_done; exact (proj2 Hr1)].
  all: destruct Hr1 as [Hk1 Hs1]; rewrite Hk1; cbn.
  all: apply Hother; [split; assumption|rewrite Hk1; reflexivity].
Qed.

Lemma release_key_done (key : Z) (g : Game) :
  pause_ready g -> exists g', release_key key g = Done g'.
Proof.
  intros Hready. unfold release_key.
  destruct (key_states g !! key) as [[|]|]; eauto.
  assert (Hr1 : pause_ready (set_key_states (<[key := false]> (key_states g)) g))
    by exact Hready.
  destruct (key_handlers _ !! key) as [h|] eqn:Hh; eauto.
  exact (run_handler_release_done _ key h Hr1 Hh).
Qed.

Lemma for_each_release_done (keys : list Z) :
  forall g, pause_ready g -> exists g', for_each release_key keys g = Done g'.
Proof.
  induction keys as [|key rest IH]; intros g Hready; cbn; eauto.
  destruct (release_key_done key g Hready) as [g1 Hg1]. rewrite Hg1. cbn.
  apply IH. eapply pause_ready_frame; [|exact Hready].
  eapply release_key_frame; exact Hg1.
Qed.

(** [game_pause] completes, pauses the game and leaves the scene alone,
    but for the motion of the player. *)
Lemma game_pause_done (g : Game) :
  pause_ready g ->
  exists g', game_pause g = Done g' /\ pause_frame g' = pause_frame g /\ paused g' = true.
Proof.
  intros Hready. unfold game_pause. destruct (paused g) eqn:Hp.
  - exists g. auto.
  - destruct (for_each_release_done (map_to_list (key_states g)).*1 g Hready) as [g1 Hg1].
    rewrite Hg1. cbn. eexists. split; [reflexivity|]. split; [|reflexivity].
    apply (for_each_frame pause_frame) in Hg1; [|apply release_key_frame].
    rewrite <- Hg1. reflexivity.
Qed.

Lemma calm_lookup (ships : list GameObject) (j : nat) :
  (0 < j)%nat -> calm ships !! j = ships !! j.
Proof. destruct ships, j; cbn; intros; (lia || reflexivity). Qed.

Lemma calm_length (ships : list GameObject) : length (calm ships) = length ships.
Proof. destruct ships; reflexivity. Qed.

(** ** The projectile against spaceship collision *)

Lemma spawn_explosion_at_done (p : glm.vec2) (g : Game) (tex wav : nat) :
  textures g !! "Explosion.png" = Some tex ->
  audios g !! "explosionCrunch_000.wav" = Some wav ->
  exists ex g1,
    spawn_explosion_at p g = Done g1 /\
    objs explosion g1 = objs explosion g ++ [ex] /\
    position (transform ex) = p /\
    spawn_frame g1 = spawn_frame g.
Proof.
  intros Htex Hwav. unfold spawn_explosion_at, create_explosion.
  rewrite Htex. cbn [ASSERT_GET mbind outcome_bind].
  destruct (gen_sprite_quads 6) as [vertices indices].
  unfold create_textured_globject, create_audio_source.
  change (audios (set_al_names _ (set_gl_names _ g))) with (audios g).
  rewrite Hwav. cbn [ASSERT_GET mbind outcome_bind mret outcome_ret].
  cbn [sound set_prev_transform set_position set_transform deref mbind outcome_bind].
  eexists _, _. split; [reflexivity|].
  split; [rewrite objs_set_objs_eq; reflexivity|].
  split; reflexivity.
Qed.


Lemma spawn_frame_inv (g g' : Game) :
  spawn_frame g' = spawn_frame g ->
  (objs background g' = objs background g /\ objs spaceship g' = objs spaceship g /\
   objs projectile g' = objs projectile g /\ objs gui g' = objs gui g /\
   objs text g' = objs text g) /\
  (textures g' = textures g /\ audios g' = audios g /\ key_handlers g' = key_handlers g /\
   key_states g' = key_states g) /\
  (paused g' = paused g /\ timed_actions g' = timed_actions g /\
   screen_aabb g' = screen_aabb g).
Proof.
  unfold spawn_frame. intros H. injection H. intros. repeat split; assumption.
Qed.

Lemma overlapping_inv (lm : Libm) (proj ship : GameObject) :
  overlapping lm proj ship ->
  exists pb sb,
    aabb proj = Some pb /\ aabb ship = Some sb /\
    collision (Aabb_transform pb (Transform_matrix lm (transform proj)))
              (Aabb_transform sb (Transform_matrix lm (transform ship))) = true.
Proof.
  unfold overlapping, overlapb.
  destruct (aabb proj) as [pb|]; [|discriminate].
  destruct (aabb ship) as [sb|]; [|discriminate]. eauto.
Qed.


(** ** What the collision passes dereference *)

Lemma spawn_explosion_at_frame (p : glm.vec2) (g g1 : Game) :
  spawn_explosion_at p g = Done g1 -> spawn_frame g1 = spawn_frame g.
Proof.
  unfold spawn_explosion_at, create_explosion.
  destruct (textures g !! "Explosion.png") as [tex|]; [|discriminate].
  cbn [ASSERT_GET mbind outcome_bind].
  destruct (gen_sprite_quads 6) as [vertices indices].
  unfold create_textured_globject, create_audio_source.
  change (audios (set_al_names _ (set_gl_names _ g))) with (audios g).
  destruct (audios g !! "explosionCrunch_000.wav") as [wav|]; [|discriminate].
  cbn [ASSERT_GET mbind outcome_bind mret outcome_ret].
  cbn [sound set_prev_transform set_position set_transform deref mbind outcome_bind].
  intros H. inversion H; subst. reflexivity.
Qed.

Lemma fmap_aabb_calm (ships : list GameObject) : aabb <$> calm ships = aabb <$> ships.
Proof. destruct ships; reflexivity. Qed.

Lemma fmap_aabb_insert (l : list GameObject) (i : nat) (o o' : GameObject) :
  l !! i = Some o -> aabb o' = aabb o -> aabb <$> <[i := o']> l = aabb <$> l.
Proof.
  intros Hl Ha. rewrite list_fmap_insert, Ha.
  apply list_insert_id. rewrite list_lookup_fmap, Hl. reflexivity.
Qed.

Lemma game_pause_profile (g g' : Game) :
  game_pause g = Done g' -> aabb_profile g' = aabb_profile g.
Proof.
  intros H. apply game_pause_frame, pause_frame_inv in H as [(_ & Hsh & Hpj & _) _].
  unfold aabb_profile. rewrite Hpj.
  rewrite <- (fmap_aabb_calm (objs spaceship g')), Hsh, fmap_aabb_calm. reflexivity.
Qed.

Lemma aabb_profile_inv (g g' : Game) :
  aabb_profile g' = aabb_profile g ->
  aabb <$> objs projectile g' = aabb <$> objs projectile g /\
  aabb <$> objs spaceship g' = aabb <$> objs spaceship g.
Proof.
  intros H. split; [exact (f_equal fst H)|exact (f_equal snd H)].
Qed.

(** One round of the projectile pass completes only on a projectile and a
    spaceship that carry an AABB, and changes no AABB component. *)
Lemma hit_projectile_needs (lm : Libm) (j i : nat) (g g' : Game) :
  hit_projectile lm j i g = Done g' ->
  aabb_profile g' = aabb_profile g /\
  (exists pb, (aabb <$> objs projectile g) !! i = Some (Some pb)) /\
  (exists sb, (aabb <$> objs spaceship g) !! j = Some (Some sb)).
Proof.
  unfold hit_projectile, decrement_health.
  destruct (objs projectile g !! i) as [proj|] eqn:Hp; [|discriminate].
  destruct (objs spaceship g !! j) as [ship|] eqn:Hs; [|discriminate].
  cbn [deref mbind outcome_bind].
  destruct (aabb proj) as [pb|] eqn:Hpb; [|discriminate].
  destruct (aabb ship) as [sb|] eqn:Hsb; [|discriminate].
  cbn [deref mbind outcome_bind].
  intros H.
  assert (Hpi : (aabb <$> objs projectile g) !! i = Some (Some pb))
    by (rewrite list_lookup_fmap, Hp; cbn; congruence).
  assert (Hsj : (aabb <$> objs spaceship g) !! j = Some (Some sb))
    by (rewrite list_lookup_fmap, Hs; cbn; congruence).
  split; [|eauto].
  destruct (collision _ _); [|inversion H; reflexivity].
  destruct (spawn_explosion_at _ g) as [g1| |] eqn:Hspawn; try discriminate.
  cbn [mbind outcome_bind] in H.
  apply spawn_explosion_at_frame, spawn_frame_inv in Hspawn
    as [(_ & Hships1 & Hprojs1 & _ & _) _].
  destruct (health ship) as [h|]; [|discriminate].
  cbn [deref mbind outcome_bind] in H.
  destruct (value h =? INT_MIN)%Z; [discriminate|].
  cbn [mret outcome_ret mbind outcome_bind health set_health value] in H.
  assert (Hbase : forall ship',
            aabb ship' = aabb ship ->
            aabb_profile
              (set_objs spaceship
                 (<[j := ship']>
                    (objs spaceship
                       (set_objs projectile (<[i := retire proj]> (objs projectile g1)) g1)))
                 (set_objs projectile (<[i := retire proj]> (objs projectile g1)) g1))
            = aabb_profile g).
  { intros ship' Hship'. unfold aabb_profile.
    rewrite objs_set_objs_eq.
    rewrite (objs_set_objs_ne projectile spaceship) by discriminate.
    rewrite objs_set_objs_eq.
    rewrite (objs_set_objs_ne spaceship projectile) by discriminate.
    rewrite Hships1, Hprojs1.
    rewrite (fmap_aabb_insert _ i proj) by (auto; apply retire_keeps).
    rewrite (fmap_aabb_insert _ j ship) by auto.
    reflexivity. }
  destruct (value h - 1 <=? 0)%Z.
  - apply game_pause_profile in H. rewrite H. apply Hbase. reflexivity.
  - inversion H; subst. apply Hbase. reflexivity.
Qed.



(** One round of the player pass completes only on a player and an enemy
    that carry an AABB, and changes no AABB component. *)
Lemma hit_player_needs (lm : Libm) (j : nat) (g g' : Game) :
  hit_player lm j g = Done g' ->
  aabb_profile g' = aabb_profile g /\
  (exists pb, (aabb <$> objs spaceship g) !! 0%nat = Some (Some pb)) /\
  (exists eb, (aabb <$> objs spaceship g) !! j = Some (Some eb)).
Proof.
  unfold hit_player.
  destruct (objs spaceship g !! 0%nat) as [pl|] eqn:Hp; [|discriminate].
  destruct (objs spaceship g !! j) as [en|] eqn:Hs; [|discriminate].
  cbn [deref mbind outcome_bind].
  destruct (aabb pl) as [pb|] eqn:Hpb; [|discriminate].
  destruct (aabb en) as [eb|] eqn:Heb; [|discriminate].
  cbn [deref mbind outcome_bind].
  intros H.
  assert (Hp0 : (aabb <$> objs spaceship g) !! 0%nat = Some (Some pb))
    by (rewrite list_lookup_fmap, Hp; cbn; congruence).
  assert (Hsj : (aabb <$> objs spaceship g) !! j = Some (Some eb))
    by (rewrite list_lookup_fmap, Hs; cbn; congruence).
  split; [|eauto].
  destruct (collision _ _); [|inversion H; reflexivity].
  destruct (spawn_explosion_at _ g) as [g1| |] eqn:Hspawn; try discriminate.
  cbn [mbind outcome_bind] in H.
  apply spawn_explosion_at_frame, spawn_frame_inv in Hspawn
    as [(_ & Hships1 & Hprojs1 & _ & _) _].
  apply game_pause_profile in H. rewrite H. unfold aabb_profile.
  rewrite objs_set_objs_eq, objs_set_objs_ne by discriminate.
  rewrite Hships1, Hprojs1.
  rewrite (fmap_aabb_insert _ 0%nat pl) by auto. reflexivity.
Qed.




(** ** The scenarios, evaluated *)


(** The end-to-end scenario, one whole tick: the projectile is retired, an
    explosion stands where the projectile was when it hit (it had moved by
    one tick of its velocity), and the enemy has lost one point of health. *)
Example game_update_scenario_hit :
  ((fun g => (fun o => (transform o, delay_erasing o)) <$> objs projectile g) <$>
     game_update libm_at_zero scenario_hit timestep 0)
    = Done [(sentinel, Some {| de_sound := true |})] /\
  ((fun g => (fun o => (Qred (glm.x (position (transform o))),
                        Qred (glm.y (position (transform o))))) <$> objs explosion g) <$>
     game_update libm_at_zero scenario_hit timestep 0)
    = Done [(0, Qred (0.5 + 2.6 * timestep))] /\
  health_of 1 scenario_hit = Some 10%Z /\
  (health_of 1 <$> game_update libm_at_zero scenario_hit timestep 0) = Done (Some 9%Z).
Proof. conj_split; vm_compute; reflexivity. Qed.



(** The same defect at the collision itself, for any pair: an overlapping
    spaceship without a health component makes the pass undefined. *)
Lemma hit_projectile_without_health (lm : Libm) (g : Game) (i j : nat)
    (proj ship : GameObject) (tex wav : nat) :
  objs projectile g !! i = Some proj ->
  objs spaceship g !! j = Some ship ->
  overlapping lm proj ship ->
  health ship = None ->
  textures g !! "Explosion.png" = Some tex ->
  audios g !! "explosionCrunch_000.wav" = Some wav ->
  hit_projectile lm j i g = Undef.
Proof.
  intros Hp Hs Hover Hh Htex Hwav.
  destruct (overlapping_inv lm proj ship Hover) as (pb & sb & Hpb & Hsb & Hcol).
  destruct (spawn_explosion_at_done (position (transform proj)) g tex wav Htex Hwav)
    as (ex & g1 & Hspawn & _).
  unfold hit_projectile, decrement_health.
  rewrite Hp, Hs. cbn [deref mbind outcome_bind].
  rewrite Hpb, Hsb. cbn [deref mbind outcome_bind]. rewrite Hcol, Hspawn.
  cbn [deref mbind outcome_bind]. rewrite Hh. reflexivity.
Qed.



(** With a pair to test, the missing AABB makes the tick undefined. *)
Example tick_without_aabb_undefined :
  game_update libm_at_zero (without_aabb 1 scenario_hit) timestep 0 = Undef /\
  game_update libm_at_zero (without_aabb 0 scenario_hit) timestep 0 = Undef.
Proof. split; vm_compute; reflexivity. Qed.

(** ** The order of the draw loop, and the cursor picking loop *)

Lemma render_layer_all_handles (lm : Libm) (alpha : Q) (l : list GameObject) :
  Forall has_glo l -> sprites_in_range l ->
  exists calls, render_layer lm alpha l = Done calls /\
                calls.*1 = reverse (seq 0 (length l)).
Proof.
  induction l as [|obj l IH] using rev_ind; intros Hglo Hok.
  - exists []. split; reflexivity.
  - apply Forall_app in Hglo as [Hgl Hgo]. apply Forall_app in Hok as [Hl Ho].
    inversion Hgo as [|? ? Hobj _]; subst. inversion Ho as [|? ? Hsa _]; subst.
    destruct (IH Hgl Hl) as (cs & Hcs & Hidx).
    rewrite render_layer_snoc.
    destruct (glo obj) as [o|] eqn:E; [|exfalso; apply Hobj; exact E].
    destruct (draw_object_done lm alpha obj o Hsa) as [c Hc].
    rewrite Hc, Hcs. cbn [mbind outcome_bind mret outcome_ret].
    exists ((length l, c) :: cs). split; [reflexivity|].
    rewrite length_app, seq_app, reverse_app. cbn [length seq reverse fmap list_fmap].
    rewrite Hidx. reflexivity.
Qed.

Lemma render_layers_order (lm : Libm) (alpha : Q) (g : Game) (ls : list Layer) :
  (forall l, Forall has_glo (objs l g) /\ sprites_in_range (objs l g)) ->
  forall acc : list (Layer * nat * DrawCall),
  exists calls,
    for_each (fun l calls =>
                cs ← render_layer lm alpha (objs l g);
                mret (calls ++ ((fun '(i, c) => (l, i, c)) <$> cs)))
             ls acc = Done calls /\
    calls.*1 = acc.*1 ++ concat ((fun l => reverse (layer_order l g)) <$> ls).
Proof.
  intros Hok. induction ls as [|l rest IH]; intros acc.
  - exists acc. cbn. rewrite app_nil_r. split; reflexivity.
  - destruct (Hok l) as [Hglo Hsa].
    destruct (render_layer_all_handles lm alpha (objs l g) Hglo Hsa) as (cs & Hcs & Hidx).
    cbn [for_each]. rewrite Hcs. cbn [mbind outcome_bind mret outcome_ret].
    destruct (IH (acc ++ ((fun '(i, c) => (l, i, c)) <$> cs))) as (calls & Hrun & Hcalls).
    exists calls. split; [exact Hrun|].
    rewrite Hcalls, fmap_app, <- app_assoc. f_equal. cbn [fmap list_fmap concat]. f_equal.
    unfold layer_order. rewrite <- fmap_reverse, <- Hidx, <- !list_fmap_compose.
    apply list_fmap_ext. intros k [i c] _. reflexivity.
Qed.

(** The draw loop reaches the objects back to front: the layers in
    declaration order, each last to first. *)
Lemma render_all_objects_order (lm : Libm) (alpha : Q) (g : Game) :
  (forall l, Forall has_glo (objs l g) /\ sprites_in_range (objs l g)) ->
  exists calls, render_all_objects lm alpha g = Done calls /\ calls.*1 = draw_order g.
Proof.
  intros Hok. destruct (render_layers_order lm alpha g all_lists Hok []) as (calls & H & E).
  exists calls. split; [exact H|exact E].
Qed.

(** The cursor picking loop looks at the spaceship layer alone, skips the
    spaceships without an AABB, and its result does not depend on the
    order of the visits. *)
Lemma cursor_picking_hover (lm : Libm) (g : Game) :
  hover (cursor_picking lm g) = existsb (under_cursor lm g) (objs spaceship g).
Proof.
  unfold cursor_picking.
  assert (H : forall (ships : list GameObject) (acc : Game),
            hover (foldl (fun g' ship =>
                            match aabb ship with
                            | None => g'
                            | Some b =>
                                if collision
                                     {| min := Cursor_normalized (cursor g) (window g)
                                                 (viewport g);
                                        max := glm.add
                                                 (Cursor_normalized (cursor g) (window g)
                                                    (viewport g))
                                                 (glm.mk_vec2
                                                    (1 / inject_Z (ux (v_size (viewport g))))
                                                    (1 / inject_Z (uy (v_size (viewport g)))))
                                     |}
                                     (Aabb_transform b (Transform_matrix lm (transform ship)))
                                then set_hover true g' else g'
                            end) acc ships)
            = hover acc || existsb (under_cursor lm g) ships).
  { induction ships as [|ship rest IH]; intros acc; cbn [foldl existsb].
    - rewrite orb_false_r. reflexivity.
    - rewrite IH. unfold under_cursor at 2.
      destruct (aabb ship) as [b|]; [|reflexivity].
      destruct (collision _ _); cbn; [|reflexivity].
      rewrite orb_true_r. reflexivity. }
  rewrite H. reflexivity.
Qed.

(** ** The projectile pass on a single pair *)

(** With the player, one more spaceship and one projectile, the pass is the
    one collision test of that pair. *)
Lemma single_pair_pass (lm : Libm) (g : Game) (pl ship proj : GameObject) :
  objs spaceship g = [pl; ship] ->
  objs projectile g = [proj] ->
  projectile_spaceship_collision lm g = hit_projectile lm 1 0 g.
Proof.
  intros Hs Hp. unfold projectile_spaceship_collision. rewrite Hs.
  cbn [length seq for_each]. rewrite Hp. cbn [length seq for_each].
  destruct (hit_projectile lm 1 0 g); reflexivity.
Qed.

(** ** The player against enemy collision, evaluated *)

(** The enemy on top of the player, one whole tick: an explosion stands at
    the position of the player, the render handle of the player is cleared,
    the game is paused, and the player stays in its layer.  The draw loop of
    the spaceship layer then draws the enemy and ends at the player. *)
Example game_update_scenario_crash :
  (paused <$> game_update libm_at_zero scenario_crash timestep 0) = Done true /\
  ((fun g => (fun o => (label (tag o), bool_decide (glo o = None))) <$> objs spaceship g) <$>
     game_update libm_at_zero scenario_crash timestep 0)
    = Done [("player", true); ("enemy", false)] /\
  ((fun g => (fun o => (Qred (glm.x (position (transform o))),
                        Qred (glm.y (position (transform o))))) <$> objs explosion g) <$>
     game_update libm_at_zero scenario_crash timestep 0)
    = Done [(0, Qred (-0.7))] /\
  (g ← game_update libm_at_zero scenario_crash timestep 0;
   (fun calls : list (nat * DrawCall) => calls.*1) <$>
     render_layer libm_at_zero 0 (objs spaceship g)) = Done [1%nat].
Proof. conj_split; vm_compute; reflexivity. Qed.

(** * Further properties *)

(** ** Boxes and transforms *)

Lemma Qltb_ge (a b : Q) : Qltb a b = false <-> b <= a.
Proof.
  unfold Qltb. rewrite negb_false_iff. apply Qle_bool_iff.
Qed.


Lemma Transform_matrix_at (lm : Libm) (t : Transform) (p : glm.vec2) :
  let c := cosf lm (radians lm (rotation t)) in
  let s := sinf lm (radians lm (rotation t)) in
  let w := glm.transform_point (Transform_matrix lm t) p in
  glm.x w == glm.x (position t) + c * (glm.x (scale t) * glm.x p)
                                - s * (glm.y (scale t) * glm.y p) /\
  glm.y w == glm.y (position t) + s * (glm.x (scale t) * glm.x p)
                                + c * (glm.y (scale t) * glm.y p).
Proof.
  destruct t as [[px py] [sx sy] r], p as [x y]. cbn. split; ring.
Qed.

(** X2: [Transform::matrix] scales, then rotates, then translates: the
    local point (x, y) goes to position + R (scale.x * x, scale.y * y), R
    the rotation by the transform's angle. *)
Theorem Transform_matrix_point (lm : Libm) (t : Transform) (p : glm.vec2) :
  let c := cosf lm (radians lm (rotation t)) in
  let s := sinf lm (radians lm (rotation t)) in
  let w := glm.transform_point (Transform_matrix lm t) p in
  glm.x w == glm.x (position t) + c * (glm.x (scale t) * glm.x p)
                                - s * (glm.y (scale t) * glm.y p) /\
  glm.y w == glm.y (position t) + s * (glm.x (scale t) * glm.x p)
                                + c * (glm.y (scale t) * glm.y p).
Proof. exact (Transform_matrix_at lm t p). Qed.

(** X3: for a transform without rotation (cosine 1, sine 0) the world box
    of an ordered local box is position + scale * box on each axis: a
    non-negative scale maps minimum to minimum and maximum to maximum, a
    negative one (a mirrored sprite) swaps the two. *)
Theorem world_box_without_rotation (lm : Libm) (t : Transform) (b : Aabb) :
  cosf lm (radians lm (rotation t)) == 1 ->
  sinf lm (radians lm (rotation t)) == 0 ->
  ordered b ->
  let w := Aabb_transform b (Transform_matrix lm t) in
  let px := glm.x (position t) in
  let py := glm.y (position t) in
  let sx := glm.x (scale t) in
  let sy := glm.y (scale t) in
  (0 <= sx -> glm.x (min w) == px + sx * glm.x (min b) /\
              glm.x (max w) == px + sx * glm.x (max b)) /\
  (sx <= 0 -> glm.x (min w) == px + sx * glm.x (max b) /\
              glm.x (max w) == px + sx * glm.x (min b)) /\
  (0 <= sy -> glm.y (min w) == py + sy * glm.y (min b) /\
              glm.y (max w) == py + sy * glm.y (max b)) /\
  (sy <= 0 -> glm.y (min w) == py + sy * glm.y (max b) /\
              glm.y (max w) == py + sy * glm.y (min b)).
Proof.
  intros Hc Hs [Hx Hy]. cbv zeta.
  destruct (Transform_matrix_at lm t (min b)) as [Hpx Hpy].
  destruct (Transform_matrix_at lm t (max b)) as [Hqx Hqy].
  cbv zeta in Hpx, Hpy, Hqx, Hqy. rewrite Hc, Hs in Hpx, Hpy, Hqx, Hqy.
  unfold Aabb_transform, glm.min, glm.max. cbn [min max glm.x glm.y].
  set (p := glm.transform_point (Transform_matrix lm t) (min b)) in *.
  set (q := glm.transform_point (Transform_matrix lm t) (max b)) in *.
  destruct (Qltb (glm.x q) (glm.x p)) eqn:E1, (Qltb (glm.x p) (glm.x q)) eqn:E2,
           (Qltb (glm.y q) (glm.y p)) eqn:E3, (Qltb (glm.y p) (glm.y q)) eqn:E4;
    rewrite ?Qltb_lt, ?Qltb_ge in *; repeat split; intros; nra.
Qed.

Lemma world_box_without_rotation_witness :
  ordered unit_quad /\
  let w := Aabb_transform unit_quad (Transform_matrix libm_at_zero mirrored) in
  glm.y (min w) == glm.y (position mirrored) + glm.y (scale mirrored) * glm.y (max unit_quad) /\
  glm.y (max w) == glm.y (position mirrored) + glm.y (scale mirrored) * glm.y (min unit_quad).
Proof.
  assert (H : ordered unit_quad) by (split; vm_compute; discriminate).
  assert (Hneg : glm.y (scale mirrored) <= 0) by (vm_compute; discriminate).
  split; [exact H|].
  exact (proj2 (proj2 (proj2 (world_box_without_rotation libm_at_zero mirrored unit_quad
                                (Qeq_refl _) (Qeq_refl _) H))) Hneg).
Defined.

(** ** Sprite animation: what one call keeps *)

Lemma update_frame_cases (sa : SpriteAnimation) (dt : Q) :
  (curr_frame_idx sa < length (frames sa))%nat ->
  exists sa' f,
    update_frame sa dt = Done sa' /\
    frames sa !! curr_frame_idx sa = Some f /\
    (curr_frame_idx sa' < length (frames sa'))%nat /\
    frames sa' = frames sa /\ max_cycles sa' = max_cycles sa /\
    ((last_transit_dt sa + dt < sf_duration f /\
      curr_frame_idx sa' = curr_frame_idx sa /\
      curr_cycle_count sa' = curr_cycle_count sa /\
      last_transit_dt sa' == last_transit_dt sa + dt) \/
     (sf_duration f <= last_transit_dt sa + dt /\
      curr_frame_idx sa' = next_frame_idx sa /\
      curr_cycle_count sa' = next_cycle_count sa /\
      last_transit_dt sa' + sf_duration f == last_transit_dt sa + dt)).
Proof.
  intros Hin. pose proof Hin as Hin'. apply lookup_lt_is_Some_2 in Hin' as [f Hf].
  destruct (Qlt_le_dec (last_transit_dt sa + dt) (sf_duration f)) as [Hlt|Hge].
  - eexists _, f. split; [exact (update_frame_stay sa dt f Hf Hlt)|].
    cbn. split; [exact Hf|]. split; [exact Hin|]. split; [reflexivity|].
    split; [reflexivity|]. left.
    split; [exact Hlt|]. split; [reflexivity|]. split; reflexivity.
  - eexists _, f. split; [exact (update_frame_go sa dt f Hf Hge)|].
    cbn. split; [exact Hf|]. split.
    { unfold next_frame_idx.
      destruct (S (curr_frame_idx sa) =? length (frames sa))%nat eqn:E; [lia|].
      apply Nat.eqb_neq in E. lia. }
    split; [reflexivity|]. split; [reflexivity|]. right.
    split; [exact Hge|]. split; [reflexivity|]. split; [reflexivity|]. ring.
Qed.

(** X4: a call of [update_frame] on an animation whose index is in range
    completes and keeps the index in range; it changes neither the frames
    nor the cycle limit, and it accounts for every bit of the elapsed time:
    either the frame stays and the time since the transition grows by
    [dt], or the animation moves to the next frame and carries over what
    exceeds the duration of the frame it leaves. *)
Theorem update_frame_keeps_in_range (sa : SpriteAnimation) (dt : Q) :
  (curr_frame_idx sa < length (frames sa))%nat ->
  exists sa' f,
    update_frame sa dt = Done sa' /\
    frames sa !! curr_frame_idx sa = Some f /\
    (curr_frame_idx sa' < length (frames sa'))%nat /\
    frames sa' = frames sa /\ max_cycles sa' = max_cycles sa /\
    ((last_transit_dt sa + dt < sf_duration f /\
      curr_frame_idx sa' = curr_frame_idx sa /\
      curr_cycle_count sa' = curr_cycle_count sa /\
      last_transit_dt sa' == last_transit_dt sa + dt) \/
     (sf_duration f <= last_transit_dt sa + dt /\
      curr_frame_idx sa' = next_frame_idx sa /\
      curr_cycle_count sa' = next_cycle_count sa /\
      last_transit_dt sa' + sf_duration f == last_transit_dt sa + dt)).
Proof. exact (update_frame_cases sa dt). Qed.

Lemma update_frame_keeps_in_range_witness :
  (curr_frame_idx three_seconds < length (frames three_seconds))%nat /\
  exists sa', update_frame three_seconds 0.5 = Done sa' /\
              (curr_frame_idx sa' < length (frames sa'))%nat.
Proof.
  assert (H : (curr_frame_idx three_seconds < length (frames three_seconds))%nat)
    by (vm_compute; lia).
  split; [exact H|].
  destruct (update_frame_keeps_in_range three_seconds 0.5 H)
    as (sa' & f & Hrun & _ & Hin & _).
  exists sa'. exact (conj Hrun Hin).
Defined.

(** The access to the current frame is unchecked: out of range, the call
    is undefined. *)
Lemma update_frame_out_of_range (sa : SpriteAnimation) (dt : Q) :
  (length (frames sa) <= curr_frame_idx sa)%nat -> update_frame sa dt = Undef.
Proof.
  intros H. unfold update_frame. rewrite (lookup_ge_None_2 _ _ H). reflexivity.
Qed.

Lemma update_frames_rest_of_cycle (rest : list SpriteFrame) :
  forall sa : SpriteAnimation,
  drop (curr_frame_idx sa) (frames sa) = rest ->
  rest <> [] ->
  last_transit_dt sa == 0 ->
  exists sa',
    update_frames sa (sf_duration <$> rest) = Done sa' /\
    curr_frame_idx sa' = 0%nat /\
    curr_cycle_count sa' = ((curr_cycle_count sa + 1) mod SIZE_MODULUS)%N /\
    last_transit_dt sa' == 0 /\ frames sa' = frames sa /\ max_cycles sa' = max_cycles sa.
Proof.
  induction rest as [|f rest IH]; intros sa Hdrop Hne Hzero; [congruence|].
  assert (Hf : frames sa !! curr_frame_idx sa = Some f).
  { pose proof (lookup_drop (frames sa) (curr_frame_idx sa) 0) as H.
    rewrite Hdrop, Nat.add_0_r in H. symmetry. exact H. }
  assert (Hrest : drop (S (curr_frame_idx sa)) (frames sa) = rest).
  { replace (S (curr_frame_idx sa)) with (curr_frame_idx sa + 1)%nat by lia.
    rewrite <- drop_drop, Hdrop. reflexivity. }
  assert (Hlen : length (frames sa) = (curr_frame_idx sa + S (length rest))%nat).
  { apply (f_equal length) in Hdrop. rewrite length_drop in Hdrop. cbn in Hdrop.
    apply lookup_lt_Some in Hf. lia. }
  cbn [fmap list_fmap update_frames].
  rewrite (update_frame_go sa (sf_duration f) f Hf) by lra.
  cbn [mbind outcome_bind].
  destruct rest as [|f' rest'].
  - cbn [fmap list_fmap update_frames mret outcome_ret].
    eexists. split; [reflexivity|]. cbn.
    unfold next_frame_idx, next_cycle_count.
    replace (S (curr_frame_idx sa) =? length (frames sa))%nat with true
      by (symmetry; apply Nat.eqb_eq; cbn in Hlen; lia).
    repeat split. lra.
  - edestruct (IH {| last_transit_dt := last_transit_dt sa + sf_duration f - sf_duration f;
                     curr_frame_idx := next_frame_idx sa; frames := frames sa;
                     curr_cycle_count := next_cycle_count sa;
                     max_cycles := max_cycles sa |})
      as (sa' & Hrun & Hi & Hc & Hl & Hfr & Hm).
    + cbn. unfold next_frame_idx.
      replace (S (curr_frame_idx sa) =? length (frames sa))%nat with false
        by (symmetry; apply Nat.eqb_neq; cbn in Hlen; lia).
      exact Hrest.
    + discriminate.
    + cbn. lra.
    + exists sa'. split; [exact Hrun|]. cbn in Hc, Hfr, Hm.
      unfold next_cycle_count in Hc.
      replace (S (curr_frame_idx sa) =? length (frames sa))%nat with false in Hc
        by (symmetry; apply Nat.eqb_neq; cbn in Hlen; lia).
      auto.
Qed.

(** X5: a whole cycle.  From the start of a cycle, one [update_frame] call
    per frame, each by exactly the duration of its frame, brings the
    animation back to frame 0 with one more cycle completed and nothing
    left over. *)
Theorem update_frames_whole_cycle (sa : SpriteAnimation) :
  at_cycle_start sa ->
  exists sa',
    update_frames sa (remaining_durations sa) = Done sa' /\
    curr_frame_idx sa' = 0%nat /\
    curr_cycle_count sa' = ((curr_cycle_count sa + 1) mod SIZE_MODULUS)%N /\
    last_transit_dt sa' == 0.
Proof.
  intros (Hidx & Hzero & Hne). unfold remaining_durations.
  destruct (update_frames_rest_of_cycle (drop (curr_frame_idx sa) (frames sa)) sa eq_refl)
    as (sa' & Hrun & Hi & Hc & Hl & _); [rewrite Hidx; exact Hne|exact Hzero|].
  exists sa'. auto.
Qed.

Lemma update_frames_whole_cycle_witness :
  at_cycle_start three_seconds /\
  exists sa',
    update_frames three_seconds (remaining_durations three_seconds) = Done sa' /\
    curr_frame_idx sa' = 0%nat /\
    curr_cycle_count sa' = ((curr_cycle_count three_seconds + 1) mod SIZE_MODULUS)%N /\
    last_transit_dt sa' == 0.
Proof.
  assert (H : at_cycle_start three_seconds).
  { split; [reflexivity|]. split; [reflexivity|discriminate]. }
  exact (conj H (update_frames_whole_cycle three_seconds H)).
Defined.

(** ** Timed actions: what one update keeps *)

(** X6: an update accounts for all the elapsed time -- the accumulator
    after it, plus one duration for the firing if there was one, is the
    accumulator before plus [dt] -- and fires at most once.  When the
    accumulator starts inside [0, duration) and the step is between 0 and
    the duration, it ends inside [0, duration) again. *)
Theorem timed_action_update_conserves {A} (ta : TimedAction A) (dt : Q) :
  (fire_count ta dt <= 1)%nat /\
  tick_dt (after_update ta dt) + inject_Z (Z.of_nat (fire_count ta dt)) * ta_duration ta
    == tick_dt ta + dt /\
  (0 <= tick_dt ta -> tick_dt ta < ta_duration ta -> 0 <= dt -> dt <= ta_duration ta ->
   0 <= tick_dt (after_update ta dt) /\ tick_dt (after_update ta dt) < ta_duration ta).
Proof.
  unfold fire_count, after_update.
  destruct (Qlt_le_dec (tick_dt ta + dt) (ta_duration ta)) as [Hlt|Hge].
  - rewrite (TimedAction_update_idle _ ta _ dt 0 Hlt). cbn.
    split; [lia|]. split; [ring|]. intros. lra.
  - rewrite (TimedAction_update_fires _ ta _ dt 0 Hge). cbn.
    split; [lia|]. split; [ring|]. intros. lra.
Qed.

Lemma timed_action_update_conserves_witness :
  (0 <= tick_dt fire_timer /\ tick_dt fire_timer < ta_duration fire_timer /\
   0 <= timestep /\ timestep <= ta_duration fire_timer) /\
  0 <= tick_dt (after_update fire_timer timestep) /\
  tick_dt (after_update fire_timer timestep) < ta_duration fire_timer.
Proof.
  assert (H1 : 0 <= tick_dt fire_timer) by (vm_compute; discriminate).
  assert (H2 : tick_dt fire_timer < ta_duration fire_timer) by (vm_compute; reflexivity).
  assert (H3 : 0 <= timestep) by (vm_compute; discriminate).
  assert (H4 : timestep <= ta_duration fire_timer) by (vm_compute; discriminate).
  split; [exact (conj H1 (conj H2 (conj H3 H4)))|].
  exact (proj2 (proj2 (timed_action_update_conserves fire_timer timestep)) H1 H2 H3 H4).
Defined.

(** ** Resource caches: what a call keeps *)

Section CacheInvariants.
Context {R Args Ext : Type}.
Variable loader : string -> Args -> Ext -> option R * Ext.

Local Abbreviation state := (Cache.state R Ext).

Lemma cache_wf_insert_fresh (s : state) (key : string) (r : R) (e : Ext)
    (ls : list string) :
  cache_wf s ->
  cache_wf {| Cache.map := <[key := length (Cache.heap s)]> (Cache.map s);
              Cache.heap := Cache.heap s ++ [r]; Cache.ext := e; Cache.loads := ls |}.
Proof.
  intros [Hin Hinj]. split; cbn.
  - intros k h Hk. rewrite length_app. cbn.
    rewrite lookup_insert in Hk. destruct (decide (key = k)).
    + inversion Hk; subst. lia.
    + apply Hin in Hk. lia.
  - intros k1 k2 h H1 H2. rewrite lookup_insert in H1, H2.
    destruct (decide (key = k1)), (decide (key = k2)); subst; try reflexivity.
    + inversion H1; subst. apply Hin in H2. lia.
    + inversion H2; subst. apply Hin in H1. lia.
    + eauto.
Qed.

(** X7: [get_or_load] keeps the cache in good order and never drops or
    replaces anything: every object stays at its address and every entry
    stays in the cache.  When it returns a handle, that handle is the
    cache's entry for the key and refers to an object; a hit invokes no
    loader and changes nothing. *)
Theorem get_or_load_keeps_cache (key : string) (args : Args) (s : state) :
  cache_wf s ->
  let '(res, s') := Cache.get_or_load loader key args s in
  cache_wf s' /\ cache_extends s s' /\
  (forall h, res = Some h ->
     Cache.map s' !! key = Some h /\ is_Some (Cache.resource s' h)) /\
  (res = None -> Cache.map s' = Cache.map s /\ Cache.map s !! key = None) /\
  (is_Some (Cache.map s !! key) -> s' = s /\ res = Cache.map s !! key).
Proof.
  intros Hwf. unfold Cache.get_or_load.
  destruct (Cache.map s !! key) as [h|] eqn:Hk.
  - split; [exact Hwf|]. split; [split; [exists []; rewrite app_nil_r|]; reflexivity|].
    split.
    + intros h' Hh'. inversion Hh'; subst. split; [exact Hk|].
      unfold Cache.resource. apply lookup_lt_is_Some_2. apply (proj1 Hwf key). exact Hk.
    + split; [discriminate|]. intros _. split; reflexivity.
  - unfold Cache.call_loader, Cache.make_shared.
    destruct (loader key args (Cache.ext s)) as [[r|] e]; cbn.
    + split; [apply cache_wf_insert_fresh; exact Hwf|].
      split; [split; [exists [r]; reflexivity|apply insert_subseteq; exact Hk]|].
      split.
      * intros h Hh. inversion Hh; subst. split; [apply lookup_insert_eq|].
        unfold Cache.resource. cbn. apply lookup_lt_is_Some_2. rewrite length_app. cbn. lia.
      * split; [discriminate|]. intros [? ?]. discriminate.
    + split; [exact Hwf|].
      split; [split; [exists []; rewrite app_nil_r|]; reflexivity|].
      split; [discriminate|]. split; [auto|]. intros [? ?]. discriminate.
Qed.

(** X8: the second generation's [load] followed by [get].  After a
    successful load, [get] returns the handle just made, which refers to the
    resource the loader produced; the entries of the other keys are
    untouched; the cache stays in good order; and the handle is a new one,
    so an earlier handle for the same key is not what the cache holds any
    more.  After a failed load every entry is as before. *)
Theorem load_then_get (key : string) (args : Args) (s : state) :
  cache_wf s ->
  let '(res, s') := Cache.load loader key args s in
  cache_wf s' /\
  (forall k, k <> key -> Cache.get k s' = Cache.get k s) /\
  (forall r e, loader key args (Cache.ext s) = (Some r, e) ->
     exists h, res = Some h /\ Cache.get key s' = Some h /\
               Cache.resource s' h = Some r /\ Cache.get key s <> Some h) /\
  (forall e, loader key args (Cache.ext s) = (None, e) ->
     res = None /\ Cache.map s' = Cache.map s).
Proof.
  intros Hwf. unfold Cache.load, Cache.call_loader, Cache.make_shared, Cache.Base_load.
  destruct (loader key args (Cache.ext s)) as [[r|] e]; cbn.
  - split; [apply cache_wf_insert_fresh; exact Hwf|].
    split; [intros k Hk; unfold Cache.get; cbn; apply lookup_insert_ne; congruence|].
    split; [|intros e' He'; discriminate].
    intros r' e' Hl. inversion Hl; subst.
    exists (length (Cache.heap s)). split; [reflexivity|].
    unfold Cache.get, Cache.resource. cbn.
    split; [apply lookup_insert_eq|]. split.
    + rewrite lookup_app_r by lia. rewrite Nat.sub_diag. reflexivity.
    + intros Hold. apply (proj1 Hwf) in Hold. lia.
  - split; [exact Hwf|]. split; [reflexivity|].
    split; [intros r e' Hl; discriminate|]. intros e' _. split; reflexivity.
Qed.

End CacheInvariants.

Lemma empty_cache_wf : cache_wf empty_cache.
Proof.
  split; cbn; intros *; rewrite lookup_empty; discriminate.
Qed.

Lemma get_or_load_keeps_cache_witness :
  cache_wf empty_cache /\
  cache_wf (snd (Cache.get_or_load only_ufo "UFO.png" () empty_cache)).
Proof.
  split; [exact empty_cache_wf|].
  pose proof (get_or_load_keeps_cache only_ufo "UFO.png" () empty_cache empty_cache_wf) as H.
  destruct (Cache.get_or_load only_ufo "UFO.png" () empty_cache) as [res s'].
  exact (proj1 H).
Defined.

Lemma load_then_get_witness :
  cache_wf empty_cache /\
  cache_wf (snd (Cache.load only_ufo "UFO.png" () empty_cache)).
Proof.
  split; [exact empty_cache_wf|].
  pose proof (load_then_get only_ufo "UFO.png" () empty_cache empty_cache_wf) as H.
  destruct (Cache.load only_ufo "UFO.png" () empty_cache) as [res s'].
  exact (proj1 H).
Defined.

(** ** Pausing releases the keys *)

Lemma with_player_key_states (f : GameObject -> GameObject) (g g' : Game) :
  with_player f g = Done g' -> key_states g' = key_states g.
Proof.
  unfold with_player, player. destruct (objs spaceship g !! 0%nat); [|discriminate].
  cbn. intros H. inversion H. reflexivity.
Qed.

Lemma spawn_projectile_key_states (g g' : Game) :
  spawn_projectile g = Done g' -> key_states g' = key_states g.
Proof.
  unfold spawn_projectile, player, create_player_projectile.
  destruct (objs spaceship g !! 0%nat); [|discriminate]. cbn [deref mbind outcome_bind].
  destruct (textures g !! "Projectile01.png"); [|discriminate].
  cbn [ASSERT_GET mbind outcome_bind].
  unfold create_textured_quad_globject, create_textured_globject, create_audio_source.
  change (audios (set_al_names _ (set_gl_names _ g))) with (audios g).
  destruct (audios g !! "laser-14729.wav"); [|discriminate].
  cbn. intros H. inversion H. reflexivity.
Qed.

Lemma no_new_press_refl (g : Game) : no_new_press g g.
Proof. intros k H. exact H. Qed.

Lemma no_new_press_trans (g1 g2 g3 : Game) :
  no_new_press g1 g2 -> no_new_press g2 g3 -> no_new_press g1 g3.
Proof. intros H12 H23 k H. auto. Qed.

Lemma no_new_press_eq (g g' : Game) : key_states g' = key_states g -> no_new_press g g'.
Proof. intros E k H. rewrite <- E. exact H. Qed.

Lemma key_state_no_press (key : Z) (g : Game) : no_new_press g (snd (key_state key g)).
Proof.
  unfold key_state. destruct (key_states g !! key) eqn:E; cbn; [apply no_new_press_refl|].
  intros k H. cbn in H. rewrite lookup_insert in H.
  destruct (decide (key = k)); [discriminate|exact H].
Qed.

Lemma handler_body_no_press (dispatch : KeyHandler -> Game -> Z -> Z -> Z -> outcome Game)
    (h : KeyHandler) (g g' : Game) (key action mods : Z) :
  (forall h' g1 k a m g2, dispatch h' g1 k a m = Done g2 -> no_new_press g1 g2) ->
  handler_body dispatch h g key action mods = Done g' ->
  no_new_press g g'.
Proof.
  intros Hdisp. unfold handler_body.
  destruct h.
  - destruct (ASSERT _); cbn [mbind outcome_bind]; try discriminate.
    destruct (_ || _).
    + intros H. apply no_new_press_eq. eapply with_player_key_states; exact H.
    + destruct (action =? GLFW_RELEASE)%Z;
        [|intros H; inversion H; apply no_new_press_eq; reflexivity].
      pose proof (key_state_no_press
                    (if (key =? GLFW_KEY_LEFT)%Z then GLFW_KEY_RIGHT else GLFW_KEY_LEFT) g)
        as Hks.
      destruct (key_state _ g) as [other g1]. cbn [snd] in Hks.
      destruct other.
      * destruct (key_handlers g1 !! _); [|discriminate].
        intros H. apply Hdisp in H. eapply no_new_press_trans; eassumption.
      * intros H. apply with_player_key_states in H.
        eapply no_new_press_trans; [exact Hks|]. apply no_new_press_eq. exact H.
  - destruct (ASSERT _); cbn [mbind outcome_bind]; try discriminate.
    destruct (_ || _).
    + intros H. apply no_new_press_eq. eapply with_player_key_states; exact H.
    + destruct (action =? GLFW_RELEASE)%Z;
        [|intros H; inversion H; apply no_new_press_eq; reflexivity].
      pose proof (key_state_no_press
                    (if (key =? GLFW_KEY_UP)%Z then GLFW_KEY_DOWN else GLFW_KEY_UP) g)
        as Hks.
      destruct (key_state _ g) as [other g1]. cbn [snd] in Hks.
      destruct other.
      * destruct (key_handlers g1 !! _); [|discriminate].
        intros H. apply Hdisp in H. eapply no_new_press_trans; eassumption.
      * intros H. apply with_player_key_states in H.
        eapply no_new_press_trans; [exact Hks|]. apply no_new_press_eq. exact H.
  - destruct (ASSERT _); cbn [mbind outcome_bind]; try discriminate.
    destruct (action =? GLFW_PRESS)%Z.
    + destruct (spawn_projectile g) as [g1| |] eqn:Hs; cbn [mbind outcome_bind];
        try discriminate.
      intros H. inversion H. apply no_new_press_eq. cbn.
      eapply spawn_projectile_key_states; exact Hs.
    + destruct (action =? GLFW_RELEASE)%Z; intros H; inversion H; apply no_new_press_eq; reflexivity.
  - destruct (action =? GLFW_PRESS)%Z; intros H; inversion H; apply no_new_press_eq; reflexivity.
  - destruct (action =? GLFW_PRESS)%Z; intros H; inversion H; apply no_new_press_eq; reflexivity.
  - destruct (action =? GLFW_PRESS)%Z; intros H; inversion H; apply no_new_press_eq; reflexivity.
Qed.

Lemma run_handler_no_press (h : KeyHandler) (g g' : Game) (key action mods : Z) :
  run_handler h g key action mods = Done g' -> no_new_press g g'.
Proof.
  apply handler_body_no_press. intros h' g1 k a m g2.
  apply handler_body_no_press. intros; discriminate.
Qed.

Lemma release_key_releases (key : Z) (g g' : Game) :
  release_key key g = Done g' ->
  no_new_press g g' /\ key_states g' !! key <> Some true.
Proof.
  unfold release_key.
  destruct (key_states g !! key) as [[|]|] eqn:E;
    try (intros H; inversion H; subst; split; [apply no_new_press_refl|congruence]).
  set (g1 := set_key_states (<[key := false]> (key_states g)) g).
  assert (H1 : no_new_press g g1).
  { intros k H. cbn in H. rewrite lookup_insert in H.
    destruct (decide (key = k)); [discriminate|exact H]. }
  assert (H2 : key_states g1 !! key = Some false) by (cbn; apply lookup_insert_eq).
  destruct (key_handlers g1 !! key).
  - intros H. apply run_handler_no_press in H. split.
    + eapply no_new_press_trans; eassumption.
    + intros Hk. apply H in Hk. congruence.
  - intros H. inversion H; subst. split; [exact H1|congruence].
Qed.

Lemma release_keys_releases (keys : list Z) :
  forall g g' : Game,
  for_each release_key keys g = Done g' ->
  no_new_press g g' /\ forall k, k ∈ keys -> key_states g' !! k <> Some true.
Proof.
  induction keys as [|key rest IH]; intros g g' H; cbn [for_each] in H.
  - inversion H; subst. split; [apply no_new_press_refl|]. intros k Hk. inversion Hk.
  - destruct (release_key key g) as [g1| |] eqn:E; cbn [mbind outcome_bind] in H;
      try discriminate.
    apply release_key_releases in E as [H1 Hkey]. apply IH in H as [H2 Hrest].
    split; [eapply no_new_press_trans; eassumption|].
    intros k Hk. apply elem_of_cons in Hk as [->|Hk]; [|auto].
    intros Hdown. apply Hkey. apply H2. exact Hdown.
Qed.

(** X9: pausing a running game whose key handlers are the registered ones
    completes, sets the pause flag and leaves no key recorded as held
    down -- each key that was down has been released through its handler --
    while the scene is as before, but for the motion of the player. *)
Theorem game_pause_releases_all_keys (g : Game) :
  pause_ready g -> paused g = false ->
  exists g', game_pause g = Done g' /\ paused g' = true /\ all_keys_released g' /\
             pause_frame g' = pause_frame g.
Proof.
  intros Hready Hrun.
  destruct (game_pause_done g Hready) as (g' & Hpause & Hframe & Hpaused).
  exists g'. split; [exact Hpause|]. split; [exact Hpaused|]. split; [|exact Hframe].
  unfold game_pause in Hpause. rewrite Hrun in Hpause.
  destruct (for_each release_key _ g) as [g1| |] eqn:E; cbn in Hpause; try discriminate.
  inversion Hpause; subst. apply release_keys_releases in E as [Hno Hkeys].
  intros k Hk. change (key_states g1 !! k = Some true) in Hk.
  destruct (key_states g !! k) as [b|] eqn:Ek.
  - apply (Hkeys k); [|exact Hk].
    apply list_elem_of_fmap. exists (k, b). split; [reflexivity|].
    apply elem_of_map_to_list. exact Ek.
  - apply Hno in Hk. congruence.
Qed.

Lemma game_init_pause_ready : pause_ready game_init.
Proof. split; [vm_compute; reflexivity|vm_compute; discriminate]. Qed.

Lemma game_pause_releases_all_keys_witness :
  (pause_ready keys_held /\ paused keys_held = false /\
   key_states keys_held !! GLFW_KEY_LEFT = Some true) /\
  exists g', game_pause keys_held = Done g' /\ paused g' = true /\ all_keys_released g' /\
             pause_frame g' = pause_frame keys_held.
Proof.
  assert (Hready : pause_ready keys_held) by exact game_init_pause_ready.
  assert (Hrun : paused keys_held = false) by (vm_compute; reflexivity).
  assert (Hleft : key_states keys_held !! GLFW_KEY_LEFT = Some true)
    by (vm_compute; reflexivity).
  split; [exact (conj Hready (conj Hrun Hleft))|].
  exact (game_pause_releases_all_keys keys_held Hready Hrun).
Defined.

(** ** Steering by the arrow keys *)

Lemma key_down_insert (ks : gmap Z bool) (k k' : Z) (b : bool) :
  default false (<[k := b]> ks !! k') = if (k =? k')%Z then b else default false (ks !! k').
Proof.
  rewrite lookup_insert. destruct (decide (k = k')) as [->|Hne].
  - rewrite Z.eqb_refl. reflexivity.
  - apply Z.eqb_neq in Hne. rewrite Hne. reflexivity.
Qed.

Lemma key_event_keeps_steering (key action mods : Z) (g : Game) :
  input_ready g -> steering_consistent g ->
  exists g', key_event_callback key action mods g = Done g' /\
             input_ready g' /\ steering_consistent g'.
Proof.
  intros (Hk & [tex Htex] & [wav Hwav]) (p & Hp & Hx & Hy).
  unfold key_event_callback.
  destruct (negb _ && negb _) eqn:Hact.
  { exists g. split; [reflexivity|]. split; [repeat split; eauto|exists p; auto]. }
  cut (exists g',
    (g1 ← match key_handlers g !! key with
          | Some handler => run_handler handler g key action mods
          | None => mret g
          end;
     mret (set_key_states (<[key := (action =? GLFW_PRESS)%Z]> (key_states g1)) g1)) = Done g' /\
    (key_handlers g' = key_handlers g /\ textures g' = textures g /\ audios g' = audios g) /\
    steering_consistent g').
  { intros (g' & Hg' & (E1 & E2 & E3) & Hs). exists g'. split; [exact Hg'|].
    split; [|exact Hs]. unfold input_ready. rewrite E1, E2, E3. eauto. }
  unfold steering_consistent, key_down in *.
  destruct g as [? ? ? ? ? ? [[bg sh pj ex gu tx]] au te kh ks ? ? ? ? ? ?].
  cbn in Hk, Htex, Hwav, Hp, Hx, Hy.
  destruct sh as [|p' rest]; [discriminate|]. cbn in Hp. inversion Hp; subst p'; clear Hp.
  cbn [key_handlers textures audios].
  assert (Hl : kh !! GLFW_KEY_LEFT = Some key_left_right_handler)
    by (rewrite Hk; vm_compute; reflexivity).
  assert (Hr : kh !! GLFW_KEY_RIGHT = Some key_left_right_handler)
    by (rewrite Hk; vm_compute; reflexivity).
  assert (Hu : kh !! GLFW_KEY_UP = Some key_up_down_handler)
    by (rewrite Hk; vm_compute; reflexivity).
  assert (Hd : kh !! GLFW_KEY_DOWN = Some key_up_down_handler)
    by (rewrite Hk; vm_compute; reflexivity).
  destruct (kh !! key) as [h|] eqn:Hh.
  - rewrite Hk in Hh. apply init_key_handlers_lookup in Hh. clear Hk.
    destruct (action =? GLFW_PRESS)%Z eqn:Hpress;
      [|destruct (action =? GLFW_RELEASE)%Z eqn:Hrel; [|discriminate]].
    + assert (Hrel : (action =? GLFW_RELEASE)%Z = false).
      { apply Z.eqb_eq in Hpress. subst. reflexivity. }
      destruct Hh as [[-> ->]|[[-> ->]|[[-> ->]|[[-> ->]|[[-> ->]|[[-> ->]|[[-> ->]|[-> ->]]]]]]]].
      * exec_handler. finish_event key_down_insert.
      * exec_handler. finish_event key_down_insert.
      * exec_handler. finish_event key_down_insert.
      * exec_handler. finish_event key_down_insert.
      * unfold run_handler, handler_body, spawn_projectile, create_player_projectile, player.
        repeat (cbn; known_lookups). finish_event key_down_insert.
      * exec_handler. finish_event key_down_insert.
      * exec_handler. finish_event key_down_insert.
      * exec_handler. finish_event key_down_insert.
    + assert (Hrep : (action =? GLFW_REPEAT)%Z = false).
      { apply Z.eqb_eq in Hrel. subst. reflexivity. }
      destruct Hh as [[-> ->]|[[-> ->]|[[-> ->]|[[-> ->]|[[-> ->]|[[-> ->]|[[-> ->]|[-> ->]]]]]]]].
      * destruct (ks !! GLFW_KEY_RIGHT) as [[|]|] eqn:Er; exec_handler; finish_event key_down_insert.
      * destruct (ks !! GLFW_KEY_LEFT) as [[|]|] eqn:El; exec_handler; finish_event key_down_insert.
      * destruct (ks !! GLFW_KEY_DOWN) as [[|]|] eqn:Ed; exec_handler; finish_event key_down_insert.
      * destruct (ks !! GLFW_KEY_UP) as [[|]|] eqn:Eu; exec_handler; finish_event key_down_insert.
      * exec_handler. finish_event key_down_insert.
      * exec_handler. finish_event key_down_insert.
      * exec_handler. finish_event key_down_insert.
      * exec_handler. finish_event key_down_insert.
  - 
    assert (Hne : key <> GLFW_KEY_LEFT /\ key <> GLFW_KEY_RIGHT /\
                  key <> GLFW_KEY_UP /\ key <> GLFW_KEY_DOWN).
    { repeat split; intros ->; congruence. }
    destruct Hne as (N1 & N2 & N3 & N4).
    cbn. eexists. split; [reflexivity|]. split; [cbn; auto|].
    cbn. exists p. split; [reflexivity|].
    rewrite !lookup_insert_ne by assumption. split; assumption.
Qed.

Lemma release_key_keeps_steering (key : Z) (g : Game) :
  input_ready g -> steering_consistent g ->
  exists g', release_key key g = Done g' /\ input_ready g' /\ steering_consistent g'.
Proof.
  intros (Hk & [tex Htex] & [wav Hwav]) (p & Hp & Hx & Hy).
  unfold release_key.
  destruct (key_states g !! key) as [[|]|] eqn:Hdown;
    try (exists g; split; [reflexivity|]; split; [repeat split; eauto|exists p; auto]).
  cut (exists g',
    (let g1 := set_key_states (<[key := false]> (key_states g)) g in
     match key_handlers g1 !! key with
     | Some handler => run_handler handler g1 key GLFW_RELEASE 0%Z
     | None => mret g1
     end) = Done g' /\
    (key_handlers g' = key_handlers g /\ textures g' = textures g /\ audios g' = audios g) /\
    steering_consistent g').
  { intros (g' & Hg' & (E1 & E2 & E3) & Hs). exists g'. split; [exact Hg'|].
    split; [|exact Hs]. unfold input_ready. rewrite E1, E2, E3. eauto. }
  unfold steering_consistent, key_down in *.
  destruct g as [? ? ? ? ? ? [[bg sh pj ex gu tx]] au te kh ks ? ? ? ? ? ?].
  cbn in Hk, Htex, Hwav, Hp, Hx, Hy, Hdown.
  destruct sh as [|p' rest]; [discriminate|]. cbn in Hp. inversion Hp; subst p'; clear Hp.
  cbn [key_handlers textures audios set_key_states].
  assert (Hl : kh !! GLFW_KEY_LEFT = Some key_left_right_handler)
    by (rewrite Hk; vm_compute; reflexivity).
  assert (Hr : kh !! GLFW_KEY_RIGHT = Some key_left_right_handler)
    by (rewrite Hk; vm_compute; reflexivity).
  assert (Hu : kh !! GLFW_KEY_UP = Some key_up_down_handler)
    by (rewrite Hk; vm_compute; reflexivity).
  assert (Hd : kh !! GLFW_KEY_DOWN = Some key_up_down_handler)
    by (rewrite Hk; vm_compute; reflexivity).
  destruct (kh !! key) as [h|] eqn:Hh.
  - rewrite Hk in Hh. apply init_key_handlers_lookup in Hh. clear Hk.
    destruct Hh as [[-> ->]|[[-> ->]|[[-> ->]|[[-> ->]|[[-> ->]|[[-> ->]|[[-> ->]|[-> ->]]]]]]]].
    + destruct (ks !! GLFW_KEY_RIGHT) as [[|]|] eqn:Er; exec_handler;
        rewrite ?lookup_insert_ne by (vm_compute; discriminate); exec_handler; finish_event key_down_insert.
    + destruct (ks !! GLFW_KEY_LEFT) as [[|]|] eqn:El; exec_handler;
        rewrite ?lookup_insert_ne by (vm_compute; discriminate); exec_handler; finish_event key_down_insert.
    + destruct (ks !! GLFW_KEY_DOWN) as [[|]|] eqn:Ed; exec_handler;
        rewrite ?lookup_insert_ne by (vm_compute; discriminate); exec_handler; finish_event key_down_insert.
    + destruct (ks !! GLFW_KEY_UP) as [[|]|] eqn:Eu; exec_handler;
        rewrite ?lookup_insert_ne by (vm_compute; discriminate); exec_handler; finish_event key_down_insert.
    + exec_handler. finish_event key_down_insert.
    + exec_handler. finish_event key_down_insert.
    + exec_handler. finish_event key_down_insert.
    + exec_handler. finish_event key_down_insert.
  - assert (Hne : key <> GLFW_KEY_LEFT /\ key <> GLFW_KEY_RIGHT /\
                  key <> GLFW_KEY_UP /\ key <> GLFW_KEY_DOWN).
    { repeat split; intros ->; congruence. }
    destruct Hne as (N1 & N2 & N3 & N4).
    cbn. eexists. split; [reflexivity|]. split; [cbn; auto|].
    cbn. exists p. split; [reflexivity|].
    rewrite !lookup_insert_ne by assumption. split; assumption.
Qed.

Lemma release_keys_keep_steering (keys : list Z) :
  forall g : Game,
  input_ready g -> steering_consistent g ->
  exists g', for_each release_key keys g = Done g' /\ input_ready g' /\
             steering_consistent g'.
Proof.
  induction keys as [|key rest IH]; intros g Hr Hs; cbn [for_each].
  - exists g. auto.
  - destruct (release_key_keeps_steering key g Hr Hs) as (g1 & E & Hr1 & Hs1).
    rewrite E. cbn [mbind outcome_bind]. apply IH; assumption.
Qed.

Lemma deliver_keeps_steering (e : Event) (g : Game) :
  input_ready g -> steering_consistent g ->
  exists g', deliver e g = Done g' /\ input_ready g' /\ steering_consistent g'.
Proof.
  intros Hr Hs. destruct e as [key action mods|focused|xpos ypos]; cbn [deliver].
  - apply key_event_keeps_steering; assumption.
  - unfold window_focus_callback, game_resume, game_pause. destruct focused.
    + destruct (negb (paused g)); eexists; (split; [reflexivity|]); auto.
    + destruct (paused g); [exists g; auto|].
      destruct (release_keys_keep_steering (map_to_list (key_states g)).*1 g Hr Hs)
        as (g1 & E & Hr1 & Hs1).
      rewrite E. cbn [mbind outcome_bind]. eexists. split; [reflexivity|]. auto.
  - eexists. split; [reflexivity|]. auto.
Qed.

(** X10: whatever events one poll delivers -- key presses and releases,
    focus changes, cursor moves -- handling them completes and keeps the
    acceleration of the player in line with the arrow keys held down:
    none along an axis whose two keys are up, towards the one key that is
    down otherwise. *)
Theorem poll_events_keeps_steering (pending : list Event) :
  forall g : Game,
  input_ready g -> steering_consistent g ->
  exists g', glfwPollEvents pending g = Done g' /\ input_ready g' /\
             steering_consistent g'.
Proof.
  unfold glfwPollEvents.
  induction pending as [|e rest IH]; intros g Hr Hs; cbn [for_each].
  - exists g. auto.
  - destruct (deliver_keeps_steering e g Hr Hs) as (g1 & E & Hr1 & Hs1).
    rewrite E. cbn [mbind outcome_bind]. apply IH; assumption.
Qed.

Lemma game_init_input_ready : input_ready game_init.
Proof.
  split; [vm_compute; reflexivity|].
  split; eexists; vm_compute; reflexivity.
Qed.

Lemma game_init_steering : steering_consistent game_init.
Proof.
  eexists. split; [vm_compute; reflexivity|].
  split; vm_compute; reflexivity.
Qed.

Lemma poll_events_keeps_steering_witness :
  (input_ready game_init /\ steering_consistent game_init) /\
  exists g', glfwPollEvents some_events game_init = Done g' /\ input_ready g' /\
             steering_consistent g'.
Proof.
  split; [exact (conj game_init_input_ready game_init_steering)|].
  exact (poll_events_keeps_steering some_events game_init
           game_init_input_ready game_init_steering).
Defined.

(** ** Firing *)

(** X11: pressing the space bar, with the projectile assets loaded and a
    player in the scene, appends exactly two projectiles to the projectile
    layer, left and right of the player and 0.125 above it; both carry a
    bounding box, they share one GL object and one sound source, which is
    playing, and the repeating fire action is registered under key 0.
    Releasing the space bar removes that action and no projectile. *)
Theorem space_press_fires_two (g : Game) (p : GameObject) (mods : Z) :
  input_ready g -> objs spaceship g !! 0%nat = Some p ->
  exists g1 g2 p1 p2 s,
    key_event_callback GLFW_KEY_SPACE GLFW_PRESS mods g = Done g1 /\
    objs projectile g1 = objs projectile g ++ [p1; p2] /\
    (is_Some (aabb p1) /\ is_Some (aabb p2) /\ glo p1 = glo p2) /\
    (sound p1 = Some s /\ sound p2 = Some s /\ is_playing s g1 = true) /\
    (glm.x (position (transform p1)) == glm.x (position (transform p)) - 0.057 /\
     glm.x (position (transform p2)) == glm.x (position (transform p)) + 0.062 /\
     glm.y (position (transform p1)) == glm.y (position (transform p)) + 0.125 /\
     glm.y (position (transform p2)) == glm.y (position (transform p)) + 0.125) /\
    (exists ta, timed_actions g1 !! 0%Z = Some ta /\ tick_dt ta == 0 /\
                ta_duration ta == 0.15 /\ action ta = ActionSpawnProjectile) /\
    key_event_callback GLFW_KEY_SPACE GLFW_RELEASE mods g1 = Done g2 /\
    timed_actions g2 !! 0%Z = None /\
    objs projectile g2 = objs projectile g1.
Proof.
  intros (Hk & [tex Htex] & [wav Hwav]) Hp.
  destruct g as [? ? ? ? ? ? [[bg sh pj ex gu tx]] au te kh ks ? ? ? ? ? ?].
  cbn in Htex, Hwav, Hp.
  destruct sh as [|p' rest]; [discriminate|]. cbn in Hp. inversion Hp; subst p'; clear Hp.
  cbn in Hk.
  assert (Hs : kh !! GLFW_KEY_SPACE = Some key_space_handler)
    by (rewrite Hk; vm_compute; reflexivity).
  unfold key_event_callback. cbn [key_handlers]. rewrite Hs.
  unfold run_handler, handler_body, spawn_projectile, create_player_projectile, player.
  repeat (cbn; known_lookups).
  do 5 eexists. split; [reflexivity|].
  split.
  { unfold objs; cbn. repeat (destruct (decide _); [|congruence]).
    rewrite <- app_assoc. reflexivity. }
  split; [cbn; eauto|].
  split; [split; [reflexivity|split; [reflexivity|]]|].
  { unfold is_playing. cbn. apply bool_decide_eq_true. set_solver. }
  split; [cbn; repeat split; lra|].
  split; [eexists; split; [cbn; apply lookup_insert_eq|cbn; repeat split; lra]|].
  unfold run_handler, handler_body.
  repeat (cbn; known_lookups).
  split; [reflexivity|]. split; [|reflexivity].
  cbn. rewrite lookup_delete_eq. reflexivity.
Qed.

Lemma space_press_fires_two_witness :
  (input_ready game_init /\ objs spaceship game_init !! 0%nat = Some first_ship) /\
  exists g1, key_event_callback GLFW_KEY_SPACE GLFW_PRESS 0 game_init = Done g1 /\
             length (objs projectile g1) = 2%nat.
Proof.
  assert (H0 : objs spaceship game_init !! 0%nat = Some first_ship)
    by (vm_compute; reflexivity).
  split; [exact (conj game_init_input_ready H0)|].
  destruct (space_press_fires_two game_init first_ship 0 game_init_input_ready H0)
    as (g1 & g2 & p1 & p2 & s & E & Hl & _).
  exists g1. split; [exact E|].
  rewrite Hl. change (objs projectile game_init) with (@nil GameObject). reflexivity.
Defined.

(** ** The erasing system *)

Lemma update_erasing_layer (g : Game) (l : Layer) :
  objs l (update_erasing g) = List.filter (fun obj => negb (erased g obj)) (objs l g).
Proof. destruct l; reflexivity. Qed.

Lemma erased_kept (g : Game) (obj : GameObject) : erased g obj = false <-> kept g obj.
Proof.
  unfold erased, kept. split.
  - destruct (delay_erasing obj) as [d|]; [|auto].
    destruct (sound obj) as [s|]; [|discriminate].
    intros H. apply negb_false_iff, andb_true_iff in H as [H1 H2]. right. eauto 8.
  - intros [->|(d & s & -> & Hd & -> & Hs)]; [reflexivity|].
    rewrite Hd, Hs. reflexivity.
Qed.

Lemma List_filter_sublist {A} (f : A -> bool) (l : list A) : List.filter f l `sublist_of` l.
Proof.
  induction l as [|a l IH]; cbn; [constructor|].
  destruct (f a); [apply sublist_skip|apply sublist_cons]; exact IH.
Qed.

Lemma List_filter_idemp {A} (f : A -> bool) (l : list A) :
  List.filter f (List.filter f l) = List.filter f l.
Proof.
  induction l as [|a l IH]; cbn; [reflexivity|].
  destruct (f a) eqn:E; cbn; rewrite ?E, IH; reflexivity.
Qed.

(** X12: the erasing system keeps, in every layer and in their order,
    exactly the objects that are not marked for erasure or whose mark
    waits for a sound that is still playing; a second pass right after
    the first removes nothing more. *)
Theorem update_erasing_survivors (g : Game) (l : Layer) :
  (forall obj, obj ∈ objs l (update_erasing g) <-> obj ∈ objs l g /\ kept g obj) /\
  objs l (update_erasing g) `sublist_of` objs l g /\
  update_erasing (update_erasing g) = update_erasing g.
Proof.
  split; [|split].
  - intros obj. rewrite update_erasing_layer, !list_elem_of_In, filter_In.
    rewrite negb_true_iff, erased_kept. reflexivity.
  - rewrite update_erasing_layer. apply List_filter_sublist.
  - unfold update_erasing at 1 3.
    change (foldl (fun o l0 => erase_layer ?h l0 o) ?o all_lists)
      with {| l_background := List.filter (fun obj => negb (erased h obj)) (l_background o);
              l_spaceship := List.filter (fun obj => negb (erased h obj)) (l_spaceship o);
              l_projectile := List.filter (fun obj => negb (erased h obj)) (l_projectile o);
              l_explosion := List.filter (fun obj => negb (erased h obj)) (l_explosion o);
              l_gui := List.filter (fun obj => negb (erased h obj)) (l_gui o);
              l_text := List.filter (fun obj => negb (erased h obj)) (l_text o) |}.
    change (erased (update_erasing g)) with (erased g).
    change (l_background (objects (scene (update_erasing g))))
      with (objs background (update_erasing g)).
    change (l_spaceship (objects (scene (update_erasing g))))
      with (objs spaceship (update_erasing g)).
    change (l_projectile (objects (scene (update_erasing g))))
      with (objs projectile (update_erasing g)).
    change (l_explosion (objects (scene (update_erasing g))))
      with (objs explosion (update_erasing g)).
    change (l_gui (objects (scene (update_erasing g)))) with (objs gui (update_erasing g)).
    change (l_text (objects (scene (update_erasing g)))) with (objs text (update_erasing g)).
    rewrite !update_erasing_layer, !List_filter_idemp. reflexivity.
Qed.


(** ** The per-object systems *)

Lemma screen_bound_system_inside (screen : Aabb) (obj : GameObject) :
  ordered screen -> screen_bound obj <> None ->
  inside screen (position (transform (screen_bound_system screen obj))).
Proof.
  intros [Hx Hy] Hsb. unfold screen_bound_system, inside.
  destruct (screen_bound obj); [|congruence]. cbn.
  destruct (Qltb (glm.x _) _) eqn:E1, (Qltb (glm.y _) _) eqn:E2;
    try apply Qltb_lt in E1; try apply Qltb_ge in E1;
    try apply Qltb_lt in E2; try apply Qltb_ge in E2;
    destruct (Qgtb _ (glm.x (max screen))) eqn:E3, (Qgtb _ (glm.y (max screen))) eqn:E4;
    try apply Qgtb_gt in E3; try apply Qltb_ge in E3;
    try apply Qgtb_gt in E4; try apply Qltb_ge in E4;
    lra.
Qed.

Lemma sprite_system_keeps (dt : Q) (obj obj' : GameObject) :
  sprite_system dt obj = Done obj' ->
  aabb obj' = aabb obj /\ offscreen_destroy obj' = offscreen_destroy obj /\
  screen_bound obj' = screen_bound obj /\
  match sprite_animation obj with
  | Some sa => exists sa', update_frame sa dt = Done sa' /\ sprite_animation obj' = Some sa'
  | None => sprite_animation obj' = None
  end.
Proof.
  unfold sprite_system. destruct (sprite_animation obj) as [sa|] eqn:E.
  - destruct (update_frame sa dt) as [sa'| |]; cbn; try discriminate.
    unfold retire. change (delay_erasing (set_sprite_animation (Some sa') obj))
      with (delay_erasing obj).
    destruct (expired sa'), (delay_erasing obj); intros H; inversion H; subst; cbn;
      eauto 8.
  - intros H. inversion H; subst. auto.
Qed.

Lemma custom_update_keeps_more (lm : Libm) (dt time : Q) (obj : GameObject) :
  screen_bound (custom_update_system lm dt time obj) = screen_bound obj /\
  sprite_animation (custom_update_system lm dt time obj) = sprite_animation obj.
Proof.
  unfold custom_update_system. destruct (update obj) as [[]|]; split; reflexivity.
Qed.

Lemma offscreen_system_keeps (lm : Libm) (screen : Aabb) (obj obj' : GameObject) :
  offscreen_system lm screen obj = Done obj' ->
  aabb obj' = aabb obj /\ offscreen_destroy obj' = offscreen_destroy obj /\
  screen_bound obj' = screen_bound obj /\ sprite_animation obj' = sprite_animation obj /\
  transform obj' = transform obj.
Proof.
  unfold offscreen_system.
  destruct (offscreen_destroy obj) eqn:Eo; [|intros H; inversion H; subst; auto 6].
  destruct (aabb obj) eqn:Ea; cbn; [|discriminate].
  destruct (negb _); [destruct (delay_erasing obj) eqn:Ed|]; intros H; inversion H; subst;
    cbn; auto 6.
Qed.

Lemma update_object_keeps (lm : Libm) (screen : Aabb) (dt time : Q) (obj obj' : GameObject) :
  update_object lm screen dt time obj = Done obj' ->
  aabb obj' = aabb obj /\ offscreen_destroy obj' = offscreen_destroy obj /\
  screen_bound obj' = screen_bound obj /\
  match sprite_animation obj with
  | Some sa => exists sa', update_frame sa dt = Done sa' /\ sprite_animation obj' = Some sa'
  | None => sprite_animation obj' = None
  end /\
  exists obj4, screen_bound obj4 = screen_bound obj /\
               obj' = screen_bound_system screen obj4.
Proof.
  unfold update_object.
  destruct (sprite_system dt (motion_system dt obj)) as [obj2| |] eqn:E2; cbn; try discriminate.
  destruct (offscreen_system lm screen _) as [obj4| |] eqn:E4; cbn; try discriminate.
  intros H. inversion H; subst. clear H.
  apply sprite_system_keeps in E2 as (A2 & O2 & S2 & P2).
  apply offscreen_system_keeps in E4 as (A4 & O4 & S4 & P4 & _).
  destruct (custom_update_keeps lm dt time obj2) as [A3 O3].
  destruct (custom_update_keeps_more lm dt time obj2) as [S3 P3].
  change (sprite_animation (motion_system dt obj)) with (sprite_animation obj) in P2.
  change (aabb (motion_system dt obj)) with (aabb obj) in A2.
  change (offscreen_destroy (motion_system dt obj)) with (offscreen_destroy obj) in O2.
  change (screen_bound (motion_system dt obj)) with (screen_bound obj) in S2.
  assert (K : forall o, aabb (screen_bound_system screen o) = aabb o /\
                        offscreen_destroy (screen_bound_system screen o) = offscreen_destroy o /\
                        screen_bound (screen_bound_system screen o) = screen_bound o /\
                        sprite_animation (screen_bound_system screen o) = sprite_animation o).
  { intros o. unfold screen_bound_system. destruct (screen_bound o) eqn:E; cbn; auto. }
  destruct (K obj4) as (A5 & O5 & S5 & P5).
  split; [congruence|]. split; [congruence|]. split; [congruence|]. split.
  - destruct (sprite_animation obj).
    + destruct P2 as (sa' & Hsa' & Hobj2). exists sa'. split; [exact Hsa'|]. congruence.
    + congruence.
  - exists obj4. split; [congruence|reflexivity].
Qed.

Lemma update_object_updatable (lm : Libm) (screen : Aabb) (dt time : Q)
    (obj obj' : GameObject) :
  updatable obj -> update_object lm screen dt time obj = Done obj' -> updatable obj'.
Proof.
  intros [Hsa Hoff] H. apply update_object_keeps in H as (A & O & _ & P & _).
  split.
  - destruct (sprite_animation obj) as [sa|].
    + destruct P as (sa' & Hrun & ->).
      destruct (update_frame_cases sa dt Hsa) as (sa'' & f & Hrun' & _ & Hin & _).
      congruence.
    + rewrite P. exact I.
  - rewrite A, O. exact Hoff.
Qed.

(** X13: an object that is bound to the screen ends every update inside
    the screen box, borders included, whatever its motion, its animation
    or its update function did to its position before (the screen box
    being an ordered one). *)
Theorem update_object_keeps_on_screen (lm : Libm) (screen : Aabb) (dt time : Q)
    (obj : GameObject) :
  updatable obj -> ordered screen -> screen_bound obj <> None ->
  exists obj', update_object lm screen dt time obj = Done obj' /\
               inside screen (position (transform obj')).
Proof.
  intros Hok Hscreen Hsb.
  destruct (update_object_done lm screen dt time obj Hok) as [obj' Hrun].
  exists obj'. split; [exact Hrun|].
  apply update_object_keeps in Hrun as (_ & _ & _ & _ & obj4 & S4 & ->).
  apply screen_bound_system_inside; [exact Hscreen|congruence].
Qed.

Lemma update_object_keeps_on_screen_witness :
  (updatable runaway /\ ordered (screen_aabb game_init) /\ screen_bound runaway <> None) /\
  exists obj', update_object libm_at_zero (screen_aabb game_init) timestep 0 runaway
               = Done obj' /\
               inside (screen_aabb game_init) (position (transform obj')).
Proof.
  assert (H1 : updatable runaway) by (split; [vm_compute; lia|vm_compute; discriminate]).
  assert (H2 : ordered (screen_aabb game_init)) by (split; vm_compute; discriminate).
  assert (H3 : screen_bound runaway <> None) by (vm_compute; discriminate).
  split; [exact (conj H1 (conj H2 H3))|].
  exact (update_object_keeps_on_screen libm_at_zero (screen_aabb game_init) timestep 0
           runaway H1 H2 H3).
Defined.

Lemma update_objects_from_pointwise (lm : Libm) (screen : Aabb) (dt time : Q) (l : Layer)
    (os : list GameObject) :
  forall (i : nat) (visited : list (Layer * nat)) os' visited',
  update_objects_from lm screen dt time l i os visited = Done (os', visited') ->
  Forall2 (updated_to lm screen dt time) os os'.
Proof.
  induction os as [|obj rest IH]; intros i visited os' visited' H; cbn in H.
  - inversion H; subst. constructor.
  - destruct (update_object lm screen dt time obj) as [obj'| |] eqn:E; cbn in H;
      try discriminate.
    destruct (update_objects_from lm screen dt time l (S i) rest _)
      as [[rest' v']| |] eqn:Er; cbn in H; try discriminate.
    inversion H; subst. constructor; [exact E|]. eapply IH. exact Er.
Qed.

Lemma outside_scene_set_objs (l : Layer) (v : list GameObject) (g : Game) :
  outside_scene (set_objs l v g) = outside_scene g.
Proof. reflexivity. Qed.

Lemma update_layers_pointwise (lm : Libm) (dt time : Q) (ls : list Layer) :
  forall (g : Game) (visited : list (Layer * nat)) g' visited',
  NoDup ls ->
  for_each (fun l '(g', visited) =>
              '(objs', visited') ←
                update_objects_from lm (screen_aabb g') dt time l 0 (objs l g') visited;
              mret (set_objs l objs' g', visited'))
           ls (g, visited) = Done (g', visited') ->
  (forall l, l ∈ ls ->
             Forall2 (updated_to lm (screen_aabb g) dt time) (objs l g) (objs l g')) /\
  (forall l, l ∉ ls -> objs l g' = objs l g) /\
  outside_scene g' = outside_scene g.
Proof.
  induction ls as [|l rest IH]; intros g visited g' visited' Hnd H.
  - cbn in H. inversion H; subst. split; [|auto]. intros l Hl. inversion Hl.
  - apply NoDup_cons in Hnd as [Hl Hnd]. cbn [for_each] in H.
    unfold mbind at 1, outcome_bind at 1 in H.
    destruct (update_objects_from lm (screen_aabb g) dt time l 0 (objs l g) visited)
      as [[os' v1]| |] eqn:E; cbn [mbind outcome_bind mret outcome_ret] in H;
      try discriminate.
    apply IH in H as (Hin & Hout & Hrest); [|exact Hnd].
    apply update_objects_from_pointwise in E.
    split; [|split].
    + intros l' Hl'. apply elem_of_cons in Hl' as [->|Hl'].
      * rewrite (Hout l Hl), objs_set_objs_eq. exact E.
      * specialize (Hin l' Hl').
        rewrite objs_set_objs_ne in Hin by (intros ->; contradiction). exact Hin.
    + intros l' Hl'. apply not_elem_of_cons in Hl' as [Hne Hl'].
      rewrite (Hout l' Hl'). apply objs_set_objs_ne. exact Hne.
    + rewrite Hrest. apply outside_scene_set_objs.
Qed.

Lemma update_all_objects_spec (lm : Libm) (dt time : Q) (g : Game) :
  (forall l, Forall updatable (objs l g)) ->
  exists g',
    update_all_objects lm dt time g = Done g' /\
    (forall l, Forall2 (updated_to lm (screen_aabb g) dt time) (objs l g) (objs l g')) /\
    (forall l, Forall updatable (objs l g')) /\
    outside_scene g' = outside_scene g.
Proof.
  intros Hok. unfold update_all_objects, update_all_objects_traced.
  assert (Hnd : NoDup all_lists) by (apply (bool_decide_unpack _); vm_compute; exact I).
  destruct (update_layers_trace lm dt time all_lists g [] Hnd) as (g' & Hrun).
  { intros l _. apply Hok. }
  rewrite Hrun. exists g'. split; [reflexivity|].
  apply update_layers_pointwise in Hrun as (Hin & _ & Hrest); [|exact Hnd].
  assert (Hall : forall l, l ∈ all_lists) by (intros []; apply list_elem_of_In; cbn; tauto).
  split; [intros l; apply Hin, Hall|]. split; [|exact Hrest].
  intros l. specialize (Hin l (Hall l)). specialize (Hok l).
  revert Hok. induction Hin as [|o o' os os' Ho Hos IH]; intros Hok; [constructor|].
  inversion Hok; subst. constructor; [|apply IH; assumption].
  eapply update_object_updatable; eassumption.
Qed.

(** X14: on a scene whose objects can all be updated, the loop Update all
    objects completes; it runs the per-object systems once on every
    object, in place -- no layer gains, loses or reorders objects -- and
    touches nothing of the game outside the scene; every object can be
    updated again afterwards. *)
Theorem update_all_objects_pointwise (lm : Libm) (dt time : Q) (g : Game) :
  (forall l, Forall updatable (objs l g)) ->
  exists g',
    update_all_objects lm dt time g = Done g' /\
    (forall l, Forall2 (updated_to lm (screen_aabb g) dt time) (objs l g) (objs l g')) /\
    (forall l, Forall updatable (objs l g')) /\
    outside_scene g' = outside_scene g.
Proof. exact (update_all_objects_spec lm dt time g). Qed.

Lemma update_all_objects_pointwise_witness :
  (forall l, Forall updatable (objs l game_init)) /\
  exists g', update_all_objects libm_at_zero timestep 0 game_init = Done g' /\
             (forall l, Forall updatable (objs l g')).
Proof.
  split; [exact game_init_updatable|].
  destruct (update_all_objects_pointwise libm_at_zero timestep 0 game_init
              game_init_updatable) as (g' & Hrun & _ & Hok & _).
  exists g'. exact (conj Hrun Hok).
Defined.

(** ** The collision passes when nothing overlaps *)

Lemma hit_projectile_idle (lm : Libm) (j i : nat) (g : Game) (proj ship : GameObject) :
  objs projectile g !! i = Some proj -> objs spaceship g !! j = Some ship ->
  has_aabb proj -> has_aabb ship -> overlapb lm proj ship = false ->
  hit_projectile lm j i g = Done g.
Proof.
  intros Hp Hs Hpb Hsb Hover. unfold hit_projectile, overlapb, has_aabb in *.
  rewrite Hp, Hs. cbn [deref mbind outcome_bind].
  destruct (aabb proj) as [pb|]; [|congruence].
  destruct (aabb ship) as [sb|]; [|congruence].
  cbn [deref mbind outcome_bind]. rewrite Hover. reflexivity.
Qed.

Lemma hit_player_idle (lm : Libm) (j : nat) (g : Game) (pl en : GameObject) :
  objs spaceship g !! 0%nat = Some pl -> objs spaceship g !! j = Some en ->
  has_aabb pl -> has_aabb en -> overlapb lm pl en = false ->
  hit_player lm j g = Done g.
Proof.
  intros Hp Hs Hpb Hsb Hover. unfold hit_player, overlapb, has_aabb in *.
  rewrite Hp, Hs. cbn [deref mbind outcome_bind].
  destruct (aabb pl) as [pb|]; [|congruence].
  destruct (aabb en) as [sb|]; [|congruence].
  cbn [deref mbind outcome_bind]. rewrite Hover. reflexivity.
Qed.

Lemma for_each_idle {A S} (body : A -> S -> outcome S) (xs : list A) (s : S) :
  (forall a, a ∈ xs -> body a s = Done s) -> for_each body xs s = Done s.
Proof.
  induction xs as [|a rest IH]; intros H; cbn [for_each]; [reflexivity|].
  rewrite (H a) by left. cbn [mbind outcome_bind].
  apply IH. intros b Hb. apply H. right. exact Hb.
Qed.

(** X15: when every projectile and every spaceship carries a bounding box
    and neither a projectile nor the player overlaps any other spaceship,
    both collision passes complete and leave the game exactly as it was:
    no explosion, no damage, no pause. *)
Theorem collision_passes_idle (lm : Libm) (g : Game) (pl : GameObject)
    (enemies : list GameObject) :
  objs spaceship g = pl :: enemies ->
  Forall has_aabb (objs projectile g) -> Forall has_aabb (pl :: enemies) ->
  clear_of lm (pl :: objs projectile g) enemies ->
  projectile_spaceship_collision lm g = Done g /\ player_enemy_collision lm g = Done g.
Proof.
  intros Hs Hpa Hsa Hclear.
  assert (Hen : forall j, j ∈ seq 1 (length enemies) ->
                exists en, objs spaceship g !! j = Some en /\ has_aabb en /\
                           Forall (fun a => overlapb lm a en = false)
                                  (pl :: objs projectile g)).
  { intros j Hj. apply elem_of_seq in Hj as [Hj1 Hj2].
    destruct (lookup_lt_is_Some_2 enemies (j - 1)) as [en Hen]; [lia|].
    exists en. split; [|split].
    - rewrite Hs. replace j with (S (j - 1)) by lia. exact Hen.
    - inversion Hsa as [|? ? _ Hrest]; subst.
      eapply Forall_lookup_1 in Hrest; eassumption.
    - eapply Forall_impl; [exact Hclear|].
      intros a Ha. eapply Forall_lookup_1 in Ha; eassumption. }
  split.
  - unfold projectile_spaceship_collision. rewrite Hs.
    apply for_each_idle. intros j Hj.
    destruct (Hen j Hj) as (en & Hj' & Hb & Hfree).
    apply for_each_idle. intros i Hi. apply elem_of_seq in Hi as [_ Hi].
    destruct (lookup_lt_is_Some_2 (objs projectile g) i) as [proj Hproj]; [lia|].
    apply (hit_projectile_idle lm j i g proj en Hproj Hj').
    + eapply Forall_lookup_1 in Hpa; eassumption.
    + exact Hb.
    + inversion Hfree as [|? ? _ Hrest]; subst.
      eapply Forall_lookup_1 in Hrest; eassumption.
  - unfold player_enemy_collision. destruct (paused g); [reflexivity|]. rewrite Hs.
    apply for_each_idle. intros j Hj.
    destruct (Hen j Hj) as (en & Hj' & Hb & Hfree).
    apply (hit_player_idle lm j g pl en); [rewrite Hs; reflexivity|exact Hj'| |exact Hb|].
    + inversion Hsa; assumption.
    + inversion Hfree; assumption.
Qed.

Lemma collision_passes_idle_witness :
  (objs spaceship game_init = first_ship :: drop 1 (objs spaceship game_init) /\
   drop 1 (objs spaceship game_init) <> [] /\
   Forall has_aabb (objs projectile game_init) /\
   Forall has_aabb (first_ship :: drop 1 (objs spaceship game_init)) /\
   clear_of libm_at_zero (first_ship :: objs projectile game_init)
            (drop 1 (objs spaceship game_init))) /\
  projectile_spaceship_collision libm_at_zero game_init = Done game_init /\
  player_enemy_collision libm_at_zero game_init = Done game_init.
Proof.
  assert (Hs : objs spaceship game_init
               = first_ship :: drop 1 (objs spaceship game_init))
    by (vm_compute; reflexivity).
  assert (Hne : drop 1 (objs spaceship game_init) <> []) by (vm_compute; discriminate).
  assert (Hpa : Forall has_aabb (objs projectile game_init)) by constructor.
  assert (Hsa : Forall has_aabb (first_ship :: drop 1 (objs spaceship game_init))).
  { repeat constructor; vm_compute; discriminate. }
  assert (Hclear : clear_of libm_at_zero (first_ship :: objs projectile game_init)
                            (drop 1 (objs spaceship game_init))).
  { repeat constructor. }
  split; [auto 6|].
  exact (collision_passes_idle libm_at_zero game_init first_ship
           (drop 1 (objs spaceship game_init)) Hs Hpa Hsa Hclear).
Defined.

(** ** The frame loop keeps up with the clock *)



Lemma last_cons_default {A} (l : list A) :
  forall a d : A, List.last (a :: l) d = List.last l a.
Proof.
  induction l as [|b l IH]; intros a d; [reflexivity|].
  change (List.last (a :: b :: l) d) with (List.last (b :: l) d).
  rewrite (IH b d), (IH b a). reflexivity.
Qed.



(** ** Render interpolation *)

(** X17: the draw call of an object places its origin on the segment
    between the position it had before the last tick and its current
    position, at the fraction [alpha] of the way: for [alpha] in [0, 1] it
    lies between the two on both axes, at the former for 0 and at the
    latter for 1. *)
Theorem draw_object_interpolates (lm : Libm) (alpha : Q) (obj : GameObject) (o : GLObject) :
  match sprite_animation obj with
  | Some sa => (curr_frame_idx sa < length (frames sa))%nat
  | None => True
  end ->
  0 <= alpha <= 1 ->
  let a := position (prev_transform obj) in
  let b := position (transform obj) in
  exists c, draw_object lm alpha obj o = Done c /\
    let w := glm.transform_point (model_of c) (glm.mk_vec2 0 0) in
    glm.x w == glm.x a + alpha * (glm.x b - glm.x a) /\
    glm.y w == glm.y a + alpha * (glm.y b - glm.y a) /\
    between (glm.x a) (glm.x b) (glm.x w) /\ between (glm.y a) (glm.y b) (glm.y w).
Proof.
  intros Hsa [H0 H1] a b.
  assert (Hbetween : forall p q w, w == p + alpha * (q - p) -> between p q w).
  { intros p q w Hw. unfold between.
    destruct (Qlt_le_dec q p); [right|left]; split; nra. }
  assert (Hpoint : forall m,
    m = Transform_matrix lm
          {| position := glm.lerp a b alpha;
             scale := glm.lerp (scale (prev_transform obj)) (scale (transform obj)) alpha;
             rotation := glm.lerp1 (rotation (prev_transform obj))
                                   (rotation (transform obj)) alpha |} ->
    let w := glm.transform_point m (glm.mk_vec2 0 0) in
    glm.x w == glm.x a + alpha * (glm.x b - glm.x a) /\
    glm.y w == glm.y a + alpha * (glm.y b - glm.y a) /\
    between (glm.x a) (glm.x b) (glm.x w) /\ between (glm.y a) (glm.y b) (glm.y w)).
  { intros m -> w.
    destruct (Transform_matrix_at lm
                {| position := glm.lerp a b alpha;
                   scale := glm.lerp (scale (prev_transform obj)) (scale (transform obj)) alpha;
                   rotation := glm.lerp1 (rotation (prev_transform obj))
                                         (rotation (transform obj)) alpha |}
                (glm.mk_vec2 0 0)) as [Hx Hy].
    cbv zeta in Hx, Hy. fold w in Hx, Hy.
    cbn [position glm.lerp glm.x glm.y] in Hx, Hy. unfold glm.lerp1 in Hx, Hy.
    assert (Ex : glm.x w == glm.x a + alpha * (glm.x b - glm.x a)) by (rewrite Hx; ring).
    assert (Ey : glm.y w == glm.y a + alpha * (glm.y b - glm.y a)) by (rewrite Hy; ring).
    auto. }
  destruct (draw_object_done lm alpha obj o Hsa) as [c Hc].
  exists c. split; [exact Hc|]. apply Hpoint.
  unfold draw_object in Hc.
  destruct (texture obj); [destruct (sprite_animation obj) as [sa|];
                           [destruct (curr_frame sa); try discriminate|]
                          |destruct (text_fmt obj)];
    cbn in Hc; inversion Hc; reflexivity.
Qed.

Lemma draw_object_interpolates_witness :
  ((curr_frame_idx ship_animation < length (frames ship_animation))%nat /\
   sprite_animation stepped = Some ship_animation /\ 0 <= 0.5 <= 1) /\
  exists c, draw_object libm_at_zero 0.5 stepped
              {| vbo := 1; ebo := 2; vao := 3; num_indices := 6; num_vertices := 4 |}
            = Done c /\
            glm.x (glm.transform_point (model_of c) (glm.mk_vec2 0 0)) == 0.125.
Proof.
  assert (Hin : (curr_frame_idx ship_animation < length (frames ship_animation))%nat)
    by (vm_compute; lia).
  assert (Hsa : sprite_animation stepped = Some ship_animation) by reflexivity.
  assert (Ha : 0 <= 0.5 <= 1) by (split; discriminate).
  split; [exact (conj Hin (conj Hsa Ha))|].
  destruct (draw_object_interpolates libm_at_zero 0.5 stepped
              {| vbo := 1; ebo := 2; vao := 3; num_indices := 6; num_vertices := 4 |})
    as (c & Hc & Hx & _).
  - rewrite Hsa. exact Hin.
  - exact Ha.
  - exists c. split; [exact Hc|]. cbv zeta in Hx. rewrite Hx. reflexivity.
Defined.

(** ** The quads of a sprite sheet *)

Lemma gen_sprite_quads_fold (w : Q) (n : nat) :
  0 <= w ->
  exists vs ixs,
    foldl (fun '(vertices, indices) i =>
             let lo := inject_Z (Z.of_nat i) * w in
             let hi := inject_Z (Z.of_nat (i + 1)) * w in
             (vertices ++
                [ {| tv_pos := glm.mk_vec2 1 1;       texcoord := glm.mk_vec2 hi 1 |};
                  {| tv_pos := glm.mk_vec2 1 (-1);    texcoord := glm.mk_vec2 hi 0 |};
                  {| tv_pos := glm.mk_vec2 (-1) (-1); texcoord := glm.mk_vec2 lo 0 |};
                  {| tv_pos := glm.mk_vec2 (-1) 1;    texcoord := glm.mk_vec2 lo 1 |} ],
              indices ++ List.map (fun v => (4 * i + v)%nat) kQuadIndices))
          ([], []) (seq 0 n) = (vs, ixs) /\
    length vs = (4 * n)%nat /\ length ixs = (6 * n)%nat /\
    (forall k m v, (k < n)%nat -> kQuadIndices !! m = Some v ->
                   ixs !! (6 * k + m)%nat = Some (4 * k + v)%nat) /\
    Forall (fun tv => 0 <= glm.x (texcoord tv) <= inject_Z (Z.of_nat n) * w) vs.
Proof.
  intros Hw. induction n as [|n (vs & ixs & Hrun & Hlv & Hli & Hix & Htex)].
  - exists [], []. split; [reflexivity|]. split; [reflexivity|]. split; [reflexivity|].
    split; [intros; lia|constructor].
  - rewrite seq_S, foldl_snoc, Hrun. cbn [Nat.add].
    eexists _, _. split; [reflexivity|].
    split; [rewrite length_app, Hlv; cbn; lia|].
    split; [rewrite length_app, Hli; cbn; lia|].
    assert (Hn : inject_Z (Z.of_nat (n + 1)) == inject_Z (Z.of_nat n) + 1).
    { rewrite Nat2Z.inj_add, inject_Z_plus. reflexivity. }
    assert (Hn0 : 0 <= inject_Z (Z.of_nat n)).
    { change 0 with (inject_Z 0). rewrite <- Zle_Qle. lia. }
    assert (HS : inject_Z (Z.of_nat (S n)) == inject_Z (Z.of_nat n) + 1).
    { rewrite Nat2Z.inj_succ. unfold Z.succ. rewrite inject_Z_plus. reflexivity. }
    split.
    + intros k m v Hk Hm.
      assert (Hm6 : (m < 6)%nat) by (apply lookup_lt_Some in Hm; exact Hm).
      destruct (decide (k < n)%nat) as [Hlt|Hge].
      * rewrite lookup_app_l by lia. apply Hix; assumption.
      * assert (k = n) by lia. subst k.
        rewrite lookup_app_r by lia. replace (6 * n + m - length ixs)%nat with m by lia.
        change (List.map ?f ?l) with (f <$> l).
        rewrite list_lookup_fmap, Hm. reflexivity.
    + apply Forall_app. split.
      * eapply Forall_impl; [exact Htex|]. cbn. intros tv [H0 H1]. split; [exact H0|].
        rewrite HS. nra.
      * set (a := inject_Z (Z.of_nat n)) in *. set (b := inject_Z (Z.of_nat (n + 1))) in *.
        set (c := inject_Z (Z.of_nat (S n))) in *. clearbody a b c.
        repeat constructor; cbn; nra.
Qed.

(** X18: for up to 16384 frames -- as long as the vertex numbers fit the
    16 bit indices -- [gen_sprite_quads] returns four vertices and six
    indices per frame; the six indices of frame [k] start at index [6 k]
    and are the quad pattern shifted to the four vertices of that frame,
    so every index names an existing vertex; and the texture coordinates
    stay inside the sheet. *)
Theorem gen_sprite_quads_layout (count : nat) :
  (Z.of_nat count <= 16384)%Z ->
  let '(vertices, indices) := gen_sprite_quads count in
  length vertices = (4 * count)%nat /\ length indices = (6 * count)%nat /\
  (forall k m v, (k < count)%nat -> kQuadIndices !! m = Some v ->
                 indices !! (6 * k + m)%nat = Some (4 * k + v)%nat /\
                 (4 * k + v < length vertices)%nat /\
                 (Z.of_nat (4 * k + v) < 2 ^ 16)%Z) /\
  Forall (fun tv => 0 <= glm.x (texcoord tv) <= 1) vertices.
Proof.
  intros Hcount.
  assert (Hw : 0 <= 1 / inject_Z (Z.of_nat count)).
  { destruct count as [|n]; [discriminate|].
    apply Qle_shift_div_l; [|rewrite Qmult_0_l; discriminate].
    change 0 with (inject_Z 0). rewrite <- Zlt_Qlt. lia. }
  destruct (gen_sprite_quads_fold (1 / inject_Z (Z.of_nat count)) count Hw)
    as (vs & ixs & Hrun & Hlv & Hli & Hix & Htex).
  assert (E : gen_sprite_quads count = (vs, ixs)) by exact Hrun.
  rewrite E. split; [exact Hlv|]. split; [exact Hli|]. split.
  - intros k m v Hk Hm. split; [apply Hix; assumption|].
    assert (Hv : (v < 4)%nat).
    { assert (Hall : Forall (fun v => (v < 4)%nat) kQuadIndices)
        by (repeat constructor).
      eapply Forall_lookup_1 in Hall; eassumption. }
    change (2 ^ 16)%Z with 65536%Z. rewrite Hlv. split; lia.
  - eapply Forall_impl; [exact Htex|]. cbn. intros tv [H0 H1]. split; [exact H0|].
    destruct count as [|n].
    { change (inject_Z (Z.of_nat 0)) with 0 in H1. rewrite Qmult_0_l in H1. lra. }
    assert (Hpos : 0 < inject_Z (Z.of_nat (S n))).
    { change 0 with (inject_Z 0). rewrite <- Zlt_Qlt. lia. }
    assert (E1 : inject_Z (Z.of_nat (S n)) * (1 / inject_Z (Z.of_nat (S n))) == 1).
    { field. intros Hz. rewrite Hz in Hpos. discriminate. }
    rewrite E1 in H1. exact H1.
Qed.

Lemma gen_sprite_quads_layout_witness :
  (Z.of_nat 6 <= 16384)%Z /\
  length (fst (gen_sprite_quads 6)) = 24%nat /\ length (snd (gen_sprite_quads 6)) = 36%nat.
Proof.
  assert (H : (Z.of_nat 6 <= 16384)%Z) by lia.
  split; [exact H|].
  pose proof (gen_sprite_quads_layout 6 H) as Hlayout.
  destruct (gen_sprite_quads 6) as [vertices indices].
  destruct Hlayout as (Hv & Hi & _). exact (conj Hv Hi).
Defined.

(** ** More on the overlap test *)

(** X19: the overlap test is symmetric, grows with its arguments -- a box
    that contains a colliding box collides too -- and a box collides with
    itself exactly when it has a positive extent on both axes. *)
Theorem collision_symmetric_monotone (a b : Aabb) :
  collision a b = collision b a /\
  (forall a', contains a' a -> collision a b = true -> collision a' b = true) /\
  (collision a a = true <->
   glm.x (min a) < glm.x (max a) /\ glm.y (min a) < glm.y (max a)).
Proof.
  split; [apply collision_sym|]. split.
  - intros a' (H1 & H2 & H3 & H4). rewrite !collision_iff.
    unfold strictly_intersecting. intros H. repeat split; lra.
  - rewrite collision_iff. unfold strictly_intersecting. tauto.
Qed.

Lemma collision_symmetric_monotone_witness :
  (contains unit_quad (unit_box_at 0 0) /\
   collision (unit_box_at 0 0) (unit_box_at 0.5 0.5) = true) /\
  collision unit_quad (unit_box_at 0.5 0.5) = true.
Proof.
  assert (H1 : contains unit_quad (unit_box_at 0 0)).
  { unfold contains. cbn. repeat split; discriminate. }
  assert (H2 : collision (unit_box_at 0 0) (unit_box_at 0.5 0.5) = true)
    by (vm_compute; reflexivity).
  split; [exact (conj H1 H2)|].
  exact (proj1 (proj2 (collision_symmetric_monotone (unit_box_at 0 0) (unit_box_at 0.5 0.5)))
           unit_quad H1 H2).
Defined.

(** ** Leaving the screen *)

Lemma update_object_mark (lm : Libm) (screen : Aabb) (dt time : Q) (obj obj' : GameObject) :
  update_object lm screen dt time obj = Done obj' ->
  (delay_erasing obj <> None -> delay_erasing obj' = delay_erasing obj) /\
  (offscreen_destroy obj <> None -> screen_bound obj = None ->
   off_screen lm screen obj' -> delay_erasing obj' <> None).
Proof.
  unfold update_object.
  destruct (sprite_system dt (motion_system dt obj)) as [obj2| |] eqn:E2; cbn; try discriminate.
  destruct (offscreen_system lm screen _) as [obj4| |] eqn:E4; cbn; try discriminate.
  intros H. inversion H; subst. clear H.
  assert (D2 : (delay_erasing obj <> None -> delay_erasing obj2 = delay_erasing obj)).
  { revert E2. unfold sprite_system.
    change (sprite_animation (motion_system dt obj)) with (sprite_animation obj).
    destruct (sprite_animation obj) as [sa|]; [|intros H; inversion H; reflexivity].
    destruct (update_frame sa dt) as [sa'| |]; cbn; try discriminate.
    unfold retire.
    change (delay_erasing (set_sprite_animation (Some sa') (motion_system dt obj)))
      with (delay_erasing obj).
    destruct (expired sa'), (delay_erasing obj) eqn:Ed; intros H Hd; inversion H; subst;
      cbn; congruence. }
  assert (D3 : delay_erasing (custom_update_system lm dt time obj2) = delay_erasing obj2).
  { unfold custom_update_system. destruct (update obj2) as [[]|]; reflexivity. }
  pose proof (sprite_system_keeps _ _ _ E2) as (_ & O2 & S2 & _).
  change (offscreen_destroy (motion_system dt obj)) with (offscreen_destroy obj) in O2.
  change (screen_bound (motion_system dt obj)) with (screen_bound obj) in S2.
  destruct (custom_update_keeps lm dt time obj2) as [A3 O3].
  destruct (custom_update_keeps_more lm dt time obj2) as [S3 _].
  pose proof (offscreen_system_keeps _ _ _ _ E4) as (A4 & O4 & S4 & _ & T4).
  set (obj3 := custom_update_system lm dt time obj2) in *.
  assert (D5 : forall o, delay_erasing (screen_bound_system screen o) = delay_erasing o).
  { intros o. unfold screen_bound_system. destruct (screen_bound o); reflexivity. }
  rewrite D5. split.
  - intros Hd. specialize (D2 Hd). revert E4. unfold offscreen_system.
    destruct (offscreen_destroy obj3); [|intros H; inversion H; subst; congruence].
    destruct (aabb obj3); cbn; [|discriminate].
    destruct (negb _); [destruct (delay_erasing obj3) eqn:E3|];
      intros H; inversion H; subst; congruence.
  - intros Ho Hs (b & Hb & Hmiss).
    assert (Hid : screen_bound_system screen obj4 = obj4).
    { unfold screen_bound_system.
      destruct (screen_bound obj4) eqn:E; [congruence|reflexivity]. }
    rewrite Hid in Hb, Hmiss. clear Hid.
    revert E4. unfold offscreen_system.
    destruct (offscreen_destroy obj3) eqn:Eo; [|congruence].
    rewrite <- A4, <- T4. rewrite Hb. cbn. rewrite Hmiss. cbn.
    destruct (delay_erasing obj3) eqn:E3; intros H; inversion H; subst; cbn; congruence.
Qed.

(** X20: the per-object systems never clear or change a mark for delayed
    erasure; and an object that is destroyed off screen and is not bound
    to the screen leaves its update marked whenever its bounding box, where
    the update put it, misses the screen. *)
Theorem update_object_marks_off_screen (lm : Libm) (screen : Aabb) (dt time : Q)
    (obj : GameObject) :
  updatable obj ->
  exists obj', update_object lm screen dt time obj = Done obj' /\
    (delay_erasing obj <> None -> delay_erasing obj' = delay_erasing obj) /\
    (offscreen_destroy obj <> None -> screen_bound obj = None ->
     off_screen lm screen obj' -> delay_erasing obj' <> None).
Proof.
  intros Hok. destruct (update_object_done lm screen dt time obj Hok) as [obj' Hrun].
  exists obj'. split; [exact Hrun|]. eapply update_object_mark. exact Hrun.
Qed.

Lemma update_object_marks_off_screen_witness :
  (updatable stray /\ delay_erasing stray = None /\ offscreen_destroy stray <> None) /\
  exists obj', update_object libm_at_zero (screen_aabb game_init) timestep 0 stray
               = Done obj' /\ delay_erasing obj' <> None.
Proof.
  assert (H1 : updatable stray) by (split; [exact I|intros _; vm_compute; discriminate]).
  assert (H2 : delay_erasing stray = None) by reflexivity.
  assert (H3 : offscreen_destroy stray <> None) by (vm_compute; discriminate).
  split; [exact (conj H1 (conj H2 H3))|].
  destruct (update_object_marks_off_screen libm_at_zero (screen_aabb game_init) timestep 0
              stray H1) as (obj' & Hrun & _ & Hmark).
  exists obj'. split; [exact Hrun|]. apply Hmark; [exact H3|reflexivity|].
  assert (E : Done obj' = update_object libm_at_zero (screen_aabb game_init) timestep 0 stray)
    by (symmetry; exact Hrun).
  vm_compute in E. inversion E; subst.
  eexists. split; [reflexivity|]. vm_compute. reflexivity.
Defined.

(** ** The draw loop and the cursor picking loop as a whole *)

(** X21: when every object of the scene has a render handle (and every
    sprite animation points at one of its frames) the draw loop completes
    and issues exactly one draw call per object, back to front: the layers
    in declaration order, the objects of each layer last to first. *)
Theorem render_all_objects_back_to_front (lm : Libm) (alpha : Q) (g : Game) :
  (forall l, Forall has_glo (objs l g) /\ sprites_in_range (objs l g)) ->
  exists calls, render_all_objects lm alpha g = Done calls /\
                calls.*1 = draw_order g /\
                length calls = sum_list ((fun l => length (objs l g)) <$> all_lists).
Proof.
  intros Hok. destruct (render_all_objects_order lm alpha g Hok) as (calls & Hrun & Hord).
  exists calls. split; [exact Hrun|]. split; [exact Hord|].
  rewrite <- (length_fmap fst calls), Hord. unfold draw_order, layer_order, all_lists.
  cbn [fmap list_fmap concat sum_list sum_list_with].
  rewrite !length_app, !length_reverse, !length_fmap, !length_seq. cbn. lia.
Qed.

Lemma game_init_drawable :
  forall l, Forall has_glo (objs l game_init) /\ sprites_in_range (objs l game_init).
Proof.
  intros l. split.
  - destruct l; repeat constructor; vm_compute; discriminate.
  - destruct l; repeat constructor; vm_compute; try exact I; lia.
Qed.

Lemma render_all_objects_back_to_front_witness :
  (forall l, Forall has_glo (objs l game_init) /\ sprites_in_range (objs l game_init)) /\
  exists calls, render_all_objects libm_at_zero 0.5 game_init = Done calls /\
                calls.*1 = draw_order game_init.
Proof.
  split; [exact game_init_drawable|].
  destruct (render_all_objects_back_to_front libm_at_zero 0.5 game_init game_init_drawable)
    as (calls & Hrun & Hord & _).
  exists calls. exact (conj Hrun Hord).
Defined.

Lemma cursor_picking_eq (lm : Libm) (g : Game) :
  cursor_picking lm g = set_hover (existsb (under_cursor lm g) (objs spaceship g)) g.
Proof.
  unfold cursor_picking.
  assert (H : forall (ships : list GameObject) (acc : Game),
            foldl (fun g' ship =>
                     match aabb ship with
                     | None => g'
                     | Some b =>
                         if collision
                              {| min := Cursor_normalized (cursor g) (window g) (viewport g);
                                 max := glm.add
                                          (Cursor_normalized (cursor g) (window g)
                                             (viewport g))
                                          (glm.mk_vec2
                                             (1 / inject_Z (ux (v_size (viewport g))))
                                             (1 / inject_Z (uy (v_size (viewport g)))))
                              |}
                              (Aabb_transform b (Transform_matrix lm (transform ship)))
                         then set_hover true g' else g'
                     end) acc ships
            = if existsb (under_cursor lm g) ships then set_hover true acc else acc).
  { induction ships as [|ship rest IH]; intros acc; cbn [foldl existsb]; [reflexivity|].
    rewrite IH. unfold under_cursor at 2.
    destruct (aabb ship) as [b|]; [|reflexivity].
    destruct (collision _ _); cbn [orb]; [|reflexivity].
    destruct (existsb _ rest); reflexivity. }
  rewrite H. destruct (existsb _ _); reflexivity.
Qed.

(** X22: the cursor picking system changes nothing but the hover flag,
    which it sets to whether some spaceship that carries a bounding box
    has it under the cursor pixel, the cursor being normalized by
    [Cursor::normalized] with the aspect ratio of the window; what the
    flag was before plays no role, nor does any other layer. *)
Theorem cursor_picking_sets_hover (lm : Libm) (g : Game) :
  cursor_picking lm g = set_hover (existsb (under_cursor lm g) (objs spaceship g)) g.
Proof. exact (cursor_picking_eq lm g). Qed.

(** ** The framebuffer callback *)

Lemma float_to_unsigned_floor (q : Q) :
  0 <= q -> q < inject_Z UINT_MODULUS ->
  float_to_unsigned q = Done (Qfloor q) /\
  inject_Z (Qfloor q) <= q /\ q < inject_Z (Qfloor q + 1) /\ (0 <= Qfloor q)%Z.
Proof.
  intros H0 H1. unfold float_to_unsigned.
  assert (Hle : Qle_bool 0 q = true) by (apply Qle_bool_iff; exact H0).
  rewrite Hle.
  pose proof (Qfloor_le q) as Hf. pose proof (Qlt_floor q) as Hc.
  assert (Hpos : (0 <= Qfloor q)%Z).
  { change 0%Z with (Qfloor 0). apply Qfloor_resp_le. exact H0. }
  assert (Hmax : (Qfloor q < UINT_MODULUS)%Z).
  { rewrite Zlt_Qlt. lra. }
  replace (Qfloor q <? 0)%Z with false by (symmetry; apply Z.ltb_ge; exact Hpos).
  replace (UINT_MODULUS <=? Qfloor q)%Z with false by (symmetry; apply Z.leb_gt; exact Hmax).
  cbn. auto.
Qed.

Lemma float_to_unsigned_small (q : Q) :
  0 <= q -> q < 16777216 ->
  exists t, float_to_unsigned q = Done t /\ (0 <= t)%Z /\
            inject_Z t <= q /\ q < inject_Z t + 1.
Proof.
  intros H0 H1.
  destruct (float_to_unsigned_floor q H0) as (Hrun & Hle & Hlt & Hpos).
  { assert (Hmod : inject_Z UINT_MODULUS == 4294967296) by reflexivity. lra. }
  exists (Qfloor q). split; [exact Hrun|]. split; [exact Hpos|]. split; [exact Hle|].
  rewrite inject_Z_plus in Hlt. exact Hlt.
Qed.

(** X23: for a framebuffer of positive width and height (below 2^24, so
    that both are floats) the callback completes, records the size of the
    window, and letterboxes the viewport: it fills the window on one axis,
    has the aspect ratio 16:9 up to one pixel, lies inside the window and
    is centred; nothing else of the game changes. *)
Theorem framebuffer_size_callback_letterboxes (width height : Z) (g : Game) :
  (0 < width < 2 ^ 24)%Z -> (0 < height < 2 ^ 24)%Z ->
  exists g', framebuffer_size_callback width height g = Done g' /\
    w_size (window g') = {| ux := width; uy := height |} /\
    letterboxed width height (viewport g') /\ centred width height (viewport g') /\
    outside_scene (set_window_viewport (window g) (viewport g) g') = outside_scene g /\
    scene g' = scene g.
Proof.
  intros [Hw0 Hw1] [Hh0 Hh1]. unfold framebuffer_size_callback.
  assert (Hh : (height =? 0)%Z = false) by (apply Z.eqb_neq; lia).
  rewrite Hh.
  assert (Hwq : 0 < inject_Z width /\ inject_Z width < 16777216).
  { change 0 with (inject_Z 0). change 16777216 with (inject_Z (2 ^ 24)).
    rewrite <- !Zlt_Qlt. lia. }
  assert (Hhq : 0 < inject_Z height /\ inject_Z height < 16777216).
  { change 0 with (inject_Z 0). change 16777216 with (inject_Z (2 ^ 24)).
    rewrite <- !Zlt_Qlt. lia. }
  assert (Hwm : (width mod UINT_MODULUS = width)%Z).
  { apply Z.mod_small. unfold UINT_MODULUS. lia. }
  assert (Hhm : (height mod UINT_MODULUS = height)%Z).
  { apply Z.mod_small. unfold UINT_MODULUS. lia. }
  rewrite Hwm, Hhm.
  set (w := inject_Z width) in *. set (h := inject_Z height) in *.
  assert (Hk : kAspectRatio == 16 # 9) by reflexivity.
  assert (Hki : kAspectRatioInverse == 9 # 16) by reflexivity.
  assert (Hdiv : w / h < kAspectRatio <-> 9 * w < 16 * h).
  { rewrite Hk.
    assert (E : w == (w / h) * h) by (field; lra).
    set (q := w / h) in *. clearbody q. rewrite E. split; intros H; nra. }
  destruct (Qltb (w / h) kAspectRatio) eqn:Hnarrow.
  - apply Qltb_lt, Hdiv in Hnarrow.
    assert (E3 : (h - w * kAspectRatioInverse) / 2 == (h - w * (9 # 16)) * (1 # 2))
      by (rewrite Hki; field).
    assert (E4 : 0 / 2 == 0) by reflexivity.
    destruct (float_to_unsigned_small (w - 0)) as (sx & Hsx & Psx & Lsx & Usx); [lra|lra|].
    destruct (float_to_unsigned_small (h - (h - w * kAspectRatioInverse)))
      as (sy & Hsy & Psy & Lsy & Usy); [rewrite Hki; lra|rewrite Hki; lra|].
    destruct (float_to_unsigned_small (0 / 2)) as (ox & Hox & Pox & Lox & Uox);
      [rewrite E4; lra|rewrite E4; lra|].
    destruct (float_to_unsigned_small ((h - w * kAspectRatioInverse) / 2))
      as (oy & Hoy & Poy & Loy & Uoy); [rewrite E3; lra|rewrite E3; lra|].
    rewrite Hsx, Hsy, Hox, Hoy. cbn [mbind outcome_bind mret outcome_ret].
    eexists. split; [reflexivity|]. split; [reflexivity|].
    rewrite Hki in Lsy, Usy. rewrite E3 in Loy, Uoy. rewrite E4 in Lox, Uox.
    clear E3 E4 Hdiv Hsx Hsy Hox Hoy. unfold w, h in *. clear w h.
    assert (Esx : sx = width).
    { apply Z.le_antisymm; [z_by_q|]. apply Z.lt_succ_r. unfold Z.succ. z_by_q. }
    assert (Eox : ox = 0%Z).
    { apply Z.le_antisymm; [|exact Pox]. apply Z.lt_succ_r. unfold Z.succ. z_by_q. }
    subst sx ox.
    split; [|split; [|split; reflexivity]].
    + left. cbn. split; [reflexivity|]. split; z_by_q.
    + unfold centred. cbn. split.
      * lia.
      * split; [exact Poy|]. split; [|z_by_q].
        cut (height - 3 < 2 * oy + sy)%Z; [lia|z_by_q].
  - apply Qltb_ge in Hnarrow.
    assert (Hwide : 16 * h <= 9 * w).
    { destruct (Qlt_le_dec (9 * w) (16 * h)) as [Hlt|Hge]; [|exact Hge].
      apply Hdiv in Hlt. lra. }
    assert (E3 : (w - h * kAspectRatio) / 2 == (w - h * (16 # 9)) * (1 # 2))
      by (rewrite Hk; field).
    assert (E4 : 0 / 2 == 0) by reflexivity.
    destruct (float_to_unsigned_small (w - (w - h * kAspectRatio)))
      as (sx & Hsx & Psx & Lsx & Usx); [rewrite Hk; lra|rewrite Hk; lra|].
    destruct (float_to_unsigned_small (h - 0)) as (sy & Hsy & Psy & Lsy & Usy); [lra|lra|].
    destruct (float_to_unsigned_small ((w - h * kAspectRatio) / 2))
      as (ox & Hox & Pox & Lox & Uox); [rewrite E3; lra|rewrite E3; lra|].
    destruct (float_to_unsigned_small (0 / 2)) as (oy & Hoy & Poy & Loy & Uoy);
      [rewrite E4; lra|rewrite E4; lra|].
    rewrite Hsx, Hsy, Hox, Hoy. cbn [mbind outcome_bind mret outcome_ret].
    eexists. split; [reflexivity|]. split; [reflexivity|].
    rewrite Hk in Lsx, Usx. rewrite E3 in Lox, Uox. rewrite E4 in Loy, Uoy.
    clear E3 E4 Hdiv Hsx Hsy Hox Hoy Hnarrow. unfold w, h in *. clear w h.
    assert (Esy : sy = height).
    { apply Z.le_antisymm; [z_by_q|]. apply Z.lt_succ_r. unfold Z.succ. z_by_q. }
    assert (Eoy : oy = 0%Z).
    { apply Z.le_antisymm; [|exact Poy]. apply Z.lt_succ_r. unfold Z.succ. z_by_q. }
    subst sy oy.
    split; [|split; [|split; reflexivity]].
    + right. cbn. split; [reflexivity|]. split; z_by_q.
    + unfold centred. cbn. split.
      * split; [exact Pox|]. split; [|z_by_q].
        cut (width - 3 < 2 * ox + sx)%Z; [lia|z_by_q].
      * lia.
Qed.

Lemma framebuffer_size_callback_letterboxes_witness :
  ((0 < 1000 < 2 ^ 24)%Z /\ (0 < 1000 < 2 ^ 24)%Z) /\
  exists g', framebuffer_size_callback 1000 1000 game_init = Done g' /\
             viewport g' = {| offset := {| ux := 0; uy := 218 |};
                              v_size := {| ux := 1000; uy := 562 |} |}.
Proof.
  assert (H : (0 < 1000 < 2 ^ 24)%Z) by (split; reflexivity).
  split; [exact (conj H H)|].
  destruct (framebuffer_size_callback_letterboxes 1000 1000 game_init H H)
    as (g' & Hrun & _).
  exists g'. split; [exact Hrun|].
  assert (E : Done g' = framebuffer_size_callback 1000 1000 game_init)
    by (symmetry; exact Hrun).
  vm_compute in E. inversion E. reflexivity.
Defined.

(** ** The command line *)

Lemma parse_arguments_pair {Level} (from_str : string -> Level) (name : string)
    (rest : list string) (lvl : Level) :
  parse_arguments from_str ("--log" :: name :: rest) lvl
  = parse_arguments from_str rest (from_str name).
Proof. reflexivity. Qed.

Lemma parse_arguments_options {Level} (from_str : string -> Level) (names : list string) :
  forall (rest : list string) (lvl : Level),
  parse_arguments from_str (log_options names ++ rest) lvl
  = parse_arguments from_str rest (List.last (from_str <$> names) lvl).
Proof.
  induction names as [|name names IH]; intros rest lvl; [reflexivity|].
  change (log_options (name :: names) ++ rest)
    with ("--log" :: name :: (log_options names ++ rest)).
  rewrite parse_arguments_pair, IH. cbn [fmap list_fmap].
  rewrite last_cons_default. reflexivity.
Qed.

Lemma parse_arguments_split {Level} (from_str : string -> Level) (n : nat) :
  forall args : list string, (length args <= n)%nat ->
  exists names rest,
    args = log_options names ++ rest /\
    (rest = [] \/ rest = ["--log"] \/
     exists arg rest', rest = arg :: rest' /\ arg <> "--log").
Proof.
  induction n as [|n IH]; intros args Hlen.
  - destruct args; [|cbn in Hlen; lia]. exists [], []. auto.
  - destruct args as [|arg rest]; [exists [], []; auto|].
    destruct (String.eqb_spec arg "--log") as [->|Hne].
    + destruct rest as [|name rest]; [exists [], ["--log"]; auto|].
      destruct (IH rest) as (names & tl & -> & Htl); [cbn in Hlen; lia|].
      exists (name :: names), tl. split; [reflexivity|exact Htl].
    + exists [], (arg :: rest). split; [reflexivity|]. right. right. eauto.
Qed.

(** X24: the argument loop of [main] accepts exactly the command lines
    made of [--log name] pairs and takes the level from the last pair (a
    name may itself be [--log]); it ends the program with -2 exactly when
    such pairs are followed by a lone [--log], and with -1 exactly when
    they are followed by any other argument. *)
Theorem parse_arguments_accepts {Level} (from_str : string -> Level) (args : list string)
    (lvl : Level) :
  (forall l, parse_arguments from_str args lvl = LogLevel l <->
             exists names, args = log_options names /\
                           l = List.last (from_str <$> names) lvl) /\
  (exit_code (parse_arguments from_str args lvl) = Some (-2)%Z <->
   exists names, args = log_options names ++ ["--log"]) /\
  (exit_code (parse_arguments from_str args lvl) = Some (-1)%Z <->
   exists names arg rest, args = log_options names ++ arg :: rest /\ arg <> "--log").
Proof.
  assert (Hunknown : forall arg rest (l0 : Level), arg <> "--log" ->
            parse_arguments from_str (arg :: rest) l0 = UnknownArgument arg).
  { intros arg rest l0 Hne. cbn [parse_arguments].
    destruct (String.eqb_spec arg "--log"); [contradiction|reflexivity]. }
  assert (Hcases : exists names,
            (args = log_options names /\
             parse_arguments from_str args lvl
             = LogLevel (List.last (from_str <$> names) lvl)) \/
            (args = log_options names ++ ["--log"] /\
             parse_arguments from_str args lvl = MissingArgument) \/
            (exists arg rest, args = log_options names ++ arg :: rest /\ arg <> "--log" /\
                              parse_arguments from_str args lvl = UnknownArgument arg)).
  { destruct (parse_arguments_split from_str (length args) args (le_n _))
      as (names & rest & -> & Hrest).
    exists names. rewrite parse_arguments_options.
    destruct Hrest as [->|[->|(arg & rest' & -> & Hne)]].
    - left. rewrite app_nil_r. auto.
    - right. left. auto.
    - right. right. exists arg, rest'. rewrite (Hunknown arg rest' _ Hne). auto. }
  split; [|split].
  - intros l. split.
    + intros H. destruct Hcases as (names & [[E R]|[[E R]|(a & r & E & Hne & R)]]);
        rewrite R in H; try discriminate.
      inversion H; subst l. eauto.
    + intros (names & -> & ->).
      rewrite <- (app_nil_r (log_options names)), parse_arguments_options. reflexivity.
  - split.
    + intros H. destruct Hcases as (names & [[E R]|[[E R]|(a & r & E & Hne & R)]]);
        rewrite R in H; try discriminate.
      eauto.
    + intros (names & ->). rewrite parse_arguments_options. reflexivity.
  - split.
    + intros H. destruct Hcases as (names & [[E R]|[[E R]|(a & r & E & Hne & R)]]);
        rewrite R in H; try discriminate.
      eauto.
    + intros (names & a & r & -> & Hne).
      rewrite parse_arguments_options, (Hunknown a r _ Hne). reflexivity.
Qed.

(** ** When a whole tick completes *)

Lemma boxed_profile (g g' : Game) :
  aabb_profile g' = aabb_profile g -> boxed g -> boxed g'.
Proof.
  intros H [Hp Hs]. apply aabb_profile_inv in H as [Ep Es].
  assert (K : forall l l' : list GameObject,
            aabb <$> l' = aabb <$> l -> Forall has_aabb l -> Forall has_aabb l').
  { intros l l' E Hl. apply Forall_lookup. intros k o Ho.
    assert (Ek : (aabb <$> l') !! k = (aabb <$> l) !! k) by (rewrite E; reflexivity).
    rewrite !list_lookup_fmap, Ho in Ek. cbn in Ek.
    destruct (l !! k) as [o0|] eqn:E0; [|discriminate]. cbn in Ek.
    eapply Forall_lookup_1 in Hl; [|exact E0]. unfold has_aabb in *. congruence. }
  split; eapply K; eassumption.
Qed.

Lemma profile_lengths (g g' : Game) :
  aabb_profile g' = aabb_profile g ->
  length (objs projectile g') = length (objs projectile g) /\
  length (objs spaceship g') = length (objs spaceship g).
Proof.
  intros H. apply aabb_profile_inv in H as [Ep Es].
  split.
  - rewrite <- (length_fmap aabb (objs projectile g')), Ep. apply length_fmap.
  - rewrite <- (length_fmap aabb (objs spaceship g')), Es. apply length_fmap.
Qed.

Lemma healthy_weaken (b b' : Z) (g : Game) : (b' <= b)%Z -> healthy b g -> healthy b' g.
Proof.
  intros Hb H k ship Hk Hs. destruct (H k ship Hk Hs) as (h & Hh & Hv).
  exists h. split; [exact Hh|lia].
Qed.

Lemma hit_projectile_done (lm : Libm) (j i : nat) (g : Game) (b : Z) :
  blast_ready g -> boxed g ->
  (i < length (objs projectile g))%nat ->
  (1 <= j < length (objs spaceship g))%nat ->
  healthy b g -> (1 <= b)%Z ->
  exists g', hit_projectile lm j i g = Done g'.
Proof.
  intros ([Hk Hne] & [tex Htex] & [wav Hwav]) [Hbp Hbs] Hi [Hj1 Hj2] Hhealth Hb.
  destruct (lookup_lt_is_Some_2 _ _ Hi) as [proj Hp].
  destruct (lookup_lt_is_Some_2 _ _ Hj2) as [ship Hs].
  assert (Hpb : has_aabb proj) by (eapply Forall_lookup_1 in Hbp; eassumption).
  assert (Hsb : has_aabb ship) by (eapply Forall_lookup_1 in Hbs; eassumption).
  destruct (Hhealth j ship Hj1 Hs) as (h & Hh & Hv).
  unfold hit_projectile. rewrite Hp, Hs. cbn [deref mbind outcome_bind].
  unfold has_aabb in Hpb, Hsb.
  destruct (aabb proj) as [pb|]; [|congruence].
  destruct (aabb ship) as [sb|]; [|congruence].
  cbn [deref mbind outcome_bind].
  destruct (collision _ _); [|eauto].
  destruct (spawn_explosion_at_done (position (transform proj)) g tex wav Htex Hwav)
    as (ex & g1 & Hspawn & _ & _ & Hframe). rewrite Hspawn. cbn [mbind outcome_bind].
  apply spawn_frame_inv in Hframe as [(_ & Hships1 & _) [(_ & _ & Hk1 & _) _]].
  unfold decrement_health. rewrite Hh. cbn [deref mbind outcome_bind].
  assert (Emin : (value h =? INT_MIN)%Z = false) by (apply Z.eqb_neq; lia).
  rewrite Emin. cbn [mret outcome_ret mbind outcome_bind health set_health value].
  destruct (value h - 1 <=? 0)%Z; [|eauto].
  match goal with |- exists g', game_pause ?g3 = Done g' =>
    destruct (game_pause_done g3) as (g4 & Hpause & _) end; [|eauto].
  split.
  - change (key_handlers g1 = init_key_handlers ∅). congruence.
  - rewrite objs_set_objs_eq. intros E. apply (f_equal length) in E.
    rewrite length_insert, objs_set_objs_ne, Hships1 in E by discriminate.
    cbn [length] in E. lia.
Qed.

Lemma hit_projectile_total (lm : Libm) (j i : nat) (g : Game) (b : Z) :
  blast_ready g -> boxed g ->
  (i < length (objs projectile g))%nat ->
  (1 <= j < length (objs spaceship g))%nat ->
  healthy b g -> (1 <= b)%Z ->
  exists g', hit_projectile lm j i g = Done g' /\
             blast_ready g' /\ aabb_profile g' = aabb_profile g /\ healthy (b - 1) g'.
Proof.
  intros ([Hk Hne] & [tex Htex] & [wav Hwav]) [Hbp Hbs] Hi [Hj1 Hj2] Hhealth Hb.
  destruct (lookup_lt_is_Some_2 _ _ Hi) as [proj Hp].
  destruct (lookup_lt_is_Some_2 _ _ Hj2) as [ship Hs].
  assert (Hpb : has_aabb proj) by (eapply Forall_lookup_1 in Hbp; eassumption).
  assert (Hsb : has_aabb ship) by (eapply Forall_lookup_1 in Hbs; eassumption).
  destruct (Hhealth j ship Hj1 Hs) as (h & Hh & Hv).
  assert (Hidle : healthy (b - 1) g) by (eapply healthy_weaken; [|exact Hhealth]; lia).
  destruct (hit_projectile_done lm j i g b) as [g' Hrun]; auto.
  { split; [split; assumption|eauto]. }
  { split; assumption. }
  exists g'. split; [exact Hrun|].
  pose proof (hit_projectile_needs lm j i g g' Hrun) as (Hprof & _ & _).
    revert Hrun. unfold hit_projectile. rewrite Hp, Hs. cbn [deref mbind outcome_bind].
    unfold has_aabb in Hpb, Hsb.
    destruct (aabb proj) as [pb|]; [|congruence].
    destruct (aabb ship) as [sb|]; [|congruence].
    cbn [deref mbind outcome_bind].
    destruct (collision _ _).
    + destruct (spawn_explosion_at _ g) as [g1| |] eqn:Hspawn; cbn [mbind outcome_bind];
        try discriminate.
      apply spawn_explosion_at_frame, spawn_frame_inv in Hspawn
        as [(_ & Hships1 & Hprojs1 & _ & _) [(Ht1 & Ha1 & Hk1 & _) _]].
      unfold decrement_health. rewrite Hh. cbn [deref mbind outcome_bind].
      destruct (value h =? INT_MIN)%Z eqn:Emin; [discriminate|].
      cbn [mret outcome_ret mbind outcome_bind health set_health value].
      set (g2 := set_objs projectile (<[i := retire proj]> (objs projectile g1)) g1).
      assert (Hs2 : objs spaceship g2 = objs spaceship g).
      { unfold g2. rewrite objs_set_objs_ne by discriminate. exact Hships1. }
      assert (Hcore : forall ship' g4,
                health ship' = Some {| value := value h - 1 |} ->
                pause_frame g4
                = pause_frame (set_objs spaceship (<[j := ship']> (objs spaceship g2)) g2) ->
                blast_ready g4 /\ healthy (b - 1) g4).
      { intros ship' g4 Hh' Hframe.
        apply pause_frame_inv in Hframe as [(_ & Hsh & _) [(Ht4 & Ha4 & Hk4) _]].
        rewrite objs_set_objs_eq in Hsh. rewrite Hs2 in Hsh.
        split.
        - split; [split|].
          + rewrite Hk4. change (key_handlers g1 = init_key_handlers ∅). congruence.
          + intros E. apply (f_equal length) in Hsh.
            rewrite !calm_length, E, length_insert in Hsh. cbn [length] in Hsh. lia.
          + rewrite Ht4, Ha4.
            change (is_Some (textures g1 !! "Explosion.png") /\
                    is_Some (audios g1 !! "explosionCrunch_000.wav")).
            rewrite Ht1, Ha1. eauto.
        - intros k s Hk1' Hsk.
          rewrite <- calm_lookup, Hsh, calm_lookup in Hsk by lia.
          destruct (decide (k = j)) as [->|Hne'].
          + rewrite list_lookup_insert_eq in Hsk by lia. inversion Hsk; subst s.
            exists {| value := value h - 1 |}. split; [exact Hh'|]. cbn. lia.
          + rewrite list_lookup_insert_ne in Hsk by congruence.
            apply (Hidle k s Hk1' Hsk). }
      destruct (value h - 1 <=? 0)%Z.
      * intros Hpause. apply game_pause_frame in Hpause.
        apply Hcore in Hpause; [|reflexivity].
        destruct Hpause as [R1 R2]. auto.
      * intros H. inversion H; subst g'.
        assert (Hrefl : pause_frame
                  (set_objs spaceship
                     (<[j := set_health (Some {| value := value h - 1 |}) ship]>
                        (objs spaceship g2)) g2)
                = pause_frame
                    (set_objs spaceship
                       (<[j := set_health (Some {| value := value h - 1 |}) ship]>
                          (objs spaceship g2)) g2)) by reflexivity.
        apply Hcore in Hrefl; [|reflexivity].
        destruct Hrefl as [R1 R2]. auto.
    + intros H. inversion H; subst g'.
      split; [|split; [reflexivity|exact Hidle]].
      split; [split; assumption|eauto].
Qed.

Lemma projectile_loop_total (lm : Libm) (j : nat) (ps : list nat) :
  forall (g : Game) (b : Z),
  blast_ready g -> boxed g ->
  (forall i, i ∈ ps -> (i < length (objs projectile g))%nat) ->
  (1 <= j < length (objs spaceship g))%nat ->
  healthy b g -> (Z.of_nat (length ps) <= b)%Z ->
  exists g', for_each (hit_projectile lm j) ps g = Done g' /\
             blast_ready g' /\ aabb_profile g' = aabb_profile g /\
             healthy (b - Z.of_nat (length ps)) g'.
Proof.
  induction ps as [|i rest IH]; intros g b Hready Hboxed Hin Hj Hhealth Hb.
  - exists g. cbn [for_each length]. split; [reflexivity|]. split; [exact Hready|].
    split; [reflexivity|]. eapply healthy_weaken; [|exact Hhealth]. cbn. lia.
  - cbn [length] in Hb.
    destruct (hit_projectile_total lm j i g b) as (g1 & Hrun & Hr1 & Hp1 & Hh1); auto.
    { apply Hin. left. }
    { lia. }
    destruct (profile_lengths _ _ Hp1) as [Lp Ls].
    destruct (IH g1 (b - 1)%Z) as (g' & Hrest & Hr' & Hp' & Hh'); auto.
    { eapply boxed_profile; eassumption. }
    { intros k Hk. rewrite Lp. apply Hin. right. exact Hk. }
    { rewrite Ls. exact Hj. }
    { lia. }
    exists g'. cbn [for_each]. rewrite Hrun. cbn [mbind outcome_bind].
    split; [exact Hrest|]. split; [exact Hr'|]. split; [congruence|].
    eapply healthy_weaken; [|exact Hh']. cbn [length]. lia.
Qed.

Lemma spaceship_loop_total (lm : Libm) (js : list nat) :
  forall (g : Game) (b : Z),
  blast_ready g -> boxed g ->
  (forall j, j ∈ js -> (1 <= j < length (objs spaceship g))%nat) ->
  healthy b g ->
  (Z.of_nat (length js * length (objs projectile g)) <= b)%Z ->
  exists g',
    for_each (fun j g' =>
                for_each (hit_projectile lm j) (seq 0 (length (objs projectile g'))) g')
             js g = Done g' /\
    blast_ready g' /\ aabb_profile g' = aabb_profile g.
Proof.
  induction js as [|j rest IH]; intros g b Hready Hboxed Hin Hhealth Hb.
  - exists g. cbn [for_each]. auto.
  - cbn [length] in Hb.
    destruct (projectile_loop_total lm j (seq 0 (length (objs projectile g))) g b)
      as (g1 & Hrun & Hr1 & Hp1 & Hh1); auto.
    { intros i Hi. apply elem_of_seq in Hi. lia. }
    { apply Hin. left. }
    { rewrite length_seq. lia. }
    rewrite length_seq in Hh1.
    destruct (profile_lengths _ _ Hp1) as [Lp Ls].
    destruct (IH g1 (b - Z.of_nat (length (objs projectile g)))%Z)
      as (g' & Hrest & Hr' & Hp'); auto.
    { eapply boxed_profile; eassumption. }
    { intros k Hk. rewrite Ls. apply Hin. right. exact Hk. }
    { rewrite Lp. lia. }
    exists g'. cbn [for_each]. rewrite Hrun. cbn [mbind outcome_bind].
    split; [exact Hrest|]. split; [exact Hr'|congruence].
Qed.

Lemma projectile_pass_total (lm : Libm) (g : Game) (b : Z) :
  blast_ready g -> boxed g -> healthy b g ->
  (Z.of_nat (length (objs spaceship g) * length (objs projectile g)) <= b)%Z ->
  exists g', projectile_spaceship_collision lm g = Done g' /\
             blast_ready g' /\ aabb_profile g' = aabb_profile g.
Proof.
  intros Hready Hboxed Hhealth Hb. unfold projectile_spaceship_collision.
  destruct (objs spaceship g) as [|pl enemies] eqn:Hs.
  { destruct Hready as [[_ Hne] _]. congruence. }
  apply (spaceship_loop_total lm (seq 1 (length enemies)) g b); auto.
  - intros j Hj. apply elem_of_seq in Hj. rewrite Hs. cbn [length]. lia.
  - rewrite length_seq. cbn [length] in Hb. lia.
Qed.

Lemma hit_player_total (lm : Libm) (j : nat) (g : Game) :
  blast_ready g -> boxed g -> (j < length (objs spaceship g))%nat ->
  exists g', hit_player lm j g = Done g' /\
             blast_ready g' /\ aabb_profile g' = aabb_profile g.
Proof.
  intros ([Hk Hne] & [tex Htex] & [wav Hwav]) [Hbp Hbs] Hj.
  assert (H0 : (0 < length (objs spaceship g))%nat).
  { destruct (objs spaceship g); [congruence|cbn; lia]. }
  destruct (lookup_lt_is_Some_2 _ _ H0) as [pl Hp].
  destruct (lookup_lt_is_Some_2 _ _ Hj) as [en Hs].
  assert (Hpb : has_aabb pl) by (eapply Forall_lookup_1 in Hbs; eassumption).
  assert (Hsb : has_aabb en) by (eapply Forall_lookup_1 in Hbs; eassumption).
  assert (Hdone : exists g', hit_player lm j g = Done g' /\ blast_ready g').
  { unfold hit_player. rewrite Hp, Hs. cbn [deref mbind outcome_bind].
    unfold has_aabb in Hpb, Hsb.
    destruct (aabb pl) as [pb|]; [|congruence].
    destruct (aabb en) as [sb|]; [|congruence].
    cbn [deref mbind outcome_bind].
    destruct (collision _ _).
    - destruct (spawn_explosion_at_done (position (transform pl)) g tex wav Htex Hwav)
        as (ex & g1 & Hspawn & _ & _ & Hframe). rewrite Hspawn. cbn [mbind outcome_bind].
      apply spawn_frame_inv in Hframe as [(_ & Hships1 & _) [(Ht1 & Ha1 & Hk1 & _) _]].
      match goal with |- exists g', game_pause ?g3 = Done g' /\ _ =>
        assert (Hr3 : pause_ready g3) end.
      { split.
        - change (key_handlers g1 = init_key_handlers ∅). congruence.
        - rewrite objs_set_objs_eq. intros E. apply (f_equal length) in E.
          rewrite length_insert, Hships1 in E. cbn [length] in E. lia. }
      destruct (game_pause_done _ Hr3) as (g4 & Hpause & Hframe4 & _).
      exists g4. split; [exact Hpause|].
      split; [eapply pause_ready_frame; eassumption|].
      apply pause_frame_inv in Hframe4 as [_ [(Ht4 & Ha4 & _) _]].
      rewrite Ht4, Ha4.
      change (is_Some (textures g1 !! "Explosion.png") /\
              is_Some (audios g1 !! "explosionCrunch_000.wav")).
      rewrite Ht1, Ha1. eauto.
    - exists g. split; [reflexivity|]. split; [split; assumption|eauto]. }
  destruct Hdone as (g' & Hrun & Hr'). exists g'. split; [exact Hrun|].
  split; [exact Hr'|]. apply hit_player_needs in Hrun as [Hprof _]. exact Hprof.
Qed.

Lemma player_pass_total (lm : Libm) (g : Game) :
  blast_ready g -> boxed g ->
  exists g', player_enemy_collision lm g = Done g' /\
             blast_ready g' /\ aabb_profile g' = aabb_profile g.
Proof.
  intros Hready Hboxed. unfold player_enemy_collision.
  destruct (paused g); [exists g; auto|].
  destruct (objs spaceship g) as [|pl enemies] eqn:Hs.
  { destruct Hready as [[_ Hne] _]. congruence. }
  assert (Hloop : forall (js : list nat) (g0 : Game),
            blast_ready g0 -> boxed g0 ->
            (forall j, j ∈ js -> (j < length (objs spaceship g0))%nat) ->
            exists g', for_each (hit_player lm) js g0 = Done g' /\
                       blast_ready g' /\ aabb_profile g' = aabb_profile g0).
  { induction js as [|j rest IH]; intros g0 Hr0 Hb0 Hin; cbn [for_each].
    - exists g0. auto.
    - destruct (hit_player_total lm j g0 Hr0 Hb0) as (g1 & Hrun & Hr1 & Hp1).
      { apply Hin. left. }
      destruct (profile_lengths _ _ Hp1) as [_ Ls].
      destruct (IH g1 Hr1) as (g' & Hrest & Hr' & Hp').
      { eapply boxed_profile; eassumption. }
      { intros k Hk. rewrite Ls. apply Hin. right. exact Hk. }
      exists g'. rewrite Hrun. cbn [mbind outcome_bind].
      split; [exact Hrest|]. split; [exact Hr'|congruence]. }
  apply Hloop; auto.
  intros j Hj. apply elem_of_seq in Hj. rewrite Hs. cbn [length]. lia.
Qed.

Lemma timer_frame_inv (g g' : Game) :
  timer_frame g' = timer_frame g ->
  (objs background g' = objs background g /\ objs spaceship g' = objs spaceship g /\
   objs explosion g' = objs explosion g /\ objs gui g' = objs gui g /\
   objs text g' = objs text g) /\
  (textures g' = textures g /\ audios g' = audios g /\ key_handlers g' = key_handlers g).
Proof.
  unfold timer_frame. intros H. injection H. intros. repeat split; assumption.
Qed.

Lemma fire_ready_frame (g g' : Game) :
  timer_frame g' = timer_frame g -> fire_ready g -> fire_ready g'.
Proof.
  intros H (Hs & Ht & Ha). apply timer_frame_inv in H as [(_ & Es & _) (Et & Ea & _)].
  unfold fire_ready. rewrite Es, Et, Ea. auto.
Qed.

Lemma spawn_projectile_spec (g : Game) :
  fire_ready g ->
  exists g' p1 p2,
    spawn_projectile g = Done g' /\
    objs projectile g' = objs projectile g ++ [p1; p2] /\
    fresh p1 /\ fresh p2 /\ timer_frame g' = timer_frame g.
Proof.
  intros (Hs & [tex Htex] & [wav Hwav]).
  destruct g as [? ? ? ? ? ? [[bg sh pj ex gu tx]] au te kh ks ? ? ? ? ? ?].
  cbn in Htex, Hwav, Hs.
  destruct sh as [|p rest]; [congruence|].
  unfold spawn_projectile, create_player_projectile, player.
  repeat (cbn; known_lookups).
  do 3 eexists. split; [reflexivity|].
  split.
  { unfold objs; cbn. repeat (destruct (decide _); [|congruence]).
    rewrite <- app_assoc. reflexivity. }
  split; [split; [discriminate|split; [exact I|discriminate]]|].
  split; [split; [discriminate|split; [exact I|discriminate]]|].
  reflexivity.
Qed.

Lemma no_extra (n : nat) (g g' : Game) :
  objs projectile g' = objs projectile g -> timer_frame g' = timer_frame g ->
  objs projectile g' = objs projectile g ++ [] /\
  Forall fresh [] /\ (length (@nil GameObject) <= n)%nat /\
  timer_frame g' = timer_frame g.
Proof.
  intros Hp Hf. rewrite app_nil_r. split; [exact Hp|]. split; [constructor|].
  split; [cbn; lia|exact Hf].
Qed.

Lemma update_timed_action_spec (dt time : Q) (key : Z) (g : Game) :
  fire_ready g ->
  exists g' extra,
    update_timed_action dt time key g = Done g' /\
    objs projectile g' = objs projectile g ++ extra /\
    Forall fresh extra /\ (length extra <= 2)%nat /\
    timer_frame g' = timer_frame g.
Proof.
  intros Hready. unfold update_timed_action.
  destruct (timed_actions g !! key) as [ta|].
  2: { exists g, []. split; [reflexivity|]. apply no_extra; reflexivity. }
  unfold TimedAction_update.
  destruct (Qgeb (tick_dt ta + dt) (ta_duration ta)); cbn [fst snd].
  2: { eexists _, []. split; [reflexivity|]. apply no_extra; reflexivity. }
  cbn [mbind outcome_bind]. destruct (action ta); cbn [run_action].
  - eexists _, []. split; [reflexivity|]. apply no_extra; reflexivity.
  - match goal with |- context [spawn_projectile ?g1] =>
      destruct (spawn_projectile_spec g1) as (g' & p1 & p2 & Hrun & Hproj & F1 & F2 & Hfr)
    end.
    { eapply fire_ready_frame; [|exact Hready]. reflexivity. }
    exists g', [p1; p2]. split; [exact Hrun|]. split; [exact Hproj|].
    split; [constructor; [exact F1|constructor; [exact F2|constructor]]|].
    split; [cbn; lia|exact Hfr].
Qed.

Lemma update_timed_actions_loop (dt time : Q) (keys : list Z) :
  forall g : Game,
  fire_ready g ->
  exists g' extra,
    for_each (update_timed_action dt time) keys g = Done g' /\
    objs projectile g' = objs projectile g ++ extra /\
    Forall fresh extra /\ (length extra <= 2 * length keys)%nat /\
    timer_frame g' = timer_frame g.
Proof.
  induction keys as [|key rest IH]; intros g Hready; cbn [for_each].
  - exists g, []. split; [reflexivity|]. apply no_extra; reflexivity.
  - destruct (update_timed_action_spec dt time key g Hready)
      as (g1 & e1 & Hrun & Hp1 & F1 & L1 & Hf1).
    destruct (IH g1) as (g' & e2 & Hrest & Hp2 & F2 & L2 & Hf2).
    { eapply fire_ready_frame; eassumption. }
    exists g', (e1 ++ e2). rewrite Hrun. cbn [mbind outcome_bind].
    split; [exact Hrest|]. split; [rewrite Hp2, Hp1, app_assoc; reflexivity|].
    split; [apply Forall_app; auto|]. split; [rewrite length_app; cbn [length]; lia|].
    congruence.
Qed.

Lemma update_timed_actions_spec (dt time : Q) (g : Game) :
  fire_ready g ->
  exists g' extra,
    update_timed_actions dt time g = Done g' /\
    objs projectile g' = objs projectile g ++ extra /\
    Forall fresh extra /\ (length extra <= 2 * size (timed_actions g))%nat /\
    timer_frame g' = timer_frame g.
Proof.
  intros Hready. unfold update_timed_actions.
  destruct (update_timed_actions_loop dt time (map_to_list (timed_actions g)).*1 g Hready)
    as (g' & extra & Hrun & Hp & F & L & Hf).
  exists g', extra. rewrite length_fmap, length_map_to_list in L. auto 6.
Qed.

Lemma Forall_List_filter {A} (P : A -> Prop) (f : A -> bool) (l : list A) :
  Forall P l -> Forall P (List.filter f l).
Proof.
  induction 1 as [|a l Ha Hl IH]; cbn; [constructor|].
  destruct (f a); [constructor; assumption|exact IH].
Qed.

Lemma update_object_health (lm : Libm) (screen : Aabb) (dt time : Q) (obj obj' : GameObject) :
  update_object lm screen dt time obj = Done obj' -> health obj' = health obj.
Proof.
  unfold update_object.
  destruct (sprite_system dt (motion_system dt obj)) as [obj2| |] eqn:E2; cbn; try discriminate.
  destruct (offscreen_system lm screen _) as [obj4| |] eqn:E4; cbn; try discriminate.
  intros H. inversion H; subst. clear H.
  assert (H2 : health obj2 = health obj).
  { revert E2. unfold sprite_system.
    change (sprite_animation (motion_system dt obj)) with (sprite_animation obj).
    destruct (sprite_animation obj) as [sa|]; [|intros H; inversion H; reflexivity].
    destruct (update_frame sa dt) as [sa'| |]; cbn; try discriminate.
    destruct (expired sa'); intros H; inversion H; subst;
      rewrite ?(proj1 (proj2 (proj2 (retire_keeps _)))); reflexivity. }
  assert (H3 : health (custom_update_system lm dt time obj2) = health obj2).
  { unfold custom_update_system. destruct (update obj2) as [[]|]; reflexivity. }
  assert (H4 : health obj4 = health (custom_update_system lm dt time obj2)).
  { revert E4. unfold offscreen_system.
    destruct (offscreen_destroy _); [|intros H; inversion H; reflexivity].
    destruct (aabb _); cbn; [|discriminate].
    destruct (negb _); [destruct (delay_erasing _)|]; intros H; inversion H; reflexivity. }
  assert (H5 : health (screen_bound_system screen obj4) = health obj4).
  { unfold screen_bound_system. destruct (screen_bound obj4); reflexivity. }
  congruence.
Qed.

Lemma outside_scene_inv (g g' : Game) :
  outside_scene g' = outside_scene g ->
  key_handlers g' = key_handlers g /\ textures g' = textures g /\ audios g' = audios g.
Proof.
  unfold outside_scene. intros H. injection H. intros. repeat split; assumption.
Qed.

Lemma updated_keeps_boxes (lm : Libm) (screen : Aabb) (dt time : Q)
    (os os' : list GameObject) :
  Forall2 (updated_to lm screen dt time) os os' ->
  Forall has_aabb os -> Forall has_aabb os'.
Proof.
  induction 1 as [|o o' os os' Ho Hos IH]; intros Hb; [constructor|].
  inversion Hb; subst. constructor; [|apply IH; assumption].
  apply update_object_keeps in Ho as (Ha & _). unfold has_aabb in *. congruence.
Qed.

Lemma tick_layers (g g1 : Game) (extra : list GameObject) (P : GameObject -> Prop) :
  timer_frame g1 = timer_frame g ->
  objs projectile g1 = objs projectile g ++ extra ->
  Forall P extra ->
  forall l, Forall P (objs l g) -> Forall P (objs l g1).
Proof.
  intros Hf Hp Hextra l Hl.
  apply timer_frame_inv in Hf as [(E1 & E2 & E3 & E4 & E5) _].
  destruct l; rewrite ?E1, ?E2, ?E3, ?E4, ?E5, ?Hp; try exact Hl.
  apply Forall_app. split; assumption.
Qed.

Lemma erasing_and_picking (lm : Libm) (g : Game) :
  let g' := cursor_picking lm (update_erasing g) in
  key_handlers g' = key_handlers g /\ textures g' = textures g /\ audios g' = audios g /\
  forall l, objs l g' = List.filter (fun obj => negb (erased g obj)) (objs l g).
Proof.
  cbv zeta. rewrite cursor_picking_eq.
  split; [reflexivity|]. split; [reflexivity|]. split; [reflexivity|].
  intros l. apply (update_erasing_layer g l).
Qed.


Lemma bind_done {A B} (m : outcome A) (f : A -> outcome B) (a : A) (b : B) :
  m = Done a -> f a = Done b -> m ≫= f = Done b.
Proof. intros -> H. exact H. Qed.

Lemma tick_before_collisions (lm : Libm) (g : Game) (dt time : Q) :
  tick_ready g ->
  exists g1 g4,
    update_timed_actions dt time g = Done g1 /\
    update_all_objects lm dt time (cursor_picking lm (update_erasing g1)) = Done g4 /\
    blast_ready g4 /\ boxed g4 /\ healthy (hit_budget g) g4 /\
    (Z.of_nat (length (objs spaceship g4) * length (objs projectile g4))
     <= hit_budget g)%Z.
Proof.
  intros (Hk & [Ht1 Ha1] & [Ht2 Ha2] & Hupd & [Hbp Hbs] & pl & enemies & Hs & Hpl & Hsturdy).
  destruct (update_timed_actions_spec dt time g) as (g1 & extra & Hrun1 & Hp1 & F1 & L1 & Hf1).
  { split; [rewrite Hs; discriminate|auto]. }
  exists g1.
  pose proof (timer_frame_inv _ _ Hf1) as [(_ & Hs1 & _) (Et1 & Ea1 & Ek1)].
  destruct (erasing_and_picking lm g1) as (Ek3 & Et3 & Ea3 & Hl3).
  set (g3 := cursor_picking lm (update_erasing g1)) in *. clearbody g3.
  assert (Hs3 : objs spaceship g3
                = pl :: List.filter (fun obj => negb (erased g1 obj)) enemies).
  { rewrite Hl3, Hs1, Hs. cbn [List.filter]. unfold erased at 1. rewrite Hpl. reflexivity. }
  assert (Hall3 : forall (P : GameObject -> Prop) l,
            Forall P extra -> Forall P (objs l g) -> Forall P (objs l g3)).
  { intros P l He Hl. rewrite Hl3. apply Forall_List_filter.
    eapply tick_layers; eassumption. }
  destruct (update_all_objects_spec lm dt time g3) as (g4 & Hrun4 & Hpt & _ & Hout4).
  { intros l. apply Hall3; [|apply Hupd].
    eapply Forall_impl; [exact F1|]. intros o [_ Ho]. exact Ho. }
  exists g4. split; [exact Hrun1|]. split; [exact Hrun4|].
  apply outside_scene_inv in Hout4 as (Ek4 & Et4 & Ea4).
  assert (Ls4 : length (objs spaceship g4) = length (objs spaceship g3)).
  { symmetry. eapply Forall2_length. apply Hpt. }
  assert (Lp4 : length (objs projectile g4) = length (objs projectile g3)).
  { symmetry. eapply Forall2_length. apply Hpt. }
  split.
  { split; [split|].
    - rewrite Ek4, Ek3, Ek1. exact Hk.
    - intros E. rewrite E, Hs3 in Ls4. discriminate.
    - rewrite Et4, Ea4, Et3, Ea3, Et1, Ea1. auto. }
  split.
  { split.
    - eapply updated_keeps_boxes; [apply Hpt|]. apply Hall3; [|exact Hbp].
      eapply Forall_impl; [exact F1|]. intros o [Ho _]. exact Ho.
    - eapply updated_keeps_boxes; [apply Hpt|]. apply Hall3; [|exact Hbs].
      eapply Forall_impl; [exact F1|]. intros o [Ho _]. exact Ho. }
  split.
  { intros k ship' Hk1 Hship'.
    destruct (Forall2_lookup_r _ _ _ _ _ (Hpt spaceship) Hship') as (ship & Hship & Hto).
    apply update_object_health in Hto. rewrite Hto.
    rewrite Hs3 in Hship. destruct k as [|k]; [lia|]. cbn in Hship.
    apply list_elem_of_lookup_2, list_elem_of_In, filter_In in Hship as [Hin _].
    apply list_elem_of_In in Hin.
    eapply Forall_forall in Hsturdy; [|exact Hin]. exact Hsturdy. }
  unfold hit_budget. apply Nat2Z.inj_le. rewrite Ls4, Lp4, !Hl3, Hs1, Hp1.
  apply Nat.mul_le_mono.
  - apply filter_length_le.
  - etransitivity; [apply filter_length_le|]. rewrite length_app. lia.
Qed.

(** X25: a tick on a game that is ready for it -- see [tick_ready] --
    runs to its end: no empty optional is dereferenced, no index is out of
    range, no health counter overflows, no assertion fails.  Afterwards
    the key handlers and the explosion assets are still in place and every
    projectile and spaceship still carries its bounding box. *)
Theorem game_update_completes (lm : Libm) (g : Game) (dt time : Q) :
  tick_ready g ->
  exists g', game_update lm g dt time = Done g' /\ blast_ready g' /\ boxed g'.
Proof.
  intros Hready.
  destruct (tick_before_collisions lm g dt time Hready)
    as (g1 & g4 & Hrun1 & Hrun4 & Hready4 & Hboxed4 & Hhealthy4 & Hbudget).
  destruct (projectile_pass_total lm g4 (hit_budget g) Hready4 Hboxed4 Hhealthy4 Hbudget)
    as (g5 & Hrun5 & Hready5 & Hprof5).
  pose proof (boxed_profile _ _ Hprof5 Hboxed4) as Hboxed5.
  destruct (player_pass_total lm g5 Hready5 Hboxed5) as (g6 & Hrun6 & Hready6 & Hprof6).
  exists g6. split; [|split; [exact Hready6|eapply boxed_profile; eassumption]].
  unfold game_update.
  apply (bind_done _ _ g1 _ Hrun1). cbv beta zeta.
  apply (bind_done _ _ g4 _ Hrun4).
  apply (bind_done _ _ g5 _ Hrun5). exact Hrun6.
Qed.


Lemma scenario_hit_tick_ready : tick_ready scenario_hit.
Proof.
  split; [vm_compute; reflexivity|].
  split; [split; eexists; vm_compute; reflexivity|].
  split; [split; eexists; vm_compute; reflexivity|].
  split.
  { intros l. destruct l; eval_list; repeat constructor;
      try (vm_compute; lia); try (vm_compute; intros; discriminate);
      try (vm_compute; tauto). }
  split.
  { split; eval_list; repeat constructor; vm_compute; discriminate. }
  exists first_ship, [the_enemy].
  split; [vm_compute; reflexivity|]. split; [reflexivity|].
  constructor; [|constructor].
  eexists. split; [vm_compute; reflexivity|]. vm_compute. discriminate.
Qed.

Lemma game_update_completes_witness :
  tick_ready scenario_hit /\
  exists g', game_update libm_at_zero scenario_hit timestep 0 = Done g' /\
             blast_ready g' /\ boxed g'.
Proof.
  split; [exact scenario_hit_tick_ready|].
  exact (game_update_completes libm_at_zero scenario_hit timestep 0 scenario_hit_tick_ready).
Defined.

(** ** GL names and their owners *)

(** X26: [update_text_globject] never gives a name back.  When the new
    text has as many vertices and indices as the old one, the object and
    the driver are left as they are; when it has not, the object ends up
    owning two buffers and a vertex array that were not in use before,
    and the names it owned are still live in the driver although the
    object holds none of them any more: the move assignment overwrote
    them and the destructor of the temporary found only zeros. *)
Theorem update_text_globject_keeps_names (nv ni : nat) (glo : GLObject) (d : GLDriver) :
  driver_ok d -> owns glo d ->
  let '(glo', d') := update_text_globject nv ni glo d in
  ((nv, ni) = (num_vertices glo, num_indices glo) -> glo' = glo /\ d' = d) /\
  ((nv, ni) <> (num_vertices glo, num_indices glo) ->
   driver_ok d' /\ owns glo' d' /\
   ((vbo glo' ∉ live_buffers d) /\ (ebo glo' ∉ live_buffers d) /\
    (vao glo' ∉ live_arrays d)) /\
   (owns glo d' /\ apart glo glo') /\
   live_buffers d' = {[ vbo glo' ]} ∪ ({[ ebo glo' ]} ∪ live_buffers d) /\
   live_arrays d' = {[ vao glo' ]} ∪ live_arrays d).
Proof.
  intros [Hokb Hoka] (H1 & H2 & H3). unfold update_text_globject.
  destruct ((nv =? num_vertices glo)%nat && (ni =? num_indices glo)%nat) eqn:E.
  - split; [auto|]. intros Hne. apply andb_true_iff in E as [E1 E2].
    apply Nat.eqb_eq in E1, E2. congruence.
  - split.
    { intros H. inversion H; subst. rewrite !Nat.eqb_refl in E. discriminate. }
    intros _.
    unfold upload_textured_globject, glGenBuffers, glGenVertexArrays, GLObject_move_assign,
      GLObject_destroy.
    cbn [vbo ebo vao Nat.eqb next_buffer live_buffers next_array live_arrays].
    unfold owns, apart, driver_ok.
    cbn [vbo ebo vao next_buffer live_buffers next_array live_arrays].
    pose proof (Hokb _ H1) as B1. pose proof (Hokb _ H2) as B2. pose proof (Hoka _ H3) as B3.
    split; [split|].
    + intros k Hk. rewrite !elem_of_union, !elem_of_singleton in Hk.
      destruct Hk as [->|[->|Hk]]; try lia. apply Hokb in Hk. lia.
    + intros k Hk. rewrite !elem_of_union, !elem_of_singleton in Hk.
      destruct Hk as [->|Hk]; try lia. apply Hoka in Hk. lia.
    + split; [rewrite !elem_of_union, !elem_of_singleton; auto 6|].
      split.
      { split; [|split]; intros Hin; [apply Hokb in Hin|apply Hokb in Hin|apply Hoka in Hin];
          lia. }
      split; [|split; apply set_eq; intros x;
                 rewrite !elem_of_union, !elem_of_singleton; tauto].
      split; [rewrite !elem_of_union; auto 6|]. repeat split; lia.
Qed.

Lemma update_text_globject_keeps_names_witness :
  (driver_ok (snd seven_chars) /\ owns (fst seven_chars) (snd seven_chars)) /\
  (vbo (fst seven_chars), ebo (fst seven_chars), vao (fst seven_chars)) = (1, 2, 1)%nat /\
  owns (fst seven_chars)
       (snd (update_text_globject 32 48 (fst seven_chars) (snd seven_chars))) /\
  apart (fst seven_chars)
        (fst (update_text_globject 32 48 (fst seven_chars) (snd seven_chars))).
Proof.
  assert (H1 : driver_ok (snd seven_chars)).
  { split; intros k Hk; cbn in Hk; rewrite ?elem_of_union, ?elem_of_singleton in Hk; cbn.
    - destruct Hk as [->|[->|Hk]]; try lia. apply elem_of_empty in Hk. contradiction.
    - destruct Hk as [->|Hk]; try lia. apply elem_of_empty in Hk. contradiction. }
  assert (H2 : owns (fst seven_chars) (snd seven_chars)).
  { repeat split; cbn; rewrite !elem_of_union, !elem_of_singleton; auto 6. }
  split; [exact (conj H1 H2)|]. split; [reflexivity|].
  pose proof (update_text_globject_keeps_names 32 48 (fst seven_chars) (snd seven_chars)
                H1 H2) as H.
  destruct (update_text_globject 32 48 (fst seven_chars) (snd seven_chars)) as [glo' d'].
  destruct H as [_ H]. destruct H as (_ & _ & _ & Hold & _); [discriminate|].
  exact Hold.
Defined.

(** ** The frame rate readout *)

Lemma fps_step (lo hi f1 dt total : Q) (n : nat) (st : FpsStatics) (avg f : Q) :
  0 < dt -> lo <= 1 / dt -> 1 / dt <= hi ->
  (N.of_nat n + 2 < SIZE_MODULUS)%N ->
  fps_avg st = Some avg -> fps st = Some f ->
  (1 <= fps_counter st <= N.of_nat n + 1)%N ->
  inject_Z (Z.of_N (fps_counter st)) * lo <= avg ->
  avg <= inject_Z (Z.of_N (fps_counter st)) * hi ->
  (fps_dt st == total /\ total <= kPeriod /\ f == 2 * f1) \/
  (kPeriod < total /\ lo <= f /\ f <= hi) ->
  let st' := fst (update_fps dt st) in
  exists avg' f',
    fps_avg st' = Some avg' /\ fps st' = Some f' /\
    (1 <= fps_counter st' <= N.of_nat (S n) + 1)%N /\
    inject_Z (Z.of_N (fps_counter st')) * lo <= avg' /\
    avg' <= inject_Z (Z.of_N (fps_counter st')) * hi /\
    ((fps_dt st' == total + dt /\ total + dt <= kPeriod /\ f' == 2 * f1) \/
     (kPeriod < total + dt /\ lo <= f' /\ f' <= hi)).
Proof.
  intros Hdt Hlo Hhi Hn Havg Hf [Hc1 Hc2] Hal Hah Hcase. cbv zeta.
  unfold update_fps. rewrite Havg, Hf. cbn [default from_option]. unfold id.
  assert (Hmod : ((fps_counter st + 1) mod SIZE_MODULUS = fps_counter st + 1)%N).
  { apply N.mod_small. lia. }
  rewrite Hmod.
  assert (Hc : inject_Z (Z.of_N (fps_counter st + 1))
               == inject_Z (Z.of_N (fps_counter st)) + 1).
  { rewrite N2Z.inj_add, inject_Z_plus. reflexivity. }
  assert (Hcpos : 1 <= inject_Z (Z.of_N (fps_counter st))).
  { change 1 with (inject_Z 1). rewrite <- Zle_Qle. lia. }
  set (c := inject_Z (Z.of_N (fps_counter st))) in *.
  set (now := 1 / dt) in *. clearbody now c.
  destruct (Qgtb (fps_dt st + dt) kPeriod) eqn:E.
  - apply Qgtb_gt in E.
    set (c1 := inject_Z (Z.of_N (fps_counter st + 1))) in *. clearbody c1.
    assert (Hmean : lo <= (avg + now) / c1 /\ (avg + now) / c1 <= hi).
    { assert (Hc1pos : 0 < c1) by lra.
      split.
      - apply Qle_shift_div_l; [exact Hc1pos|]. rewrite Hc. nra.
      - apply Qle_shift_div_r; [exact Hc1pos|]. rewrite Hc. nra. }
    assert (Hlate : kPeriod < total + dt).
    { destruct Hcase as [(Ht & _ & _)|(Ht & _)]; [rewrite <- Ht; exact E|lra]. }
    destruct (negb _); cbn [fst fps_avg fps fps_counter fps_dt];
      (eexists _, _; split; [reflexivity|]; split; [reflexivity|];
       split; [lia|]; change (inject_Z (Z.of_N 1)) with 1;
       split; [lra|]; split; [lra|]; right; tauto).
  - apply Qltb_ge in E.
    assert (Hcases : (fps_dt st + dt == total + dt /\ total + dt <= kPeriod /\ f == 2 * f1) \/
                     (kPeriod < total + dt /\ lo <= f /\ f <= hi)).
    { destruct Hcase as [(Ht & Hle & Hf1)|(Ht & Hb)].
      - left. split; [rewrite Ht; reflexivity|]. split; [rewrite <- Ht; exact E|exact Hf1].
      - right. split; [lra|exact Hb]. }
    destruct (negb _); cbn [fst fps_avg fps fps_counter fps_dt];
      (eexists _, _; split; [reflexivity|]; split; [reflexivity|];
       split; [lia|]; split; [rewrite Hc; nra|]; split; [rewrite Hc; nra|];
       exact Hcases).
Qed.

Lemma fps_window_total (lo hi f1 total total' : Q) (n n' : nat) (st : FpsStatics) :
  total == total' -> (n <= n')%nat ->
  fps_window lo hi f1 total n st -> fps_window lo hi f1 total' n' st.
Proof.
  intros Ht Hn (avg & f & Ha & Hf & [Hc1 Hc2] & Hl & Hh & Hcase).
  exists avg, f. split; [exact Ha|]. split; [exact Hf|]. split; [lia|].
  split; [exact Hl|]. split; [exact Hh|].
  destruct Hcase as [(H1 & H2 & H3)|(H1 & H2)].
  - left. split; [rewrite H1; exact Ht|]. split; [rewrite <- Ht; exact H2|exact H3].
  - right. split; [rewrite <- Ht; exact H1|exact H2].
Qed.

Lemma fps_first (lo hi dt : Q) :
  0 < dt -> lo <= 1 / dt -> 1 / dt <= hi ->
  fps_window lo hi (1 / dt) dt 1 (fst (update_fps dt fps_start)).
Proof.
  intros Hdt Hlo Hhi. unfold update_fps, fps_start.
  cbn [fps_counter fps_avg fps_dt fps last_fps default from_option]. unfold id.
  change ((1 + 1) mod SIZE_MODULUS)%N with 2%N.
  change (inject_Z (Z.of_N 2)) with 2.
  set (now := 1 / dt) in *. clearbody now.
  destruct (Qgtb (0 + dt) kPeriod) eqn:E.
  - apply Qgtb_gt in E.
    assert (Hmean : (now + now) / 2 == now) by field.
    destruct (negb _); cbn [fst];
      (exists now, ((now + now) / 2); cbn [fps_avg fps fps_counter fps_dt];
       split; [reflexivity|]; split; [reflexivity|]; split; [lia|];
       change (inject_Z (Z.of_N 1)) with 1;
       split; [lra|]; split; [lra|]; right; rewrite Hmean; lra).
  - apply Qltb_ge in E.
    destruct (negb _); cbn [fst];
      (exists (now + now), (now + now); cbn [fps_avg fps fps_counter fps_dt];
       split; [reflexivity|]; split; [reflexivity|]; split; [lia|];
       change (inject_Z (Z.of_N 2)) with 2;
       split; [lra|]; split; [lra|]; left; lra).
Qed.

Lemma fps_loop (lo hi f1 : Q) (rest : list Q) :
  forall (st : FpsStatics) (n : nat) (total : Q),
  frame_rates_within lo hi rest ->
  (N.of_nat (n + length rest) + 2 < SIZE_MODULUS)%N ->
  fps_window lo hi f1 total n st ->
  fps_window lo hi f1 (total + elapsed rest) (n + length rest)
    (foldl (fun st dt => fst (update_fps dt st)) st rest).
Proof.
  induction rest as [|dt rest IH]; intros st n total Hok Hn Hinv.
  - cbn [foldl length]. unfold elapsed. cbn [fold_right].
    apply (fps_window_total lo hi f1 total _ n); [ring|lia|exact Hinv].
  - apply Forall_cons_1 in Hok. destruct Hok as [(Hdt & Hlo & Hhi) Hok].
    cbn [length] in Hn. cbn [foldl].
    destruct Hinv as (avg & f & Ha & Hf & Hc & Hl & Hh & Hcase).
    pose proof (fps_step lo hi f1 dt total n st avg f Hdt Hlo Hhi
                  ltac:(lia) Ha Hf Hc Hl Hh Hcase) as Hstep.
    cbv zeta in Hstep.
    apply (IH _ (S n) (total + dt) Hok) in Hstep; [|lia].
    apply (fps_window_total lo hi f1 (total + dt + elapsed rest) _
             (S n + length rest)); [unfold elapsed; cbn [fold_right]; ring|cbn [length]; lia|exact Hstep].
Qed.

(** X27: the frame rate readout.  Over frames whose rates [1 / dt] lie
    between [lo] and [hi], the value [update_fps] holds in [fps] is twice
    the rate of the first frame as long as the frames took no more than
    the period of 0.3 s together, and lies between [lo] and [hi] once they
    took longer. *)
Theorem update_fps_readout (lo hi dt1 : Q) (rest : list Q) :
  frame_rates_within lo hi (dt1 :: rest) ->
  (N.of_nat (length (dt1 :: rest)) + 2 < SIZE_MODULUS)%N ->
  exists f, fps (fps_after (dt1 :: rest)) = Some f /\
    (elapsed (dt1 :: rest) <= kPeriod -> f == 2 * (1 / dt1)) /\
    (kPeriod < elapsed (dt1 :: rest) -> lo <= f /\ f <= hi).
Proof.
  intros Hok Hn. apply Forall_cons_1 in Hok. destruct Hok as [(Hdt & Hlo & Hhi) Hok].
  pose proof (fps_first lo hi dt1 Hdt Hlo Hhi) as Hfirst.
  apply (fps_loop lo hi (1 / dt1) rest _ 1 dt1 Hok) in Hfirst; [|cbn [length] in Hn; lia].
  destruct Hfirst as (avg & f & _ & Hf & _ & _ & _ & Hcase).
  exists f. split; [exact Hf|].
  unfold elapsed. cbn [fold_right]. fold (elapsed rest).
  destruct Hcase as [(_ & H2 & H3)|(H1 & H2)]; split; intros H;
    solve [exact H3 | exact H2 | lra].
Qed.

Lemma update_fps_readout_witness :
  frame_rates_within 100 100 forty_frames /\
  (N.of_nat (length forty_frames) + 2 < SIZE_MODULUS)%N /\
  exists f, fps (fps_after forty_frames) = Some f /\
    (elapsed forty_frames <= kPeriod -> f == 2 * (1 / 0.01)) /\
    (kPeriod < elapsed forty_frames -> 100 <= f /\ f <= 100).
Proof.
  assert (Hok : frame_rates_within 100 100 forty_frames).
  { unfold frame_rates_within, forty_frames. cbn [replicate].
    repeat constructor; vm_compute; congruence. }
  assert (Hn : (N.of_nat (length forty_frames) + 2 < SIZE_MODULUS)%N)
    by (vm_compute; reflexivity).
  split; [exact Hok|]. split; [exact Hn|].
  exact (update_fps_readout 100 100 0.01 (replicate 39 0.01) Hok Hn).
Defined.
